(** * Syrent client prototype: the GUI bridge of [torrent_gui.py]

    A shallow embedding of the parts of [torrent_gui.py] that carry
    behaviour: the tri-state check box propagation of
    [TorrentAddingDialog], the sorted torrent list of [MainWindow], the
    control action dispatch, the shutdown of [ControlManagerThread] and the
    start-up sequence of [main].

    Qt objects are mutable and shared by reference.  A tree item is
    identified here by its path from the root item (the list of child
    indices), a list item by a serial number handed out at construction.
    [file_tree.sortItems] permutes siblings for display only; every loop of
    the source over the children of an item computes a result that does not
    depend on their order, so the model keeps the creation order. *)

From Stdlib Require Import ZArith Lia.
From stdpp Require Import base option list sorting gmap strings.

Open Scope Z_scope.

Set Warnings "-register-all,-clear-no-such-hyp".

(** ** Qt and [torrent_client.models] data used by the dialog *)

(** [Qt.CheckState]. *)
Inductive CheckState := Unchecked | PartiallyChecked | Checked.

Global Instance CheckState_eq_dec : EqDecision CheckState.
Proof. solve_decision. Defined.

Inductive Icon := file_icon | directory_icon.

Global Instance Icon_eq_dec : EqDecision Icon.
Proof. solve_decision. Defined.

Module Models.

(** [torrent_client.models.FileInfo]: the dialog reads [length] and
    [path]. *)
Record FileInfo := { length : Z; path : list string }.

(** [FileTreeNode]: a [FileInfo] or a dict from names to nodes (kept as the
    list of its [items()]). *)
Inductive FileTreeNode :=
| File (info : FileInfo)
| Dir (entries : list (string * FileTreeNode)).

(** The attributes of [DownloadInfo] read by the dialog. *)
Record DownloadInfo := {
  suggested_name : string;
  file_tree : FileTreeNode;
  files : list FileInfo;
  total_size : Z
}.

End Models.

Abbreviation FileInfo := Models.FileInfo.
Abbreviation FileTreeNode := Models.FileTreeNode.

(** A [QTreeWidgetItem] with the attributes the dialog sets. *)
Inductive QTreeWidgetItem := TreeItem {
  checkState : CheckState;
  text : string;
  icon : Icon;
  children : list QTreeWidgetItem
}.

Definition setCheckState (s : CheckState) (item : QTreeWidgetItem) : QTreeWidgetItem :=
  TreeItem s (text item) (icon item) (children item).

Definition with_children (kids : list QTreeWidgetItem) (item : QTreeWidgetItem)
  : QTreeWidgetItem :=
  TreeItem (checkState item) (text item) (icon item) kids.

(** Induction over items, with the hypothesis for every child. *)
Section ItemInduction.
Variable P : QTreeWidgetItem -> Prop.
Hypothesis step :
  forall s t i kids, Forall P kids -> P (TreeItem s t i kids).

Fixpoint item_ind' (item : QTreeWidgetItem) : P item :=
  match item with
  | TreeItem s t i kids =>
      step s t i kids
        ((fix go (l : list QTreeWidgetItem) : Forall P l :=
            match l with
            | [] => List.Forall_nil P
            | k :: l' => List.Forall_cons P k l' (item_ind' k) (go l')
            end) kids)
  end.
End ItemInduction.

(** *** Building the item tree: [_traverse_file_tree] *)

(** The item created for [node], with all its descendants; every item is
    created checked. *)
Fixpoint _traverse_file_tree (name : string) (node : FileTreeNode) : QTreeWidgetItem :=
  match node with
  | Models.File _ => TreeItem Checked name file_icon []
  | Models.Dir entries =>
      TreeItem Checked name directory_icon
        (map (fun e => _traverse_file_tree (fst e) (snd e)) entries)
  end.

(** The [(node, item)] pairs appended to [self._file_items], in the order
    of the traversal; the item is named by its path below the item created
    for [node], prefixed by [here]. *)
Fixpoint traverse_file_items (here : list nat) (node : FileTreeNode)
  : list (FileInfo * list nat) :=
  match node with
  | Models.File info => [(info, here)]
  | Models.Dir entries =>
      (fix go (i : nat) (es : list (string * FileTreeNode)) :=
         match es with
         | [] => []
         | e :: es' => traverse_file_items (here ++ [i]) (snd e) ++ go (S i) es'
         end) 0%nat entries
  end.

(** The item at a path. *)
Fixpoint item_at (p : list nat) (item : QTreeWidgetItem) : option QTreeWidgetItem :=
  match p with
  | [] => Some item
  | i :: p' =>
      match children item !! i with
      | Some c => item_at p' c
      | None => None
      end
  end.

(** *** [_set_check_state_to_tree] *)

(** Every descendant of [item] gets [check_state]; the item itself is not
    written.  The source writes the child and then descends into it; the
    descent never writes the child itself, so the two steps are taken here
    in the other order, which lets the recursion follow the structure. *)
Fixpoint _set_check_state_to_tree (item : QTreeWidgetItem) (check_state : CheckState)
  : QTreeWidgetItem :=
  match item with
  | TreeItem s t i kids =>
      TreeItem s t i
        (map (fun child =>
                setCheckState check_state (_set_check_state_to_tree child check_state))
             kids)
  end.

(** *** [_update_checkboxes] *)

(** The three flags of the loop over the children of an ancestor. *)
Record ChildFlags := {
  has_checked_children : bool;
  has_partially_checked_children : bool;
  has_unchecked_children : bool
}.

Definition flag_child (flags : ChildFlags) (child : QTreeWidgetItem) : ChildFlags :=
  match checkState child with
  | Checked =>
      {| has_checked_children := true;
         has_partially_checked_children := has_partially_checked_children flags;
         has_unchecked_children := has_unchecked_children flags |}
  | PartiallyChecked =>
      {| has_checked_children := has_checked_children flags;
         has_partially_checked_children := true;
         has_unchecked_children := has_unchecked_children flags |}
  | Unchecked =>
      {| has_checked_children := has_checked_children flags;
         has_partially_checked_children := has_partially_checked_children flags;
         has_unchecked_children := true |}
  end.

Definition child_flags (kids : list QTreeWidgetItem) : ChildFlags :=
  fold_left flag_child kids
    {| has_checked_children := false;
       has_partially_checked_children := false;
       has_unchecked_children := false |}.

(** The state the loop gives an ancestor with children [kids]. *)
Definition new_state (kids : list QTreeWidgetItem) : CheckState :=
  let flags := child_flags kids in
  if negb (has_partially_checked_children flags) && negb (has_unchecked_children flags)
  then Checked
  else if has_checked_children flags || has_partially_checked_children flags
  then PartiallyChecked
  else Unchecked.

(** The tree walk of [_update_checkboxes] for the clicked item at path [p]
    below [item]: the descendants of the clicked item take its state, then
    the [while] loop recomputes each ancestor from its children, parent
    first and root last.  Here the recursion goes down the path and the
    recomputation happens on the way back, so every ancestor reads its
    children after the level below has been written, as in the loop. *)
Fixpoint update_checkboxes_walk (p : list nat) (item : QTreeWidgetItem)
  : QTreeWidgetItem :=
  match p with
  | [] => _set_check_state_to_tree item (checkState item)
  | i :: p' =>
      match children item !! i with
      | Some child =>
          let kids := <[i := update_checkboxes_walk p' child]> (children item) in
          setCheckState (new_state kids) (with_children kids item)
      | None => item
      end
  end.

(** Writing the check state of the item at path [p] (what Qt does when the
    user toggles the box, before [itemClicked] is emitted). *)
Fixpoint set_state_at (p : list nat) (s : CheckState) (item : QTreeWidgetItem)
  : QTreeWidgetItem :=
  match p with
  | [] => setCheckState s item
  | i :: p' =>
      match children item !! i with
      | Some child => with_children (<[i := set_state_at p' s child]> (children item)) item
      | None => item
      end
  end.

(** *** The dialog *)

Inductive SelectionLabel :=
| NothingToDownload
| Selected (selected_file_count : nat) (selected_size : Z).

Record TorrentAddingDialog := {
  file_tree : QTreeWidgetItem;
  _file_items : list (FileInfo * list nat);
  ok_button_enabled : bool;
  _selection_label : SelectionLabel
}.

(** The loop of [_update_selection_label]: the number and the total length
    of the file items whose box is checked. *)
Definition selected_leaves (tree : QTreeWidgetItem) (file_items : list (FileInfo * list nat))
  : nat * Z :=
  fold_left
    (fun acc fi =>
       match item_at (snd fi) tree with
       | Some item =>
           if decide (checkState item = Checked)
           then (S (fst acc), snd acc + Models.length (fst fi))
           else acc
       | None => acc
       end)
    file_items (0%nat, 0).

Definition _update_selection_label (d : TorrentAddingDialog) : TorrentAddingDialog :=
  let '(selected_file_count, selected_size) := selected_leaves (file_tree d) (_file_items d) in
  if decide (selected_file_count = 0%nat)
  then {| file_tree := file_tree d; _file_items := _file_items d;
          ok_button_enabled := false; _selection_label := NothingToDownload |}
  else {| file_tree := file_tree d; _file_items := _file_items d;
          ok_button_enabled := true;
          _selection_label := Selected selected_file_count selected_size |}.

(** [_update_checkboxes(item, column)], the slot of [itemClicked]; [p] is
    the path of the clicked item.  The signal is only emitted for an item of
    the tree, so a path that names no item leaves the dialog alone. *)
Definition _update_checkboxes (p : list nat) (column : Z) (d : TorrentAddingDialog)
  : TorrentAddingDialog :=
  if decide (column <> 0) then d
  else
    match item_at p (file_tree d) with
    | None => d
    | Some _ =>
        _update_selection_label
          {| file_tree := update_checkboxes_walk p (file_tree d);
             _file_items := _file_items d;
             ok_button_enabled := ok_button_enabled d;
             _selection_label := _selection_label d |}
    end.

(** The part of [TorrentAddingDialog.__init__] that builds the file tree
    and the selection label: all the files are selected. *)
Definition TorrentAddingDialog_init (download_info : Models.DownloadInfo)
  : TorrentAddingDialog :=
  {| file_tree :=
       _traverse_file_tree (Models.suggested_name download_info)
                           (Models.file_tree download_info);
     _file_items := traverse_file_items [] (Models.file_tree download_info);
     ok_button_enabled := true;
     _selection_label :=
       Selected (length (Models.files download_info)) (Models.total_size download_info) |}.

(** A click of the user on the file tree.  [ToggleBox p s]: the box of the
    item at [p] is toggled, Qt writes the new state [s] on that item alone
    and emits [itemClicked(item, 0)].  [ClickRow p column]: a click beside
    the box, which writes nothing and emits [itemClicked(item, column)]. *)
Inductive Click :=
| ToggleBox (p : list nat) (s : CheckState)
| ClickRow (p : list nat) (column : Z).

Definition with_file_tree (tree : QTreeWidgetItem) (d : TorrentAddingDialog)
  : TorrentAddingDialog :=
  {| file_tree := tree; _file_items := _file_items d;
     ok_button_enabled := ok_button_enabled d;
     _selection_label := _selection_label d |}.

Definition click (d : TorrentAddingDialog) (c : Click) : TorrentAddingDialog :=
  match c with
  | ToggleBox p s =>
      _update_checkboxes p 0 (with_file_tree (set_state_at p s (file_tree d)) d)
  | ClickRow p column => _update_checkboxes p column d
  end.

Definition clicks (d : TorrentAddingDialog) (cs : list Click) : TorrentAddingDialog :=
  fold_left click cs d.

(** *** Properties of trees *)

(** The rule of the data model for the state of an interior node, in the
    words of the specification: checked iff all children are checked,
    unchecked iff all children are unchecked, partial otherwise. *)
Definition spec_derived (st : CheckState) (kids : list QTreeWidgetItem) : Prop :=
  (st = Checked <-> Forall (fun k => checkState k = Checked) kids) /\
  (st = Unchecked <-> Forall (fun k => checkState k = Unchecked) kids) /\
  (st = PartiallyChecked <->
     ~ Forall (fun k => checkState k = Checked) kids /\
     ~ Forall (fun k => checkState k = Unchecked) kids).

(** Every interior item (one with the directory icon) obeys the rule. *)
Inductive interiors_derived : QTreeWidgetItem -> Prop :=
| interiors_derived_item s t i kids :
    (i = directory_icon -> spec_derived s kids) ->
    Forall interiors_derived kids ->
    interiors_derived (TreeItem s t i kids).

(** Every item that has children carries the state that the loop of
    [_update_checkboxes] computes from them. *)
Inductive consistent : QTreeWidgetItem -> Prop :=
| consistent_item s t i kids :
    (kids <> [] -> s = new_state kids) ->
    Forall consistent kids ->
    consistent (TreeItem s t i kids).

(** The item and all its descendants are in state [st]. *)
Inductive uniform (st : CheckState) : QTreeWidgetItem -> Prop :=
| uniform_item t i kids :
    Forall (uniform st) kids ->
    uniform st (TreeItem st t i kids).

(** Every directory item has a child. *)
Inductive dirs_nonempty : QTreeWidgetItem -> Prop :=
| dirs_nonempty_item s t i kids :
    (i = directory_icon -> kids <> []) ->
    Forall dirs_nonempty kids ->
    dirs_nonempty (TreeItem s t i kids).

(** No dict of the file tree is empty. *)
Inductive no_empty_dir : FileTreeNode -> Prop :=
| no_empty_dir_file info : no_empty_dir (Models.File info)
| no_empty_dir_dir entries :
    entries <> [] ->
    Forall (fun e => no_empty_dir (snd e)) entries ->
    no_empty_dir (Models.Dir entries).

(** Every file item (one with the file icon) is in state [st]. *)
Inductive leaves_in_state (st : CheckState) : QTreeWidgetItem -> Prop :=
| leaves_in_state_item s t i kids :
    (i = file_icon -> s = st) ->
    Forall (leaves_in_state st) kids ->
    leaves_in_state st (TreeItem s t i kids).

(** The shape of a tree: the items with their texts and icons, all boxes
    cleared. *)
Fixpoint shape (item : QTreeWidgetItem) : QTreeWidgetItem :=
  match item with
  | TreeItem _ t i kids => TreeItem Unchecked t i (map shape kids)
  end.

(** The files of a file tree, in the order of the traversal. *)
Fixpoint leaves (node : FileTreeNode) : list FileInfo :=
  match node with
  | Models.File info => [info]
  | Models.Dir entries => flat_map (fun e => leaves (snd e)) entries
  end.

Definition total_length (infos : list FileInfo) : Z :=
  foldr (fun info acc => Models.length info + acc) 0 infos.

(** The slot run after Qt has written [st] on the item at [p]. *)
Definition toggle_walk (p : list nat) (st : CheckState) (item : QTreeWidgetItem)
  : QTreeWidgetItem :=
  update_checkboxes_walk p (set_state_at p st item).

Definition in_state (st : CheckState) (k : QTreeWidgetItem) : bool :=
  bool_decide (checkState k = st).

(** Induction over file trees, with the hypothesis for every entry. *)
Section FileTreeInduction.
Variable P : FileTreeNode -> Prop.
Hypothesis on_file : forall info, P (Models.File info).
Hypothesis on_dir :
  forall entries, Forall (fun e => P (snd e)) entries -> P (Models.Dir entries).

Fixpoint file_tree_ind' (node : FileTreeNode) : P node :=
  match node with
  | Models.File info => on_file info
  | Models.Dir entries =>
      on_dir entries
        ((fix go (l : list (string * FileTreeNode))
            : Forall (fun e => P (snd e)) l :=
            match l with
            | [] => List.Forall_nil _
            | e :: l' => List.Forall_cons _ e l' (file_tree_ind' (snd e)) (go l')
            end) entries)
  end.
End FileTreeInduction.

(** ** Python exceptions *)

(** The exception classes the GUI distinguishes, all below [Exception].
    [OtherException] stands for an exception of any further class: the
    name of its class, the names of the classes that class is declared to
    derive from, and its message. *)
Inductive Exception :=
| ValueError (msg : string)
| KeyError (key : string)
| RuntimeError (msg : string)
| AttributeError (msg : string)
| OtherException (class_name : string) (bases : list string) (msg : string).

(** The name of the class of an exception. *)
Definition exception_class (e : Exception) : string :=
  match e with
  | ValueError _ => "ValueError"
  | KeyError _ => "KeyError"
  | RuntimeError _ => "RuntimeError"
  | AttributeError _ => "AttributeError"
  | OtherException class_name _ _ => class_name
  end.

(** The built-in exception classes that derive from another class than
    [Exception], with all the classes between them and [Exception]. *)
Definition builtin_classes : list (list string * list string) :=
  [ (["FloatingPointError"; "OverflowError"; "ZeroDivisionError"], ["ArithmeticError"]);
    (["ModuleNotFoundError"], ["ImportError"]);
    (["IndexError"; "KeyError"], ["LookupError"]);
    (["UnboundLocalError"], ["NameError"]);
    (["BlockingIOError"; "ChildProcessError"; "ConnectionError"; "FileExistsError";
      "FileNotFoundError"; "InterruptedError"; "IsADirectoryError";
      "NotADirectoryError"; "PermissionError"; "ProcessLookupError"; "TimeoutError"],
     ["OSError"]);
    (["BrokenPipeError"; "ConnectionAbortedError"; "ConnectionRefusedError";
      "ConnectionResetError"], ["ConnectionError"; "OSError"]);
    (["NotImplementedError"; "RecursionError"; "PythonFinalizationError"],
     ["RuntimeError"]);
    (["IndentationError"], ["SyntaxError"]);
    (["TabError"], ["IndentationError"; "SyntaxError"]);
    (["UnicodeError"], ["ValueError"]);
    (["UnicodeDecodeError"; "UnicodeEncodeError"; "UnicodeTranslateError"],
     ["UnicodeError"; "ValueError"]) ].

Fixpoint bases_in (table : list (list string * list string)) (class_name : string)
  : list string :=
  match table with
  | [] => []
  | (names, bases) :: rest =>
      if existsb (String.eqb class_name) names then bases else bases_in rest class_name
  end.

Definition builtin_bases (class_name : string) : list string :=
  bases_in builtin_classes class_name.

(** The classes the class of an exception derives from: those it is
    declared with, and what a built-in class among them, or the class
    itself when it is built in, derives from. *)
Definition exception_bases (e : Exception) : list string :=
  match e with
  | OtherException class_name bases _ =>
      bases ++ flat_map builtin_bases bases ++ builtin_bases class_name
  | _ => builtin_bases (exception_class e)
  end.

(** [isinstance(e, class_name)], as an [except class_name] clause tests
    it: the class of the exception or one it derives from. *)
Definition isinstance (e : Exception) (class_name : string) : bool :=
  String.eqb class_name "Exception"
  || String.eqb class_name (exception_class e)
  || existsb (String.eqb class_name) (exception_bases e).

(** The message of an exception ([e.stderr] for a [CalledProcessError]). *)
Definition exception_message (e : Exception) : string :=
  match e with
  | ValueError msg => msg
  | KeyError key => key
  | RuntimeError msg => msg
  | AttributeError msg => msg
  | OtherException _ _ msg => msg
  end.

(** What an [except ValueError] clause catches. *)
Definition is_ValueError (e : Exception) : bool := isinstance e "ValueError".

(** The outcome of a call that may raise. *)
Inductive Result (A : Type) :=
| Return (a : A)
| Raise (e : Exception).

Arguments Return {A} a.
Arguments Raise {A} e.

(** ** The main window: the sorted list of torrents *)

Module TorrentModels.

(** The attributes of [torrent_client.models.TorrentState] that decide what
    the window does; the remaining ones are only formatted into labels. *)
Record TorrentState := {
  info_hash : string;
  suggested_name : string;
  single_file_mode : bool;
  paused : bool;
  complete : bool;
  downloaded_size : Z;
  selected_size : Z
}.

(** [TorrentInfo], as far as [add_torrent_files] reads it:
    [download_info.info_hash]. *)
Record TorrentInfo := {
  download_info_info_hash : string;
  download_info : Models.DownloadInfo
}.

End TorrentModels.

Abbreviation TorrentState := TorrentModels.TorrentState.
Abbreviation TorrentInfo := TorrentModels.TorrentInfo.

(** [TorrentListWidgetItem]: the state shown and the pending flag.  The
    constructor leaves [_state] unset; the only caller assigns it on the
    next line, so the model starts from that assignment. *)
Record TorrentListWidgetItem := {
  state : TorrentState;
  waiting_control_action : bool
}.

(** The text selected for the lower status label by
    [TorrentListWidgetItem._update]; the numbers formatted into it are left
    out. *)
Inductive LowerStatus := Waiting | Paused | Uploading | Downloading.

Definition lower_status (widget : TorrentListWidgetItem) : LowerStatus :=
  if waiting_control_action widget then Waiting
  else if TorrentModels.paused (state widget) then Paused
  else if TorrentModels.complete (state widget) then Uploading
  else Downloading.

(** A [QListWidgetItem] with the widget set on it by [setItemWidget].
    [item_id] is the identity of the Python object. *)
Record QListWidgetItem := {
  item_id : nat;
  item_icon : Icon;
  data : string;
  selected : bool;
  itemWidget : TorrentListWidgetItem
}.

Record MainWindow := {
  _list_widget : list QListWidgetItem;
  _torrent_to_item : gmap string nat;
  pause_action_enabled : bool;
  resume_action_enabled : bool;
  remove_action_enabled : bool;
  last_torrent_dir : option string;
  (** the [QMessageBox.critical] boxes shown so far, oldest first *)
  critical_boxes : list (string * Exception);
  (** the number of list items constructed so far *)
  items_created : nat;
  (** the identities of the items of the selection, in the order in which
      the selection model of the list widget holds them; no method of the
      program reads or writes it, Qt alone decides it, and what is proved
      of [_control_action_triggered] is proved for every value of it *)
  selection_order : list nat
}.

Definition with_list (l : list QListWidgetItem) (m : gmap string nat) (w : MainWindow)
  : MainWindow :=
  {| _list_widget := l; _torrent_to_item := m;
     pause_action_enabled := pause_action_enabled w;
     resume_action_enabled := resume_action_enabled w;
     remove_action_enabled := remove_action_enabled w;
     last_torrent_dir := last_torrent_dir w;
     critical_boxes := critical_boxes w;
     items_created := items_created w;
     selection_order := selection_order w |}.

(** The window after [__init__]. *)
Definition MainWindow_init : MainWindow :=
  {| _list_widget := []; _torrent_to_item := ∅;
     pause_action_enabled := false; resume_action_enabled := false;
     remove_action_enabled := false; last_torrent_dir := None;
     critical_boxes := []; items_created := 0%nat; selection_order := [] |}.

(** Python's [a > b] on [str]. *)
Definition str_gt (a b : string) : bool :=
  match String.compare a b with
  | Gt => true
  | _ => false
  end.

(** The scan of [_add_torrent_item]: the number of leading items whose name
    is not greater than [name]. *)
Fixpoint items_upper (name : string) (items : list QListWidgetItem) : nat :=
  match items with
  | [] => 0%nat
  | prev_item :: rest =>
      if str_gt (TorrentModels.suggested_name (state (itemWidget prev_item))) name
      then 0%nat
      else S (items_upper name rest)
  end.

(** [QListWidget.insertItem(row, item)]. *)
Definition insertItem (row : nat) (item : QListWidgetItem) (items : list QListWidgetItem)
  : list QListWidgetItem :=
  take row items ++ item :: drop row items.

Definition _add_torrent_item (st : TorrentState) (w : MainWindow) : MainWindow :=
  let widget := {| state := st; waiting_control_action := false |} in
  let item :=
    {| item_id := items_created w;
       item_icon := if TorrentModels.single_file_mode st then file_icon else directory_icon;
       data := TorrentModels.info_hash st;
       selected := false;
       itemWidget := widget |} in
  let row := items_upper (TorrentModels.suggested_name st) (_list_widget w) in
  {| _list_widget := insertItem row item (_list_widget w);
     _torrent_to_item := <[TorrentModels.info_hash st := item_id item]> (_torrent_to_item w);
     pause_action_enabled := pause_action_enabled w;
     resume_action_enabled := resume_action_enabled w;
     remove_action_enabled := remove_action_enabled w;
     last_torrent_dir := last_torrent_dir w;
     critical_boxes := critical_boxes w;
     items_created := S (items_created w);
     selection_order := selection_order w |}.

(** [_update_control_action_state]: the three flags are cleared and then
    set from the selected items that have no action pending. *)
Definition _update_control_action_state (w : MainWindow) : MainWindow :=
  let live :=
    filter (fun item => selected item = true /\
                        waiting_control_action (itemWidget item) = false)
           (_list_widget w) in
  {| _list_widget := _list_widget w;
     _torrent_to_item := _torrent_to_item w;
     pause_action_enabled :=
       existsb (fun item => negb (TorrentModels.paused (state (itemWidget item)))) live;
     resume_action_enabled :=
       existsb (fun item => TorrentModels.paused (state (itemWidget item))) live;
     remove_action_enabled := negb (bool_decide (live = []));
     last_torrent_dir := last_torrent_dir w;
     critical_boxes := critical_boxes w;
     items_created := items_created w;
     selection_order := selection_order w |}.

(** The row of the item with identity [id], if it is in the list. *)
Definition row (id : nat) (items : list QListWidgetItem) : option nat :=
  fst <$> list_find (fun item => item_id item = id) items.

(** The body of [_update_torrent_item] once the widget is found. *)
Definition update_widget (st : TorrentState) (widget : TorrentListWidgetItem)
  : TorrentListWidgetItem :=
  let waiting :=
    if bool_decide (TorrentModels.paused (state widget) <> TorrentModels.paused st)
    then false
    else waiting_control_action widget in
  {| state := st; waiting_control_action := waiting |}.

Definition set_widget (widget : TorrentListWidgetItem) (item : QListWidgetItem)
  : QListWidgetItem :=
  {| item_id := item_id item; item_icon := item_icon item; data := data item;
     selected := selected item; itemWidget := widget |}.

Definition _update_torrent_item (st : TorrentState) (w : MainWindow) : Result MainWindow :=
  match _torrent_to_item w !! TorrentModels.info_hash st with
  | None => Return w
  | Some id =>
      match row id (_list_widget w) with
      | None =>
          (* [itemWidget] gives [None] for an item that is not in the list *)
          Raise (AttributeError "'NoneType' object has no attribute 'state'")
      | Some r =>
          Return
            (_update_control_action_state
               (with_list
                  (alter (fun item => set_widget (update_widget st (itemWidget item)) item)
                         r (_list_widget w))
                  (_torrent_to_item w) w))
      end
  end.

(** [QListWidget.takeItem(row)]; the row of an item that is not in the list
    is [-1], for which nothing is taken. *)
Definition takeItem (r : option nat) (items : list QListWidgetItem)
  : list QListWidgetItem :=
  match r with
  | Some n => delete n items
  | None => items
  end.

Definition _remove_torrent_item (h : string) (w : MainWindow) : Result MainWindow :=
  match _torrent_to_item w !! h with
  | None => Raise (KeyError h)
  | Some id =>
      Return
        (_update_control_action_state
           (with_list (takeItem (row id (_list_widget w)) (_list_widget w))
                      (delete h (_torrent_to_item w)) w))
  end.

Definition _error_happened (description : string) (err : Exception) (w : MainWindow)
  : MainWindow :=
  {| _list_widget := _list_widget w;
     _torrent_to_item := _torrent_to_item w;
     pause_action_enabled := pause_action_enabled w;
     resume_action_enabled := resume_action_enabled w;
     remove_action_enabled := remove_action_enabled w;
     last_torrent_dir := last_torrent_dir w;
     critical_boxes := critical_boxes w ++ [(description, err)];
     items_created := items_created w;
     selection_order := selection_order w |}.

(** *** The collection as a state machine *)

(** The sort key of a list item: the name its widget shows. *)
Definition sort_key (item : QListWidgetItem) : string :=
  TorrentModels.suggested_name (state (itemWidget item)).

(** Adjacent items are in order of their names. *)
Definition sorted_by_name (items : list QListWidgetItem) : Prop :=
  Sorted (fun a b => String.le (sort_key a) (sort_key b)) items.

(** The signals [torrent_added] and [torrent_removed] of the engine. *)
Inductive CollectionOp :=
| Insert (st : TorrentState)
| Remove (h : string).

(** The slot connected to the signal; a slot that raises has changed
    nothing. *)
Definition collection_step (w : MainWindow) (op : CollectionOp) : MainWindow :=
  match op with
  | Insert st => _add_torrent_item st w
  | Remove h =>
      match _remove_torrent_item h w with
      | Return w' => w'
      | Raise _ => w
      end
  end.

(** The widget shown for the torrent [h]: through [_torrent_to_item] to the
    list item, and from it to its widget. *)
Definition widget_of (h : string) (w : MainWindow) : option TorrentListWidgetItem :=
  id ← _torrent_to_item w !! h;
  r ← row id (_list_widget w);
  item ← _list_widget w !! r;
  Some (itemWidget item).

(** The user selects or deselects the item in row [r]; the list widget
    emits [itemSelectionChanged], whose slot is
    [_update_control_action_state]. *)
Definition set_selected (value : bool) (item : QListWidgetItem) : QListWidgetItem :=
  {| item_id := item_id item; item_icon := item_icon item; data := data item;
     selected := value; itemWidget := itemWidget item |}.

(** The selection model after the item in row [r] is selected or
    deselected: a newly selected item comes last, a deselected one is
    dropped, and the other items keep their places. *)
Definition selection_after (r : nat) (value : bool) (w : MainWindow) : list nat :=
  match _list_widget w !! r with
  | Some item =>
      if value then
        if selected item && bool_decide (item_id item ∈ selection_order w)
        then selection_order w
        else filter (fun id => id <> item_id item) (selection_order w) ++ [item_id item]
      else filter (fun id => id <> item_id item) (selection_order w)
  | None => selection_order w
  end.

Definition with_selection_order (order : list nat) (w : MainWindow) : MainWindow :=
  {| _list_widget := _list_widget w;
     _torrent_to_item := _torrent_to_item w;
     pause_action_enabled := pause_action_enabled w;
     resume_action_enabled := resume_action_enabled w;
     remove_action_enabled := remove_action_enabled w;
     last_torrent_dir := last_torrent_dir w;
     critical_boxes := critical_boxes w;
     items_created := items_created w;
     selection_order := order |}.

Definition select_row (r : nat) (value : bool) (w : MainWindow) : MainWindow :=
  _update_control_action_state
    (with_selection_order (selection_after r value w)
       (with_list (alter (set_selected value) r (_list_widget w)) (_torrent_to_item w) w)).

(** The place of the item in row [r] in the selection model; an item the
    model does not list comes after those it lists. *)
Definition selection_rank (w : MainWindow) (r : nat) : nat :=
  match _list_widget w !! r with
  | Some item =>
      default (length (selection_order w))
              (fst <$> list_find (fun id => id = item_id item) (selection_order w))
  | None => 0%nat
  end.

Definition selected_before (w : MainWindow) (r1 r2 : nat) : Prop :=
  (selection_rank w r1 <= selection_rank w r2)%nat.

Global Instance selected_before_dec w r1 r2 : Decision (selected_before w r1 r2).
Proof. unfold selected_before. apply _. Defined.

(** The rows of the selected items, in row order. *)
Definition selected_rows (items : list QListWidgetItem) : list nat :=
  filter (fun r => selected <$> items !! r = Some true) (seq 0 (length items)).

(** [QListWidget.selectedItems()]: the selected items, each once, in the
    order of the selection model.  An item of the list is named by its row,
    which no step of the loops over the result changes. *)
Definition selectedItems (w : MainWindow) : list nat :=
  merge_sort (selected_before w) (selected_rows (_list_widget w)).

(** The identity of the item in row [r]. *)
Definition item_id_at (items : list QListWidgetItem) (r : nat) : nat :=
  from_option item_id 0%nat (items !! r).

(** *** Adding torrent files *)

Definition dquote : string := String (Ascii.ascii_of_nat 34) EmptyString.

Definition set_last_torrent_dir (dir : string) (w : MainWindow) : MainWindow :=
  {| _list_widget := _list_widget w;
     _torrent_to_item := _torrent_to_item w;
     pause_action_enabled := pause_action_enabled w;
     resume_action_enabled := resume_action_enabled w;
     remove_action_enabled := remove_action_enabled w;
     last_torrent_dir := Some dir;
     critical_boxes := critical_boxes w;
     items_created := items_created w;
     selection_order := selection_order w |}.

Section AddTorrentFiles.

(** [TorrentInfo.from_file(path, download_dir=None)] and
    [os.path.abspath(os.path.dirname(path))], both outside the GUI. *)
Variable from_file : string -> Result TorrentInfo.
Variable abspath_dirname : string -> string.

(** One turn of the loop of [add_torrent_files].  The result is the
    window and, when the file is accepted, the [TorrentAddingDialog] that
    is executed for it. *)
Definition add_torrent_file (path : string) (w : MainWindow)
  : MainWindow * option (string * TorrentInfo) :=
  let description := "Failed to add " +:+ dquote +:+ path +:+ dquote in
  match from_file path with
  | Raise err => (_error_happened description err w, None)
  | Return torrent_info =>
      let w1 := set_last_torrent_dir (abspath_dirname path) w in
      match _torrent_to_item w1 !! TorrentModels.download_info_info_hash torrent_info with
      | Some _ =>
          (_error_happened description (ValueError "This torrent is already added") w1,
           None)
      | None => (w1, Some (path, torrent_info))
      end
  end.

(** [add_torrent_files(paths)]: the window afterwards and the dialogs
    executed, in order. *)
Definition add_torrent_files_turn (acc : MainWindow * list (string * TorrentInfo))
    (path : string) : MainWindow * list (string * TorrentInfo) :=
  let '(w', dialog) := add_torrent_file path (fst acc) in
  (w', snd acc ++ from_option (fun d => [d]) [] dialog).

Definition add_torrent_files (paths : list string) (w : MainWindow)
  : MainWindow * list (string * TorrentInfo) :=
  fold_left add_torrent_files_turn paths (w, []).

End AddTorrentFiles.

(** ** The action dispatcher *)

Section Dispatcher.

(** The engine behind the loop. *)
Variable Engine : Type.

(** What [action(info_hash)] returns: a plain value or a coroutine, whose
    body runs when it is awaited. *)
Inductive ActionReturn :=
| Plain
| Coroutine (body : Engine -> Result unit * Engine).

(** [control.pause], [control.resume] or [control.remove]. *)
Definition Action : Type := string -> Engine -> Result ActionReturn * Engine.

(** [MainWindow._invoke_control_action]. *)
Definition _invoke_control_action (action : Action) (h : string) (engine : Engine)
  : Result unit * Engine :=
  let tried :=
    match action h engine with
    | (Return Plain, engine') => (Return (), engine')
    | (Return (Coroutine body), engine') => body engine'
    | (Raise err, engine') => (Raise err, engine')
    end in
  match tried with
  | (Raise e, engine') =>
      if is_ValueError e then (Return (), engine') else (Raise e, engine')
  | other => other
  end.

(** A coroutine handed to [asyncio.run_coroutine_threadsafe]. *)
Record Submission := {
  submitted_action : Action;
  submitted_info_hash : string
}.

Definition set_waiting (value : bool) (item : QListWidgetItem) : QListWidgetItem :=
  set_widget {| state := state (itemWidget item); waiting_control_action := value |} item.

(** One turn of the loop of [_control_action_triggered], for the item in
    row [r]: the items afterwards and the coroutines submitted so far,
    oldest first. *)
Definition trigger_item (action : Action)
    (acc : list QListWidgetItem * list Submission) (r : nat)
  : list QListWidgetItem * list Submission :=
  match acc.1 !! r with
  | Some item =>
      if waiting_control_action (itemWidget item)
      then acc
      else (alter (set_waiting true) r acc.1,
            acc.2 ++ [{| submitted_action := action; submitted_info_hash := data item |}])
  | None => acc
  end.

(** The loop of [_control_action_triggered] over the rows [rows]: the
    items afterwards and the coroutines submitted, in order. *)
Definition trigger_items (action : Action) (rows : list nat)
    (items : list QListWidgetItem) : list QListWidgetItem * list Submission :=
  fold_left (trigger_item action) rows (items, []).

Definition _control_action_triggered (action : Action) (w : MainWindow)
  : MainWindow * list Submission :=
  let '(items, submissions) :=
    trigger_items action (selectedItems w) (_list_widget w) in
  (_update_control_action_state (with_list items (_torrent_to_item w) w), submissions).

(** The loop thread runs the submitted coroutines in order; each result
    goes into the future that [run_coroutine_threadsafe] returned. *)
Fixpoint loop_run (submissions : list Submission) (engine : Engine)
  : list (Result unit) * Engine :=
  match submissions with
  | [] => ([], engine)
  | s :: rest =>
      let '(r, engine') :=
        _invoke_control_action (submitted_action s) (submitted_info_hash s) engine in
      let '(rs, engine'') := loop_run rest engine' in
      (r :: rs, engine'')
  end.

(** A user gesture followed by the loop's work on it.  The caller of
    [run_coroutine_threadsafe] keeps no reference to the futures, so the
    window is the one left by [_control_action_triggered]; the futures
    are returned here only to be observed by theorems. *)
Definition control_action_round (action : Action) (w : MainWindow) (engine : Engine)
  : MainWindow * Engine * list (Result unit) :=
  let '(w', submissions) := _control_action_triggered action w in
  let '(futures, engine') := loop_run submissions engine in
  (w', engine', futures).

End Dispatcher.

Arguments Plain {Engine}.
Arguments Coroutine {Engine} body.
Arguments _invoke_control_action {Engine} action h engine.
Arguments trigger_item {Engine} action acc r.
Arguments trigger_items {Engine} action rows items.
Arguments _control_action_triggered {Engine} action w.
Arguments loop_run {Engine} submissions engine.
Arguments control_action_round {Engine} action w engine.
Arguments submitted_action {Engine} s.
Arguments submitted_info_hash {Engine} s.

(** The coroutine submitted for the item in row [r] of [items], when the
    item has no action pending. *)
Definition submission_for {Engine : Type} (action : Action Engine)
    (items : list QListWidgetItem) (r : nat) : option (Submission Engine) :=
  item ← items !! r;
  if waiting_control_action (itemWidget item) then None
  else Some {| submitted_action := action; submitted_info_hash := data item |}.

(** An item for which [_control_action_triggered] submits the action. *)
Definition submittable (item : QListWidgetItem) : Prop :=
  selected item = true /\ waiting_control_action (itemWidget item) = false.

Global Instance submittable_dec item : Decision (submittable item).
Proof. unfold submittable. apply _. Defined.

(** [action(info_hash)] ends in the exception [e], raised by the call or by
    the coroutine it returned. *)
Definition action_raises {Engine : Type} (action : Action Engine) (h : string)
    (engine : Engine) (e : Exception) (engine' : Engine) : Prop :=
  action h engine = (Raise e, engine') \/
  exists body engine1,
    action h engine = (Return (Coroutine body), engine1) /\
    body engine1 = (Raise e, engine').


(** ** [ControlManagerThread.stop] *)

Module ControlManagerThread.

(** Where a caller of [stop()] stands.  Each constructor names the
    statement the caller executes next. *)
Inductive Pc :=
| AtTest                          (* if self._stopping: return *)
| AtSet                           (* self._stopping = True *)
| AtSubmit                        (* stop_fut = run_coroutine_threadsafe(...) *)
| AtAddDoneCallback (fut : nat)   (* stop_fut.add_done_callback(...) *)
| AtWait                          (* self.wait() *)
| Returned.

Global Instance Pc_eq_dec : EqDecision Pc.
Proof. solve_decision. Defined.

(** The future of a submitted [async_stop()]. *)
Record Future := {
  done : bool;
  has_done_callback : bool
}.

Global Instance Future_eq_dec : EqDecision Future.
Proof. solve_decision. Defined.

(** The dedicated thread: inside [run_forever], or exited. *)
Inductive Phase := Running | Finished.

Global Instance Phase_eq_dec : EqDecision Phase.
Proof. solve_decision. Defined.

(** The thread object, its loop, and two callers of [stop()]. *)
Record System := {
  _stopping : bool;
  futures : list Future;
  (** the [async_stop()] coroutines waiting on the loop, by future *)
  queue : list nat;
  (** how many times [async_stop()] has run, stopping server and engine *)
  shutdowns : nat;
  (** [self._loop.stop()] has been called *)
  loop_stop_called : bool;
  phase : Phase;
  first_caller : Pc;
  second_caller : Pc
}.

Global Instance System_eq_dec : EqDecision System.
Proof. solve_decision. Defined.

Inductive Thread := First | Second | Loop.

Definition caller (t : Thread) (s : System) : Pc :=
  match t with
  | First => first_caller s
  | Second => second_caller s
  | Loop => Returned
  end.

Definition set_caller (t : Thread) (pc : Pc) (s : System) : System :=
  {| _stopping := _stopping s; futures := futures s; queue := queue s;
     shutdowns := shutdowns s; loop_stop_called := loop_stop_called s;
     phase := phase s;
     first_caller := match t with First => pc | _ => first_caller s end;
     second_caller := match t with Second => pc | _ => second_caller s end |}.

(** One statement of [stop()] executed by caller [t]; [None] when the
    caller is blocked in [wait()] or has returned. *)
Definition stop_step (t : Thread) (s : System) : option System :=
  match caller t s with
  | AtTest =>
      if _stopping s then Some (set_caller t Returned s)
      else Some (set_caller t AtSet s)
  | AtSet =>
      Some (set_caller t AtSubmit
              {| _stopping := true; futures := futures s; queue := queue s;
                 shutdowns := shutdowns s; loop_stop_called := loop_stop_called s;
                 phase := phase s;
                 first_caller := first_caller s; second_caller := second_caller s |})
  | AtSubmit =>
      let fut := length (futures s) in
      Some (set_caller t (AtAddDoneCallback fut)
              {| _stopping := _stopping s;
                 futures := futures s ++ [{| done := false; has_done_callback := false |}];
                 queue := queue s ++ [fut];
                 shutdowns := shutdowns s; loop_stop_called := loop_stop_called s;
                 phase := phase s;
                 first_caller := first_caller s; second_caller := second_caller s |})
  | AtAddDoneCallback fut =>
      (* a callback added to a future that is done already runs at once *)
      match futures s !! fut with
      | Some f =>
          Some (set_caller t AtWait
                  {| _stopping := _stopping s;
                     futures :=
                       <[fut := {| done := done f; has_done_callback := true |}]> (futures s);
                     queue := queue s; shutdowns := shutdowns s;
                     loop_stop_called := loop_stop_called s || done f;
                     phase := phase s;
                     first_caller := first_caller s; second_caller := second_caller s |})
      | None => None
      end
  | AtWait =>
      match phase s with
      | Finished => Some (set_caller t Returned s)
      | Running => None
      end
  | Returned => None
  end.

(** One step of the dedicated thread inside [run()]: it runs the next
    [async_stop()], which stops the server and the engine and completes its
    future (calling the done callback, when one is attached); with nothing
    to run it leaves [run_forever] once [loop.stop()] has been called. *)
Definition loop_step (s : System) : option System :=
  match phase s with
  | Finished => None
  | Running =>
      match queue s with
      | fut :: rest =>
          match futures s !! fut with
          | Some f =>
              Some {| _stopping := _stopping s;
                      futures :=
                        <[fut := {| done := true;
                                    has_done_callback := has_done_callback f |}]> (futures s);
                      queue := rest;
                      shutdowns := S (shutdowns s);
                      loop_stop_called := loop_stop_called s || has_done_callback f;
                      phase := Running;
                      first_caller := first_caller s; second_caller := second_caller s |}
          | None => None
          end
      | [] =>
          if loop_stop_called s
          then Some {| _stopping := _stopping s; futures := futures s; queue := [];
                       shutdowns := shutdowns s; loop_stop_called := true;
                       phase := Finished;
                       first_caller := first_caller s; second_caller := second_caller s |}
          else None
      end
  end.

Definition step (t : Thread) (s : System) : option System :=
  match t with
  | Loop => loop_step s
  | _ => stop_step t s
  end.

(** A schedule is the order in which the threads get their turns; a thread
    that cannot move when its turn comes loses the turn. *)
Definition turn (s : System) (t : Thread) : System := default s (step t s).

Definition run (schedule : list Thread) (s : System) : System :=
  fold_left turn schedule s.

(** The started thread, with two callers about to enter [stop()]. *)
Definition started : System :=
  {| _stopping := false; futures := []; queue := []; shutdowns := 0%nat;
     loop_stop_called := false; phase := Running;
     first_caller := AtTest; second_caller := AtTest |}.

(** A stop is in flight: the first caller has tested and set
    [_stopping]. *)
Definition in_flight : System := run [First; First] started.

Definition threads : list Thread := [First; Second; Loop].

(** The states one turn away from the states of [seen], added to them. *)
Definition expand (seen : list System) : list System :=
  remove_dups (seen ++ flat_map (fun s => map (turn s) threads) seen).

(** The states that the schedules reach from [in_flight]. *)
Definition reached : list System := Nat.iter 8 expand [in_flight].

(** What holds of a state while the second call finds a stop in flight:
    a turn of the second caller is a return that changes nothing else; the
    shutdown has run at most once, and once when the thread has exited; the
    first caller has returned only if the thread has exited. *)
Definition safe (s : System) : Prop :=
  turn s Second = set_caller Second Returned s /\
  (shutdowns s <= 1)%nat /\
  (phase s = Finished -> shutdowns s = 1%nat) /\
  (first_caller s = Returned -> phase s = Finished).

Global Instance safe_dec s : Decision (safe s).
Proof. unfold safe. apply _. Defined.

(** A schedule on which everything completes: the first caller submits,
    the loop runs the shutdown, the callback stops the loop, the thread
    exits, both callers return. *)
Definition fair_schedule : list Thread := [Second; First; First; Loop; Loop; First].

End ControlManagerThread.

(** ** [find_another_daemon] and [main] *)

Module Main.

(** What the process does that can be observed from outside, in order. *)
Inductive Effect :=
| QApplication_created
| ControlManagerThread_created
| MainWindow_shown             (* MainWindow.__init__ ends with self.show() *)
| control_thread_started       (* run(): the engine and the server start *)
| lastWindowClosed_connected
| client_connected
| client_executed (filenames : list string)
| app_exec
| sys_exit (code : Z)
| uncaught (e : Exception).

(** What the process meets: the outcome of entering [ControlClient()], of
    [client.execute], and the value [app.exec_()] returns. *)
Record Environment := {
  client_enter : Result unit;
  client_execute : Result unit;
  app_exec_result : Z
}.

Definition find_another_daemon (filenames : list string) (env : Environment)
  : Result bool * list Effect :=
  let tried :=
    match client_enter env with
    | Raise e => (Raise e, [])
    | Return _ =>
        match filenames with
        | [] => (Return true, [client_connected])
        | _ :: _ =>
            match client_execute env with
            | Raise e => (Raise e, [client_connected])
            | Return _ => (Return true, [client_connected; client_executed filenames])
            end
        end
    end in
  match tried with
  | (Raise e, effects) =>
      if isinstance e "RuntimeError" then (Return false, effects) else (Raise e, effects)
  | other => other
  end.

Definition main (debug : bool) (filenames : list string) (env : Environment)
  : list Effect :=
  let startup :=
    [QApplication_created; ControlManagerThread_created; MainWindow_shown;
     control_thread_started; lastWindowClosed_connected] in
  let finish := [app_exec; sys_exit (app_exec_result env)] in
  match filenames with
  | [] => startup ++ finish
  | _ :: _ =>
      match find_another_daemon filenames env with
      | (Return _, effects) => startup ++ effects ++ finish
      | (Raise e, effects) => startup ++ effects ++ [uncaught e]
      end
  end.

End Main.

(** ** Examples used by the theorems *)

(** The file tree of the example of the specification. *)
Definition example_tree : FileTreeNode :=
  Models.Dir
    [("a.txt", Models.File {| Models.length := 100; Models.path := ["a.txt"] |});
     ("dir",
      Models.Dir
        [("b.txt", Models.File {| Models.length := 200; Models.path := ["dir"; "b.txt"] |});
         ("c.txt", Models.File {| Models.length := 50; Models.path := ["dir"; "c.txt"] |})])].

Definition example_info : Models.DownloadInfo :=
  {| Models.suggested_name := "root";
     Models.file_tree := example_tree;
     Models.files :=
       [{| Models.length := 100; Models.path := ["a.txt"] |};
        {| Models.length := 200; Models.path := ["dir"; "b.txt"] |};
        {| Models.length := 50; Models.path := ["dir"; "c.txt"] |}];
     Models.total_size := 350 |}.

(** A torrent without files: its file tree is the empty dict. *)
Definition empty_info : Models.DownloadInfo :=
  {| Models.suggested_name := "root";
     Models.file_tree := Models.Dir [];
     Models.files := [];
     Models.total_size := 0 |}.

(** The inner loop of [traverse_file_items], entry by entry. *)
Definition traverse_entries (here : list nat) :=
  fix go (i : nat) (es : list (string * FileTreeNode)) : list (FileInfo * list nat) :=
    match es with
    | [] => []
    | e :: es' => traverse_file_items (here ++ [i]) (snd e) ++ go (S i) es'
    end.

Definition count_selected (tree : QTreeWidgetItem) (acc : nat * Z)
    (fi : FileInfo * list nat) : nat * Z :=
  match item_at (snd fi) tree with
  | Some item =>
      if decide (checkState item = Checked)
      then (S (fst acc), snd acc + Models.length (fst fi))
      else acc
  | None => acc
  end.

(** The three dialogs of the example: all boxes cleared, then the box of
    [dir] set, then the box of [a.txt] set. *)
Definition example_cleared : TorrentAddingDialog :=
  click (TorrentAddingDialog_init example_info) (ToggleBox [] Unchecked).

Definition example_dir_checked : TorrentAddingDialog :=
  click example_cleared (ToggleBox [1%nat] Checked).

Definition example_all_checked : TorrentAddingDialog :=
  click example_dir_checked (ToggleBox [0%nat] Checked).

(** The order of the list: by name. *)
Definition by_name (a b : QListWidgetItem) : Prop := String.le (sort_key a) (sort_key b).

Global Instance by_name_trans : Transitive by_name.
Proof. intros a b c. unfold by_name. apply transitivity. Qed.

(** Two torrents of one name, the second arriving later. *)
Definition ubuntu_1 : TorrentState :=
  {| TorrentModels.info_hash := "h1"; TorrentModels.suggested_name := "ubuntu";
     TorrentModels.single_file_mode := true; TorrentModels.paused := false;
     TorrentModels.complete := false; TorrentModels.downloaded_size := 0;
     TorrentModels.selected_size := 10 |}.

Definition ubuntu_2 : TorrentState :=
  {| TorrentModels.info_hash := "h2"; TorrentModels.suggested_name := "ubuntu";
     TorrentModels.single_file_mode := true; TorrentModels.paused := false;
     TorrentModels.complete := false; TorrentModels.downloaded_size := 0;
     TorrentModels.selected_size := 20 |}.

Definition debian : TorrentState :=
  {| TorrentModels.info_hash := "h3"; TorrentModels.suggested_name := "debian";
     TorrentModels.single_file_mode := false; TorrentModels.paused := true;
     TorrentModels.complete := false; TorrentModels.downloaded_size := 5;
     TorrentModels.selected_size := 30 |}.

(** A torrent file of [ubuntu_1]. *)
Definition ubuntu_file : TorrentInfo :=
  {| TorrentModels.download_info_info_hash := "h1";
     TorrentModels.download_info := example_info |}.

Definition only_ubuntu_file (path : string) : Result TorrentInfo :=
  if decide (path = "/tmp/ubuntu.torrent") then Return ubuntu_file
  else Raise (OtherException "FileNotFoundError" ["OSError"] path).

(** A window with the one torrent [ubuntu_1], selected. *)
Definition ubuntu_selected : MainWindow :=
  select_row 0 true (_add_torrent_item ubuntu_1 MainWindow_init).

(** A window that lists [debian], [ubuntu_1] and [ubuntu_2], in this
    order; the user selects the last row and then the first, or the first
    row and then the last. *)
Definition three_torrents : MainWindow :=
  _add_torrent_item ubuntu_2 (_add_torrent_item debian
    (_add_torrent_item ubuntu_1 MainWindow_init)).

Definition last_then_first : MainWindow :=
  select_row 0 true (select_row 2 true three_torrents).

Definition first_then_last : MainWindow :=
  select_row 2 true (select_row 0 true three_torrents).

(** [ubuntu_1] a little later: more is downloaded, [paused] is as before. *)
Definition ubuntu_progress : TorrentState :=
  {| TorrentModels.info_hash := "h1"; TorrentModels.suggested_name := "ubuntu";
     TorrentModels.single_file_mode := true; TorrentModels.paused := false;
     TorrentModels.complete := false; TorrentModels.downloaded_size := 5;
     TorrentModels.selected_size := 10 |}.

(** [ubuntu_1] paused. *)
Definition ubuntu_paused : TorrentState :=
  {| TorrentModels.info_hash := "h1"; TorrentModels.suggested_name := "ubuntu";
     TorrentModels.single_file_mode := true; TorrentModels.paused := true;
     TorrentModels.complete := false; TorrentModels.downloaded_size := 0;
     TorrentModels.selected_size := 10 |}.

(** An action that succeeds at once, one that the engine refuses, and one
    that fails otherwise; the engine has no state of its own here. *)
Definition plain_action : Action unit := fun _ engine => (Return Plain, engine).

Definition refused_action : Action unit :=
  fun _ engine => (Raise (ValueError "The torrent is already paused"), engine).

(** An action that raises an exception of a class derived from
    [ValueError]. *)
Definition undecodable_action : Action unit :=
  fun _ engine =>
    (Raise (OtherException "UnicodeDecodeError" [] "invalid start byte"), engine).

Definition failing_action : Action unit :=
  fun _ engine =>
    (Return (Coroutine (fun engine' => (Raise (RuntimeError "boom"), engine'))), engine).

(** A running instance answers the probe; [app.exec_()] later returns 0. *)
Definition instance_running : Main.Environment :=
  {| Main.client_enter := Return ();
     Main.client_execute := Return ();
     Main.app_exec_result := 0 |}.

(** No instance is running: entering the client raises [RuntimeError]. *)
Definition no_instance : Main.Environment :=
  {| Main.client_enter := Raise (RuntimeError "Can't connect to a server");
     Main.client_execute := Return ();
     Main.app_exec_result := 0 |}.

(** ** Further parts of the dialog *)

(** The loop of [submit_torrent]: the paths of the files whose box is
    checked, in the order of [_file_items]. *)
Definition checked_file_paths (tree : QTreeWidgetItem)
    (file_items : list (FileInfo * list nat)) : list (list string) :=
  fold_left
    (fun file_paths fi =>
       match item_at (snd fi) tree with
       | Some item =>
           if decide (checkState item = Checked)
           then file_paths ++ [Models.path (fst fi)]
           else file_paths
       | None => file_paths
       end)
    file_items [].

(** What [submit_torrent] writes and hands over: the download directory
    stored in the torrent info, [control.last_download_dir], the argument
    of [select_files(file_paths, 'whitelist')] when it is called, and the
    torrent scheduled on the loop for [control.add]. *)
Record Submitted := {
  torrent_download_dir : string;
  control_last_download_dir : string;
  select_files_whitelist : option (list (list string));
  control_add_scheduled : bool
}.

(** [submit_torrent]; [download_dir] is [self._download_dir],
    [single_file_mode] the attribute of the download info and [abspath]
    stands for [os.path.abspath]. *)
Definition submit_torrent (abspath : string -> string) (download_dir : string)
    (single_file_mode : bool) (d : TorrentAddingDialog) : Submitted :=
  let file_paths := checked_file_paths (file_tree d) (_file_items d) in
  {| torrent_download_dir := download_dir;
     control_last_download_dir := abspath download_dir;
     select_files_whitelist := if single_file_mode then None else Some file_paths;
     control_add_scheduled := true |}.

(** The paths [p] and [q] part ways: after a common prefix they go into
    different children. *)
Definition diverge (p q : list nat) : Prop :=
  exists r i j p' q', i <> j /\ p = r ++ i :: p' /\ q = r ++ j :: q'.

(** The path of the item a click is on. *)
Definition click_path (c : Click) : list nat :=
  match c with
  | ToggleBox p _ => p
  | ClickRow p _ => p
  end.

(** ** The main window as a state machine *)

(** What reaches the window: the signals of the engine, a change of the
    selection, a control action of the tool bar, and files dropped or
    suggested. *)
Inductive WindowOp (Engine : Type) :=
| TorrentAdded (st : TorrentState)
| TorrentChanged (st : TorrentState)
| TorrentRemoved (h : string)
| RowSelected (r : nat) (value : bool)
| ControlAction (action : Action Engine)
| FilesSuggested (from_file : string -> Result TorrentInfo)
                 (abspath_dirname : string -> string) (paths : list string).

Arguments TorrentAdded {Engine} st.
Arguments TorrentChanged {Engine} st.
Arguments TorrentRemoved {Engine} h.
Arguments RowSelected {Engine} r value.
Arguments ControlAction {Engine} action.
Arguments FilesSuggested {Engine} from_file abspath_dirname paths.

(** The slot run for each; a slot that raises has changed nothing. *)
Definition window_step {Engine : Type} (w : MainWindow) (op : WindowOp Engine)
  : MainWindow :=
  match op with
  | TorrentAdded st => _add_torrent_item st w
  | TorrentChanged st =>
      match _update_torrent_item st w with
      | Return w' => w'
      | Raise _ => w
      end
  | TorrentRemoved h =>
      match _remove_torrent_item h w with
      | Return w' => w'
      | Raise _ => w
      end
  | RowSelected r value => select_row r value w
  | ControlAction action => (_control_action_triggered action w).1
  | FilesSuggested from_file abspath_dirname paths =>
      (add_torrent_files from_file abspath_dirname paths w).1
  end.

Definition window_after {Engine : Type} (ops : list (WindowOp Engine)) : MainWindow :=
  fold_left window_step ops MainWindow_init.

(** The items of two lists are, place by place, the same Python objects
    showing the same torrents. *)
Definition same_keys (items items' : list QListWidgetItem) : Prop :=
  Forall2 (fun a b => item_id b = item_id a /\ data b = data a) items items'.

(** What the window keeps true of its list and its dict: the items are
    distinct objects, all constructed by the window; and each entry of
    [_torrent_to_item] leads to an item of the list that carries the
    entry's info hash. *)
Record window_ok (w : MainWindow) : Prop := {
  ids_constructed :
    Forall (fun item => (item_id item < items_created w)%nat) (_list_widget w);
  ids_distinct : NoDup (item_id <$> _list_widget w);
  entries_listed :
    forall h id, _torrent_to_item w !! h = Some id ->
                 exists item, item ∈ _list_widget w /\ item_id item = id /\ data item = h
}.

(** The three actions of the tool bar as the list decides them. *)
Definition actions_decided (w : MainWindow) : Prop :=
  pause_action_enabled w
  = existsb (fun item => negb (TorrentModels.paused (state (itemWidget item))))
            (filter submittable (_list_widget w)) /\
  resume_action_enabled w
  = existsb (fun item => TorrentModels.paused (state (itemWidget item)))
            (filter submittable (_list_widget w)) /\
  remove_action_enabled w
  = negb (bool_decide (filter submittable (_list_widget w) = [])).

(** ** [ControlManagerThread.run] *)

Module ThreadRun.

(** What [run()] does that the rest of the program can observe, in
    order. *)
Inductive Effect :=
| loop_created
| control_started
| server_started
| state_loaded
| error_happened_emitted (description : string) (err : Exception)
| state_dumps_invoked
| run_forever_returned
| loop_closed
| raised (e : Exception).

(** How the calls made by [run()] end. *)
Record Environment := {
  control_start : Result unit;
  control_server_start : Result unit;
  load_state : Result unit;
  invoke_state_dumps : Result unit;
  run_forever : Result unit
}.

(** The body of the [with closing(self._loop)] block: the effects, and the
    exception that leaves the block, if one does. *)
Definition run_body (env : Environment) : list Effect * option Exception :=
  match control_start env with
  | Raise e => ([], Some e)
  | Return _ =>
      match control_server_start env with
      | Raise e => ([control_started], Some e)
      | Return _ =>
          let loaded :=
            match load_state env with
            | Return _ => state_loaded
            | Raise err => error_happened_emitted "Failed to load program state" err
            end in
          match invoke_state_dumps env with
          | Raise e => ([control_started; server_started; loaded], Some e)
          | Return _ =>
              match run_forever env with
              | Raise e =>
                  ([control_started; server_started; loaded; state_dumps_invoked], Some e)
              | Return _ =>
                  ([control_started; server_started; loaded; state_dumps_invoked;
                    run_forever_returned], None)
              end
          end
      end
  end.

(** [run()]: the loop is made, the block runs, [closing] closes the loop,
    and an exception that left the block is raised again. *)
Definition run (env : Environment) : list Effect :=
  let '(effects, exc) := run_body env in
  loop_created :: effects ++ loop_closed :: from_option (fun e => [raised e]) [] exc.

End ThreadRun.

(** ** [theme.py] and [MainWindow.toggle_theme] *)

Section Theme.

(** The two style sheets of [theme.py]. *)
Variable dark_stylesheet light_stylesheet : string.

Definition get_stylesheet (dark_mode : bool) : string :=
  if dark_mode then dark_stylesheet else light_stylesheet.

(** The part of the window that the theme touches: [dark_mode], the
    style sheet set on the window, and the tool tip of the theme action
    (unset until the first toggle). *)
Record ThemeState := {
  dark_mode : bool;
  styleSheet : string;
  theme_action_toolTip : option string
}.

(** [MainWindow.__init__], theme part. *)
Definition theme_init : ThemeState :=
  {| dark_mode := false; styleSheet := get_stylesheet false;
     theme_action_toolTip := None |}.

Definition toggle_theme (t : ThemeState) : ThemeState :=
  let dark := negb (dark_mode t) in
  let mode := if dark then "Light Theme" else "Dark Theme" in
  {| dark_mode := dark; styleSheet := get_stylesheet dark;
     theme_action_toolTip := Some ("Switch to " +:+ mode) |}.

End Theme.

(** ** [magnet_to_torrent.py] and [MainWindow.open_magnet_to_torrent] *)

Module MagnetToTorrent.

Definition newline : string := String (Ascii.ascii_of_nat 10) EmptyString.

(** [print(text)] appends the text and a newline to what was written to
    standard output. *)
Definition print (text : string) (stdout : string) : string :=
  stdout +:+ text +:+ newline.

(** How [subprocess.run(command, shell=True, capture_output=True,
    text=True)] ends. *)
Inductive RunOutcome :=
| Completed (returncode : Z) (stdout stderr : string)
| RunRaises (e : Exception).

(** What the script meets: the file system and the shell. *)
Record Environment := {
  path_join : string -> string -> string;
  isdir : string -> bool;
  path_exists : string -> bool;
  run_shell : string -> RunOutcome
}.

Definition m2t_path : string := "C:\Users\Shantanu Anand\AppData\Roaming\npm\m2t.cmd".

(** The command line handed to the shell. *)
Definition m2t_command (output_file magnet_link : string) : string :=
  dquote +:+ m2t_path +:+ dquote +:+ " -o " +:+ dquote +:+ output_file +:+ dquote
  +:+ " " +:+ dquote +:+ magnet_link +:+ dquote.

(** The two exception classes named by the script, as [e.stderr] or the
    message. *)
Definition CalledProcessError (stderr : string) : Exception :=
  OtherException "CalledProcessError" ["SubprocessError"] stderr.

Definition FileNotFoundError (msg : string) : Exception :=
  OtherException "FileNotFoundError" ["OSError"] msg.

(** [convert_magnet_to_torrent]: what it prints after [stdout], and the
    exception that leaves it, if one does. *)
Definition convert_magnet_to_torrent (env : Environment) (magnet_link output_dir : string)
    (stdout : string) : string * option Exception :=
  let output_file := path_join env output_dir "output.torrent" in
  let command := m2t_command output_file magnet_link in
  let stdout := print ("Running command: " +:+ command) stdout in
  match run_shell env command with
  | Completed returncode out err =>
      if decide (returncode = 0) then
        let stdout := print ("Success: Torrent file saved at " +:+ output_file) stdout in
        let stdout :=
          if path_exists env output_file
          then print "File successfully created." stdout
          else print "Error: File was not created despite success message." stdout in
        (print out stdout, None)
      else
        (print ("Error: " +:+ err) (print "Command failed." stdout), None)
  | RunRaises e =>
      if isinstance e "CalledProcessError"
      then (print ("Subprocess error: " +:+ exception_message e) stdout, None)
      else if isinstance e "FileNotFoundError"
      then (print "Error: The specified m2t path does not exist. Please check the path."
                  stdout, None)
      else (stdout, Some e)
  end.

(** A finished process: what it wrote and its exit status. *)
Record Process := {
  stdout : string;
  stderr : string;
  returncode : Z
}.

(** The traceback Python writes for an exception that nothing caught; its
    text is not modelled beyond the exception. *)
Definition traceback (e : Exception) : string :=
  exception_class e +:+ ": " +:+ exception_message e.

(** The script run as [__main__] with [sys.argv = argv]. *)
Definition script (env : Environment) (argv : list string) : Process :=
  match argv with
  | _ :: magnet_link :: output_dir :: _ =>
      if isdir env output_dir then
        match convert_magnet_to_torrent env magnet_link output_dir "" with
        | (out, None) => {| stdout := out; stderr := ""; returncode := 0 |}
        | (out, Some e) => {| stdout := out; stderr := traceback e; returncode := 1 |}
        end
      else
        {| stdout := print "Error: The specified output directory does not exist." "";
           stderr := ""; returncode := 1 |}
  | _ =>
      {| stdout :=
           print "Usage: python magnet_to_torrent.py <magnet_link> <output_directory>" "";
         stderr := ""; returncode := 1 |}
  end.

(** What the user answers in [open_magnet_to_torrent], and how
    [subprocess.run(command, capture_output=True, text=True)] ends before
    the status is checked: with the finished process, or with the
    exception raised when the process could not be run (the interpreter is
    not found, its output is not text). *)
Record Gui := {
  getText : string * bool;
  getExistingDirectory : string;
  sys_executable : string;
  script_path : string;
  subprocess_run : list string -> Result Process
}.

Inductive MessageBox :=
| information (title text : string)
| critical (title text : string).

(** [subprocess.run(..., check=True)]: a status other than 0 raises
    [CalledProcessError], which carries the [stderr] of the process. *)
Definition subprocess_run_check (gui : Gui) (command : list string) : Result Process :=
  match subprocess_run gui command with
  | Return result =>
      if decide (returncode result = 0) then Return result
      else Raise (CalledProcessError (stderr result))
  | Raise e => Raise e
  end.

(** What [open_magnet_to_torrent] leaves behind: the command run, if one
    is, the message box shown, if one is, and the exception that leaves
    the method, if one does. *)
Record Outcome := {
  command_run : option (list string);
  box_shown : option MessageBox;
  raised : option Exception
}.

(** [MainWindow.open_magnet_to_torrent]. *)
Definition open_magnet_to_torrent (gui : Gui) : Outcome :=
  let '(magnet_link, ok) := getText gui in
  if negb ok || bool_decide (magnet_link = "")
  then {| command_run := None; box_shown := None; raised := None |}
  else
    let output_dir := getExistingDirectory gui in
    if bool_decide (output_dir = "")
    then {| command_run := None; box_shown := None; raised := None |}
    else
      let command := [sys_executable gui; script_path gui; magnet_link; output_dir] in
      match subprocess_run_check gui command with
      | Return result =>
          {| command_run := Some command;
             box_shown := Some (information "Success" (stdout result));
             raised := None |}
      | Raise e =>
          if isinstance e "CalledProcessError"
          then {| command_run := Some command;
                  box_shown := Some (critical "Error" (exception_message e));
                  raised := None |}
          else {| command_run := Some command; box_shown := None; raised := Some e |}
      end.

End MagnetToTorrent.

(** A result that is a raised [ValueError]. *)
Definition is_ValueError_result {A : Type} (r : Result A) : bool :=
  match r with
  | Raise e => is_ValueError e
  | Return _ => false
  end.

(** ** Further definitions for [stop()], [run()] and [main] *)

(** The states that the schedules reach from [started], where neither
    caller has entered [stop()] yet. *)
Definition reached_from_started : list ControlManagerThread.System :=
  Nat.iter 14 ControlManagerThread.expand [ControlManagerThread.started].

(** What holds of every such state: the thread has exited only after a
    shutdown has run; there are at most two shutdowns, one for each
    caller; when both callers have returned the thread has exited; and a
    caller has returned only with [_stopping] set. *)
Definition orderly (s : ControlManagerThread.System) : Prop :=
  (ControlManagerThread.phase s = ControlManagerThread.Finished ->
   (1 <= ControlManagerThread.shutdowns s)%nat) /\
  (ControlManagerThread.shutdowns s <= 2)%nat /\
  (ControlManagerThread.first_caller s = ControlManagerThread.Returned ->
   ControlManagerThread.second_caller s = ControlManagerThread.Returned ->
   ControlManagerThread.phase s = ControlManagerThread.Finished) /\
  (ControlManagerThread.first_caller s = ControlManagerThread.Returned \/
   ControlManagerThread.second_caller s = ControlManagerThread.Returned ->
   ControlManagerThread._stopping s = true).

Global Instance orderly_dec s : Decision (orderly s).
Proof. unfold orderly. apply _. Defined.

(** One caller alone: it enters [stop()], the loop runs the shutdown and
    stops, and the caller returns from [wait()]. *)
Definition single_stop : list ControlManagerThread.Thread :=
  [ControlManagerThread.First; ControlManagerThread.First; ControlManagerThread.First;
   ControlManagerThread.First; ControlManagerThread.Loop; ControlManagerThread.Loop;
   ControlManagerThread.First].

(** [run()] with a [load_state] that ends as given. *)
Definition with_load_state (r : Result unit) (env : ThreadRun.Environment)
  : ThreadRun.Environment :=
  {| ThreadRun.control_start := ThreadRun.control_start env;
     ThreadRun.control_server_start := ThreadRun.control_server_start env;
     ThreadRun.load_state := r;
     ThreadRun.invoke_state_dumps := ThreadRun.invoke_state_dumps env;
     ThreadRun.run_forever := ThreadRun.run_forever env |}.

(** The effect of a failed [load_state] in place of the one of a
    successful one. *)
Definition load_failed (err : Exception) (e : ThreadRun.Effect) : ThreadRun.Effect :=
  match e with
  | ThreadRun.state_loaded =>
      ThreadRun.error_happened_emitted "Failed to load program state" err
  | _ => e
  end.

(** What [main] does before it looks at the file names. *)
Definition main_startup : list Main.Effect :=
  [Main.QApplication_created; Main.ControlManagerThread_created; Main.MainWindow_shown;
   Main.control_thread_started; Main.lastWindowClosed_connected].

(** The script as the process that [open_magnet_to_torrent] starts;
    [start] is the exception with which starting it fails, if it does. *)
Definition gui_with_script (env : MagnetToTorrent.Environment) (start : option Exception)
    (magnet_link : string) (ok : bool) (output_dir : string) : MagnetToTorrent.Gui :=
  {| MagnetToTorrent.getText := (magnet_link, ok);
     MagnetToTorrent.getExistingDirectory := output_dir;
     MagnetToTorrent.sys_executable := "python3";
     MagnetToTorrent.script_path := "magnet_to_torrent.py";
     MagnetToTorrent.subprocess_run :=
       fun command =>
         match start with
         | Some e => Raise e
         | None =>
             match command with
             | _ :: argv => Return (MagnetToTorrent.script env argv)
             | [] => Return (MagnetToTorrent.script env [])
             end
         end |}.

(** The shell call of the script ends without an exception that the script
    does not catch. *)
Definition shell_call_handled (o : MagnetToTorrent.RunOutcome) : Prop :=
  match o with
  | MagnetToTorrent.Completed _ _ _ => True
  | MagnetToTorrent.RunRaises e =>
      isinstance e "CalledProcessError" = true \/ isinstance e "FileNotFoundError" = true
  end.

(** A shell in which the command fails with status 2. *)
Definition failing_shell : MagnetToTorrent.Environment :=
  {| MagnetToTorrent.path_join := fun dir name => dir +:+ "/" +:+ name;
     MagnetToTorrent.isdir := fun dir => bool_decide (dir = "/tmp");
     MagnetToTorrent.path_exists := fun _ => false;
     MagnetToTorrent.run_shell :=
       fun _ => MagnetToTorrent.Completed 2 "" "m2t: no peers" |}.

(** ** The selection tree: lemmas *)

Section ChildFlags.

Lemma fold_flag_child kids flags :
  fold_left flag_child kids flags =
  {| has_checked_children :=
       has_checked_children flags || existsb (in_state Checked) kids;
     has_partially_checked_children :=
       has_partially_checked_children flags
       || existsb (in_state PartiallyChecked) kids;
     has_unchecked_children :=
       has_unchecked_children flags || existsb (in_state Unchecked) kids |}.
Proof.
  revert flags.
  induction kids as [|k kids IH]; intros [c p u]; simpl.
  - by rewrite !orb_false_r.
  - rewrite IH. unfold flag_child, in_state.
    destruct (checkState k); simpl;
      rewrite ?orb_true_r, ?orb_false_r, ?orb_true_l, ?orb_false_l; reflexivity.
Qed.

Lemma child_flags_existsb kids :
  child_flags kids =
  {| has_checked_children := existsb (in_state Checked) kids;
     has_partially_checked_children := existsb (in_state PartiallyChecked) kids;
     has_unchecked_children := existsb (in_state Unchecked) kids |}.
Proof. unfold child_flags. by rewrite fold_flag_child. Qed.

Lemma existsb_in_state st kids :
  existsb (in_state st) kids = true <-> Exists (fun k => checkState k = st) kids.
Proof.
  rewrite existsb_exists, Exists_exists. unfold in_state.
  split; intros (k & Hin & Hk); exists k.
  - split; [by apply list_elem_of_In | by apply bool_decide_eq_true in Hk].
  - split; [by apply list_elem_of_In | by apply bool_decide_eq_true].
Qed.

Lemma existsb_in_state_false st kids :
  existsb (in_state st) kids = false <-> Forall (fun k => checkState k <> st) kids.
Proof.
  rewrite <- not_true_iff_false, existsb_in_state.
  rewrite <- Forall_Exists_neg. reflexivity.
Qed.

Lemma Forall_Checked_flags kids :
  Forall (fun k => checkState k = Checked) kids <->
  existsb (in_state PartiallyChecked) kids = false /\
  existsb (in_state Unchecked) kids = false.
Proof.
  rewrite !existsb_in_state_false, <- Forall_and.
  apply Forall_iff. intros k. destruct (checkState k); naive_solver.
Qed.

Lemma Forall_Unchecked_flags kids :
  Forall (fun k => checkState k = Unchecked) kids <->
  existsb (in_state PartiallyChecked) kids = false /\
  existsb (in_state Checked) kids = false.
Proof.
  rewrite !existsb_in_state_false, <- Forall_and.
  apply Forall_iff. intros k. destruct (checkState k); naive_solver.
Qed.

Lemma Forall_PartiallyChecked_flags kids :
  Forall (fun k => checkState k = PartiallyChecked) kids <->
  existsb (in_state Checked) kids = false /\
  existsb (in_state Unchecked) kids = false.
Proof.
  rewrite !existsb_in_state_false, <- Forall_and.
  apply Forall_iff. intros k. destruct (checkState k); naive_solver.
Qed.

(** A list with a child has a child in one of the three states. *)
Lemma some_flag_set kids :
  kids <> [] ->
  existsb (in_state Checked) kids
  || existsb (in_state PartiallyChecked) kids
  || existsb (in_state Unchecked) kids = true.
Proof.
  destruct kids as [|k kids]; [done|]. intros _. simpl. unfold in_state at 1 3 5.
  destruct (checkState k); simpl; rewrite ?orb_true_r; reflexivity.
Qed.

(** The three outcomes of the loop. *)
Lemma new_state_Checked kids :
  new_state kids = Checked <-> Forall (fun k => checkState k = Checked) kids.
Proof.
  rewrite Forall_Checked_flags.
  unfold new_state. rewrite child_flags_existsb. simpl.
  destruct (existsb (in_state PartiallyChecked) kids),
    (existsb (in_state Unchecked) kids),
    (existsb (in_state Checked) kids); simpl; naive_solver.
Qed.

Lemma new_state_Unchecked kids :
  kids <> [] ->
  new_state kids = Unchecked <-> Forall (fun k => checkState k = Unchecked) kids.
Proof.
  intros Hne%some_flag_set. revert Hne.
  rewrite Forall_Unchecked_flags.
  unfold new_state. rewrite child_flags_existsb. simpl.
  destruct (existsb (in_state PartiallyChecked) kids),
    (existsb (in_state Unchecked) kids),
    (existsb (in_state Checked) kids); simpl; naive_solver.
Qed.

Lemma new_state_PartiallyChecked kids :
  new_state kids = PartiallyChecked <->
  ~ Forall (fun k => checkState k = Checked) kids /\
  ~ Forall (fun k => checkState k = Unchecked) kids.
Proof.
  rewrite Forall_Unchecked_flags, Forall_Checked_flags.
  unfold new_state. rewrite child_flags_existsb. simpl.
  destruct (existsb (in_state PartiallyChecked) kids),
    (existsb (in_state Unchecked) kids),
    (existsb (in_state Checked) kids); simpl; naive_solver.
Qed.

Lemma new_state_empty : new_state [] = Checked.
Proof. reflexivity. Qed.

(** On a list with a child the loop computes the rule of the data
    model. *)
Lemma new_state_spec_derived kids :
  kids <> [] -> spec_derived (new_state kids) kids.
Proof.
  intros Hne. unfold spec_derived.
  auto using new_state_Checked, new_state_Unchecked, new_state_PartiallyChecked.
Qed.

(** Children that are all in one state give that state. *)
Lemma new_state_all_same st kids :
  kids <> [] -> Forall (fun k => checkState k = st) kids -> new_state kids = st.
Proof.
  intros Hne Hall. destruct st.
  - by apply new_state_Unchecked.
  - apply new_state_PartiallyChecked.
    destruct kids as [|k kids]; [done|]. apply Forall_cons in Hall as [Hk _].
    split; intros [Hk' _]%Forall_cons; congruence.
  - by apply new_state_Checked.
Qed.

End ChildFlags.

Section TreeLemmas.

Lemma checkState_setCheckState st item : checkState (setCheckState st item) = st.
Proof. reflexivity. Qed.

Lemma children_set_check_state_to_tree item st :
  children (_set_check_state_to_tree item st) =
  map (fun child => setCheckState st (_set_check_state_to_tree child st))
      (children item).
Proof. by destruct item. Qed.

Lemma checkState_set_check_state_to_tree item st :
  checkState (_set_check_state_to_tree item st) = checkState item.
Proof. by destruct item. Qed.

(** After [_set_check_state_to_tree] every child is uniformly in the new
    state. *)
Lemma set_check_state_to_tree_uniform item st :
  Forall (uniform st) (children (_set_check_state_to_tree item st)).
Proof.
  induction item as [s t i kids IH] using item_ind'. simpl.
  induction IH as [|k kids Hk _ IHkids]; simpl; constructor; [|done].
  destruct k as [s' t' i' kids']. simpl in *. by constructor.
Qed.

Lemma uniform_checkState st item : uniform st item -> checkState item = st.
Proof. by intros []. Qed.

Lemma uniform_consistent st item : uniform st item -> consistent item.
Proof.
  induction item as [s t i kids IH] using item_ind'.
  inversion 1 as [t' i' kids' Hkids]; subst. constructor.
  - intros Hne. symmetry. apply new_state_all_same; [done|].
    eapply Forall_impl; [exact Hkids|]. apply uniform_checkState.
  - rewrite Forall_forall in *. auto.
Qed.

(** The walk at the clicked item itself. *)
Lemma walk_here_consistent item :
  consistent (update_checkboxes_walk [] item).
Proof.
  simpl. pose proof (set_check_state_to_tree_uniform item (checkState item)) as Hu.
  destruct item as [s t i kids]. simpl in *. constructor.
  - intros Hne. symmetry. apply new_state_all_same; [done|].
    eapply Forall_impl; [exact Hu|]. apply uniform_checkState.
  - eapply Forall_impl; [exact Hu|]. apply uniform_consistent.
Qed.

Lemma consistent_children item : consistent item -> Forall consistent (children item).
Proof. by intros []. Qed.

(** An ancestor rewritten by the loop is consistent when its children
    are. *)
Lemma recomputed_consistent kids item :
  Forall consistent kids ->
  consistent (setCheckState (new_state kids) (with_children kids item)).
Proof. intros Hk. destruct item. by constructor. Qed.

(** [_update_checkboxes] keeps the tree consistent. *)
Lemma walk_consistent p : forall item,
  consistent item -> consistent (update_checkboxes_walk p item).
Proof.
  induction p as [|i p IH]; intros item Hc.
  - apply walk_here_consistent.
  - simpl. destruct (children item !! i) as [child|] eqn:Hi; [|done].
    apply recomputed_consistent, Forall_insert.
    + by apply consistent_children.
    + apply IH. eapply Forall_lookup_1; [by apply consistent_children|done].
Qed.

(** A toggle of the box followed by the slot: the state written by Qt on
    the clicked item breaks consistency at that item and its parent, and
    the slot restores it. *)
Lemma toggle_walk_cons i p st item child :
  children item !! i = Some child ->
  update_checkboxes_walk (i :: p) (set_state_at (i :: p) st item) =
  let kids := <[i := update_checkboxes_walk p (set_state_at p st child)]> (children item) in
  setCheckState (new_state kids) (with_children kids item).
Proof.
  intros Hi. simpl. rewrite Hi. destruct item as [s t ic kids]. simpl in *.
  rewrite list_lookup_insert_eq by (by eapply lookup_lt_Some).
  by rewrite list_insert_insert_eq.
Qed.

Lemma toggle_walk_consistent p : forall st item,
  consistent item ->
  consistent (update_checkboxes_walk p (set_state_at p st item)).
Proof.
  induction p as [|i p IH]; intros st item Hc.
  - apply walk_here_consistent.
  - destruct (children item !! i) as [child|] eqn:Hi.
    + rewrite (toggle_walk_cons _ _ _ _ _ Hi). cbv zeta.
      apply recomputed_consistent, Forall_insert.
      * by apply consistent_children.
      * apply IH. eapply Forall_lookup_1; [by apply consistent_children|done].
    + simpl. rewrite Hi. simpl. by rewrite Hi.
Qed.

(** The shape of the tree (icons and numbers of children) is never
    changed; in particular directories keep their children. *)
Lemma set_check_state_to_tree_dirs_nonempty item st :
  dirs_nonempty item -> dirs_nonempty (_set_check_state_to_tree item st).
Proof.
  induction item as [s t i kids IH] using item_ind'.
  inversion 1 as [s' t' i' kids' Hne Hkids]; subst. simpl. constructor.
  - intros Hi. specialize (Hne Hi). by destruct kids.
  - rewrite Forall_map. rewrite Forall_forall in *. intros k Hk.
    specialize (IH k Hk (Hkids k Hk)).
    destruct (_set_check_state_to_tree k st) as [s1 t1 i1 kids1].
    inversion IH; subst. by constructor.
Qed.

Lemma dirs_nonempty_children item :
  dirs_nonempty item -> Forall dirs_nonempty (children item).
Proof. by intros []. Qed.

Lemma dirs_nonempty_insert i k s' item :
  dirs_nonempty item -> dirs_nonempty k ->
  dirs_nonempty (setCheckState s' (with_children (<[i := k]> (children item)) item)).
Proof.
  intros Hd Hk. destruct item as [s t ic kids]. inversion Hd; subst.
  unfold setCheckState, with_children. simpl. constructor.
  - intros Hi Hnil. apply (f_equal length) in Hnil.
    rewrite length_insert in Hnil. destruct kids; [naive_solver|done].
  - by apply Forall_insert.
Qed.

Lemma dirs_nonempty_setCheckState st item :
  dirs_nonempty item -> dirs_nonempty (setCheckState st item).
Proof. intros Hd. destruct item. inversion Hd; subst. by constructor. Qed.

Lemma walk_dirs_nonempty p : forall item,
  dirs_nonempty item -> dirs_nonempty (update_checkboxes_walk p item).
Proof.
  induction p as [|i p IH]; intros item Hd.
  - by apply set_check_state_to_tree_dirs_nonempty.
  - simpl. destruct (children item !! i) as [child|] eqn:Hi; [|done].
    apply dirs_nonempty_insert; [done|].
    apply IH. eapply Forall_lookup_1; [by apply dirs_nonempty_children|done].
Qed.

Lemma set_state_at_dirs_nonempty p : forall st item,
  dirs_nonempty item -> dirs_nonempty (set_state_at p st item).
Proof.
  induction p as [|i p IH]; intros st item Hd.
  - by apply dirs_nonempty_setCheckState.
  - simpl. destruct (children item !! i) as [child|] eqn:Hi; [|done].
    assert (dirs_nonempty (set_state_at p st child)) as Hk.
    { apply IH. eapply Forall_lookup_1; [by apply dirs_nonempty_children|done]. }
    pose proof (dirs_nonempty_insert i _ (checkState item) item Hd Hk) as Hd'.
    by destruct item.
Qed.

(** Consistent trees whose directories have children obey the rule of the
    data model. *)
Lemma consistent_interiors_derived item :
  consistent item -> dirs_nonempty item -> interiors_derived item.
Proof.
  induction item as [s t i kids IH] using item_ind'.
  inversion 1 as [s1 t1 i1 kids1 Hs Hkids]; subst.
  inversion 1 as [s2 t2 i2 kids2 Hne Hdkids]; subst.
  constructor.
  - intros Hi. specialize (Hne Hi). rewrite (Hs Hne).
    by apply new_state_spec_derived.
  - rewrite Forall_forall in *. auto.
Qed.

(** The freshly built tree. *)
Lemma traverse_uniform name node : uniform Checked (_traverse_file_tree name node).
Proof.
  revert name. induction node as [info|entries IH] using file_tree_ind'; intros name.
  - simpl. constructor. constructor.
  - simpl. constructor. rewrite Forall_map.
    eapply Forall_impl; [exact IH|]. intros e He. apply He.
Qed.

Lemma traverse_dirs_nonempty name node :
  no_empty_dir node -> dirs_nonempty (_traverse_file_tree name node).
Proof.
  revert name. induction node as [info|entries IH] using file_tree_ind'; intros name Hn.
  - simpl. constructor; [done|constructor].
  - inversion Hn as [|entries' Hne Hall]; subst. simpl. constructor.
    + intros _. by destruct entries.
    + rewrite Forall_map. rewrite Forall_forall in *. intros e He.
      apply IH; auto.
Qed.

End TreeLemmas.

(** ** The selection tree: the invariant of the interiors *)

Section DialogInvariant.

Lemma file_tree_update_selection_label d :
  file_tree (_update_selection_label d) = file_tree d.
Proof.
  unfold _update_selection_label.
  destruct (selected_leaves _ _) as [n z]. by case_decide.
Qed.

Lemma file_items_update_selection_label d :
  _file_items (_update_selection_label d) = _file_items d.
Proof.
  unfold _update_selection_label.
  destruct (selected_leaves _ _) as [n z]. by case_decide.
Qed.

(** The tree after the slot: the walk when the column is 0 and the path
    names an item, the same tree otherwise. *)
Lemma file_tree_update_checkboxes p column d :
  file_tree (_update_checkboxes p column d) =
  if decide (column <> 0) then file_tree d
  else match item_at p (file_tree d) with
       | Some _ => update_checkboxes_walk p (file_tree d)
       | None => file_tree d
       end.
Proof.
  unfold _update_checkboxes. case_decide; [done|].
  destruct (item_at p (file_tree d)); [|done].
  by rewrite file_tree_update_selection_label.
Qed.

Lemma file_items_update_checkboxes p column d :
  _file_items (_update_checkboxes p column d) = _file_items d.
Proof.
  unfold _update_checkboxes. case_decide; [done|].
  destruct (item_at p (file_tree d)); [|done].
  by rewrite file_items_update_selection_label.
Qed.

Lemma set_state_at_invalid p : forall st item,
  item_at p item = None -> set_state_at p st item = item.
Proof.
  induction p as [|i p IH]; intros st item Hp; [done|].
  simpl in *. destruct (children item !! i) as [child|] eqn:Hi; [|done].
  rewrite (IH _ _ Hp). rewrite list_insert_id by done. by destruct item.
Qed.

Lemma item_at_set_state_at p : forall st item,
  is_Some (item_at p (set_state_at p st item)) <-> is_Some (item_at p item).
Proof.
  induction p as [|i p IH]; intros st item; [done|].
  simpl. destruct (children item !! i) as [child|] eqn:Hi.
  - destruct item as [s t ic kids]. simpl in *.
    rewrite list_lookup_insert_eq by (by eapply lookup_lt_Some). apply IH.
  - by rewrite Hi.
Qed.

(** A click keeps the tree consistent. *)
Lemma click_consistent d c :
  consistent (file_tree d) -> consistent (file_tree (click d c)).
Proof.
  intros Hc. destruct c as [p st|p column]; simpl.
  - rewrite file_tree_update_checkboxes. simpl.
    destruct (item_at p (set_state_at p st (file_tree d))) as [it|] eqn:Hp.
    + by apply toggle_walk_consistent.
    + assert (item_at p (file_tree d) = None) as Hnone.
      { apply eq_None_not_Some. rewrite <- (item_at_set_state_at p st), Hp.
        by intros []. }
      by rewrite set_state_at_invalid.
  - rewrite file_tree_update_checkboxes. case_decide; [done|].
    destruct (item_at p (file_tree d)); [|done]. by apply walk_consistent.
Qed.

(** A click leaves every directory its children. *)
Lemma click_dirs_nonempty d c :
  dirs_nonempty (file_tree d) -> dirs_nonempty (file_tree (click d c)).
Proof.
  intros Hd. destruct c as [p st|p column]; simpl.
  - rewrite file_tree_update_checkboxes. simpl.
    destruct (item_at p (set_state_at p st (file_tree d))) as [it|] eqn:Hp.
    + by apply walk_dirs_nonempty, set_state_at_dirs_nonempty.
    + by apply set_state_at_dirs_nonempty.
  - rewrite file_tree_update_checkboxes. case_decide; [done|].
    destruct (item_at p (file_tree d)); [|done]. by apply walk_dirs_nonempty.
Qed.

Lemma clicks_consistent cs : forall d,
  consistent (file_tree d) -> consistent (file_tree (clicks d cs)).
Proof.
  induction cs as [|c cs IH]; intros d Hc; [done|].
  simpl. by apply IH, click_consistent.
Qed.

Lemma clicks_dirs_nonempty cs : forall d,
  dirs_nonempty (file_tree d) -> dirs_nonempty (file_tree (clicks d cs)).
Proof.
  induction cs as [|c cs IH]; intros d Hd; [done|].
  simpl. by apply IH, click_dirs_nonempty.
Qed.

(** The tree of a new dialog is consistent, and stays so. *)
Lemma reached_consistent info cs :
  consistent (file_tree (clicks (TorrentAddingDialog_init info) cs)).
Proof.
  apply clicks_consistent. simpl. eapply uniform_consistent, traverse_uniform.
Qed.

End DialogInvariant.

(** C1, as amended.  For every file tree in which no directory is empty and
    every sequence of clicks on the dialog built from it (a toggle of any
    box to any state, or a click on any row and column), afterwards the
    state of every directory item is the function of the states of its
    children that the data model gives: checked iff all children are
    checked, unchecked iff all are unchecked, partial otherwise. *)
Theorem interiors_derived_after_clicks (info : Models.DownloadInfo) (cs : list Click) :
  no_empty_dir (Models.file_tree info) ->
  interiors_derived (file_tree (clicks (TorrentAddingDialog_init info) cs)).
Proof.
  intros Hne. apply consistent_interiors_derived.
  - apply reached_consistent.
  - apply clicks_dirs_nonempty. simpl. by apply traverse_dirs_nonempty.
Qed.

Lemma example_tree_no_empty_dir : no_empty_dir example_tree.
Proof.
  unfold example_tree.
  repeat first [ apply no_empty_dir_file
               | apply no_empty_dir_dir; [discriminate|]
               | apply List.Forall_cons; simpl
               | apply List.Forall_nil ].
Defined.

Lemma interiors_derived_after_clicks_witness :
  no_empty_dir (Models.file_tree example_info) /\
  interiors_derived
    (file_tree (clicks (TorrentAddingDialog_init example_info)
                       [ToggleBox [] Unchecked; ToggleBox [1%nat] Checked;
                        ClickRow [1%nat; 0%nat] 1; ToggleBox [0%nat] Checked])).
Proof.
  split.
  - exact example_tree_no_empty_dir.
  - apply (interiors_derived_after_clicks example_info). exact example_tree_no_empty_dir.
Defined.

(** C1, as stated, fails on a directory without children: both "all
    children are checked" and "all children are unchecked" hold of it, and
    after its box is cleared it is unchecked although all its children are
    checked. *)
Lemma interiors_derived_fails_on_empty_dir :
  ~ interiors_derived
      (file_tree (clicks (TorrentAddingDialog_init empty_info) [ToggleBox [] Unchecked])).
Proof.
  vm_compute. inversion 1 as [s t i kids Hrule _]; subst.
  destruct (Hrule eq_refl) as [[_ Hchecked] _].
  discriminate (Hchecked (List.Forall_nil _)).
Qed.

(** ** The selection tree: shapes and paths *)

Section Shapes.

Lemma shape_setCheckState st item : shape (setCheckState st item) = shape item.
Proof. by destruct item. Qed.

Lemma shape_set_check_state_to_tree item st :
  shape (_set_check_state_to_tree item st) = shape item.
Proof.
  induction item as [s t i kids IH] using item_ind'. simpl. f_equal.
  rewrite map_map. apply map_ext_Forall.
  eapply Forall_impl; [exact IH|]. intros k Hk.
  cbv beta. by rewrite shape_setCheckState.
Qed.

Lemma shape_insert i k s' item child :
  children item !! i = Some child -> shape k = shape child ->
  shape (setCheckState s' (with_children (<[i := k]> (children item)) item)) = shape item.
Proof.
  intros Hi Hk. destruct item as [s t ic kids]. simpl in *. f_equal.
  change (map shape (<[i := k]> kids)) with (shape <$> <[i := k]> kids).
  rewrite list_fmap_insert, Hk. apply list_insert_id.
  by rewrite list_lookup_fmap, Hi.
Qed.

Lemma shape_walk p : forall item, shape (update_checkboxes_walk p item) = shape item.
Proof.
  induction p as [|i p IH]; intros item.
  - apply shape_set_check_state_to_tree.
  - simpl. destruct (children item !! i) as [child|] eqn:Hi; [|done].
    by apply (shape_insert _ _ _ _ child).
Qed.

Lemma shape_set_state_at p : forall st item, shape (set_state_at p st item) = shape item.
Proof.
  induction p as [|i p IH]; intros st item.
  - apply shape_setCheckState.
  - simpl. destruct (children item !! i) as [child|] eqn:Hi; [|done].
    pose proof (shape_insert i (set_state_at p st child) (checkState item) item child
                  Hi (IH st child)) as Hs.
    by destruct item.
Qed.

Lemma shape_click d c : shape (file_tree (click d c)) = shape (file_tree d).
Proof.
  destruct c as [p st|p column]; simpl; rewrite file_tree_update_checkboxes; simpl.
  - destruct (item_at p (set_state_at p st (file_tree d)));
      by rewrite ?shape_walk, shape_set_state_at.
  - case_decide; [done|]. destruct (item_at p (file_tree d)); by rewrite ?shape_walk.
Qed.

Lemma shape_clicks cs : forall d, shape (file_tree (clicks d cs)) = shape (file_tree d).
Proof.
  induction cs as [|c cs IH]; intros d; [done|].
  simpl. change (fold_left click cs (click d c)) with (clicks (click d c) cs).
  by rewrite IH, shape_click.
Qed.

Lemma file_items_click d c : _file_items (click d c) = _file_items d.
Proof. destruct c; simpl; by rewrite file_items_update_checkboxes. Qed.

Lemma file_items_clicks cs : forall d, _file_items (clicks d cs) = _file_items d.
Proof.
  induction cs as [|c cs IH]; intros d; [done|].
  simpl. change (fold_left click cs (click d c)) with (clicks (click d c) cs).
  by rewrite IH, file_items_click.
Qed.

Lemma item_at_shape p : forall item, item_at p (shape item) = shape <$> item_at p item.
Proof.
  induction p as [|i p IH]; intros [s t ic kids]; [done|].
  simpl. change (map shape kids) with (shape <$> kids).
  rewrite list_lookup_fmap. destruct (kids !! i) as [child|]; simpl; [apply IH|done].
Qed.

Lemma icon_shape item : icon (shape item) = icon item.
Proof. by destruct item. Qed.

(** Trees of one shape have items at the same paths, with the same
    icons. *)
Lemma item_at_same_shape p t1 t2 it1 :
  shape t1 = shape t2 -> item_at p t1 = Some it1 ->
  exists it2, item_at p t2 = Some it2 /\ icon it2 = icon it1.
Proof.
  intros Hs H1.
  pose proof (item_at_shape p t1) as E1. pose proof (item_at_shape p t2) as E2.
  rewrite Hs, E2, H1 in E1. simpl in E1.
  destruct (item_at p t2) as [it2|]; [|done]. exists it2. split; [done|].
  simpl in E1. injection E1 as E1. by rewrite <- (icon_shape it2), E1, icon_shape.
Qed.

Lemma item_at_app p q : forall item,
  item_at (p ++ q) item = item_at p item ≫= item_at q.
Proof.
  induction p as [|i p IH]; intros item; [done|].
  simpl. destruct (children item !! i); [apply IH|done].
Qed.

Lemma traverse_file_items_dir here entries :
  traverse_file_items here (Models.Dir entries) = traverse_entries here 0%nat entries.
Proof. reflexivity. Qed.

(** Each recorded path leads, below [here], to a file item of the built
    tree. *)
Lemma traverse_file_items_paths node : forall here name fi,
  fi ∈ traverse_file_items here node ->
  exists q it, snd fi = here ++ q /\
               item_at q (_traverse_file_tree name node) = Some it /\
               icon it = file_icon.
Proof.
  induction node as [info|entries IH] using file_tree_ind'; intros here name fi Hin.
  - simpl in Hin. apply list_elem_of_singleton in Hin as ->.
    exists [], (TreeItem Checked name file_icon []). simpl.
    by rewrite app_nil_r.
  - rewrite traverse_file_items_dir in Hin.
    assert (forall k es,
               Forall (fun e => forall here name fi,
                           fi ∈ traverse_file_items here (snd e) ->
                           exists q it, snd fi = here ++ q /\
                             item_at q (_traverse_file_tree name (snd e)) = Some it /\
                             icon it = file_icon) es ->
               fi ∈ traverse_entries here k es ->
               exists j e q it, es !! j = Some e /\
                 snd fi = here ++ ((k + j)%nat :: q) /\
                 item_at q (_traverse_file_tree (fst e) (snd e)) = Some it /\
                 icon it = file_icon) as Hgo.
    { clear. intros k es. revert k.
      induction es as [|e es IHes]; intros k Hall Hin; simpl in Hin.
      - by apply elem_of_nil in Hin.
      - apply Forall_cons in Hall as [He Hall].
        apply elem_of_app in Hin as [Hin|Hin].
        + destruct (He _ (fst e) _ Hin) as (q & it & Hp & Hq & Hi).
          exists 0%nat, e, q, it. rewrite Nat.add_0_r.
          by rewrite Hp, <- app_assoc.
        + destruct (IHes (S k) Hall Hin) as (j & e' & q & it & Hj & Hp & Hq & Hi).
          exists (S j), e', q, it. by rewrite Nat.add_succ_r. }
    destruct (Hgo 0%nat entries IH Hin) as (j & e & q & it & Hj & Hp & Hq & Hi).
    exists (j :: q), it. simpl in *. split; [done|].
    change (map ?f entries) with (f <$> entries).
    rewrite list_lookup_fmap, Hj. simpl. done.
Qed.

Lemma traverse_entries_fst here : forall k es,
  Forall (fun e => forall here, (traverse_file_items here (snd e)).*1 = leaves (snd e)) es ->
  (traverse_entries here k es).*1 = flat_map (fun e => leaves (snd e)) es.
Proof.
  intros k es. revert k. induction es as [|e es IH]; intros k Hall; [done|].
  apply Forall_cons in Hall as [He Hall]. simpl.
  by rewrite fmap_app, He, IH.
Qed.

(** The files recorded are the files of the file tree, in order. *)
Lemma traverse_file_items_fst node : forall here,
  (traverse_file_items here node).*1 = leaves node.
Proof.
  induction node as [info|entries IH] using file_tree_ind'; intros here; [done|].
  rewrite traverse_file_items_dir. by apply traverse_entries_fst.
Qed.

Lemma leaves_in_state_item_at st p : forall item it,
  leaves_in_state st item -> item_at p item = Some it ->
  icon it = file_icon -> checkState it = st.
Proof.
  induction p as [|i p IH]; intros item it Hl Hp Hi.
  - simpl in Hp. injection Hp as ->. destruct Hl; simpl in *; auto.
  - simpl in Hp. destruct (children item !! i) as [child|] eqn:Hc; [|done].
    apply (IH child); [|done..].
    destruct Hl as [s t ic kids _ Hkids]. simpl in Hc.
    by eapply Forall_lookup_1.
Qed.

End Shapes.

(** ** The selection summary *)

Section SelectionSummary.

Lemma total_length_cons info infos :
  total_length (info :: infos) = Models.length info + total_length infos.
Proof. reflexivity. Qed.

Lemma selected_leaves_fold tree items :
  selected_leaves tree items = fold_left (count_selected tree) items (0%nat, 0).
Proof. reflexivity. Qed.

Lemma count_all_checked tree items : forall acc,
  Forall (fun fi => exists it, item_at (snd fi) tree = Some it /\
                               checkState it = Checked) items ->
  fold_left (count_selected tree) items acc =
  ((fst acc + length items)%nat, snd acc + total_length items.*1).
Proof.
  induction items as [|fi items IH]; intros [n z] Hall.
  - simpl. f_equal; [lia | unfold total_length; simpl; lia].
  - apply Forall_cons in Hall as [(it & Hit & Hst) Hall].
    cbn [fold_left]. rewrite IH by done. unfold count_selected. rewrite Hit.
    rewrite decide_True by done. rewrite fmap_cons, total_length_cons.
    cbn [fst snd length]. f_equal; lia.
Qed.

Lemma count_none_checked tree items : forall acc,
  Forall (fun fi => exists it, item_at (snd fi) tree = Some it /\
                               checkState it = Unchecked) items ->
  fold_left (count_selected tree) items acc = acc.
Proof.
  induction items as [|fi items IH]; intros acc Hall; [done|].
  apply Forall_cons in Hall as [(it & Hit & Hst) Hall]. simpl.
  rewrite IH by done. unfold count_selected. rewrite Hit.
  rewrite decide_False; [done|congruence].
Qed.

(** In a dialog reached by clicks, every recorded file item is a file
    item of the tree; so when all the file items of the tree are in one
    state, so are the recorded ones. *)
Lemma file_items_in_state st info cs :
  let d := clicks (TorrentAddingDialog_init info) cs in
  leaves_in_state st (file_tree d) ->
  Forall (fun fi => exists it, item_at (snd fi) (file_tree d) = Some it /\
                               checkState it = st) (_file_items d).
Proof.
  intros d Hl. subst d. rewrite file_items_clicks. simpl.
  apply Forall_forall. intros fi Hin.
  destruct (traverse_file_items_paths _ [] (Models.suggested_name info) fi Hin)
    as (q & it & Hp & Hq & Hi).
  simpl in Hp. rewrite Hp.
  destruct (item_at_same_shape q
              (file_tree (TorrentAddingDialog_init info))
              (file_tree (clicks (TorrentAddingDialog_init info) cs)) it) as (it2 & H2 & Hi2);
    [by rewrite shape_clicks | done |].
  exists it2. split; [done|].
  eapply leaves_in_state_item_at; [exact Hl | exact H2 | congruence].
Qed.

End SelectionSummary.

(** C9.  In a dialog reached by any clicks, the selection summary computed
    by [_update_selection_label] is (number of files, sum of their lengths)
    when every file item of the tree is checked, and (0, 0) when every file
    item is unchecked.  In the example tree with all boxes cleared,
    checking [dir] selects 2 files and 250 bytes and leaves the root
    partially checked; checking [a.txt] next selects 3 files and 350 bytes
    and leaves the root checked. *)
Theorem selected_leaves_summary :
  (forall info cs,
      let d := clicks (TorrentAddingDialog_init info) cs in
      leaves_in_state Checked (file_tree d) ->
      selected_leaves (file_tree d) (_file_items d) =
      (length (leaves (Models.file_tree info)),
       total_length (leaves (Models.file_tree info)))) /\
  (forall info cs,
      let d := clicks (TorrentAddingDialog_init info) cs in
      leaves_in_state Unchecked (file_tree d) ->
      selected_leaves (file_tree d) (_file_items d) = (0%nat, 0)) /\
  leaves_in_state Unchecked (file_tree example_cleared) /\
  selected_leaves (file_tree example_dir_checked) (_file_items example_dir_checked)
  = (2%nat, 250) /\
  _selection_label example_dir_checked = Selected 2 250 /\
  checkState (file_tree example_dir_checked) = PartiallyChecked /\
  selected_leaves (file_tree example_all_checked) (_file_items example_all_checked)
  = (3%nat, 350) /\
  _selection_label example_all_checked = Selected 3 350 /\
  checkState (file_tree example_all_checked) = Checked.
Proof.
  split; [|split].
  - intros info cs d Hl.
    pose proof (file_items_in_state Checked info cs Hl) as Hall. fold d in Hall.
    rewrite selected_leaves_fold, (count_all_checked _ _ _ Hall). simpl.
    subst d. rewrite file_items_clicks. simpl.
    by rewrite traverse_file_items_fst, <- (traverse_file_items_fst _ []), length_fmap,
      traverse_file_items_fst.
  - intros info cs d Hl.
    pose proof (file_items_in_state Unchecked info cs Hl) as Hall. fold d in Hall.
    by rewrite selected_leaves_fold, (count_none_checked _ _ _ Hall).
  - split; [|by vm_compute].
    vm_compute.
    repeat first [ apply leaves_in_state_item; [done || discriminate|]
                 | apply List.Forall_cons
                 | apply List.Forall_nil ].
Qed.

Lemma example_initial_leaves_checked :
  leaves_in_state Checked (file_tree (clicks (TorrentAddingDialog_init example_info) [])).
Proof.
  vm_compute.
  repeat first [ apply leaves_in_state_item; [done || discriminate|]
               | apply List.Forall_cons
               | apply List.Forall_nil ].
Defined.

Lemma selected_leaves_summary_witness :
  leaves_in_state Checked (file_tree (clicks (TorrentAddingDialog_init example_info) [])) /\
  selected_leaves (file_tree (clicks (TorrentAddingDialog_init example_info) []))
                  (_file_items (clicks (TorrentAddingDialog_init example_info) []))
  = (3%nat, 350).
Proof.
  split.
  - exact example_initial_leaves_checked.
  - exact (proj1 selected_leaves_summary example_info [] example_initial_leaves_checked).
Defined.

(** ** Checking and then unchecking a node *)

Section RoundTrip.

(** The slot at the clicked item itself, after Qt wrote [st] on it. *)
Lemma toggle_walk_here st item :
  toggle_walk [] st item = setCheckState st (_set_check_state_to_tree item st).
Proof. by destruct item. Qed.

Lemma setCheckState_twice st1 st2 item :
  setCheckState st2 (setCheckState st1 item) = setCheckState st2 item.
Proof. reflexivity. Qed.

(** Forcing a state twice is forcing the last state. *)
Lemma set_tree_twice st1 st2 item :
  _set_check_state_to_tree (setCheckState st1 (_set_check_state_to_tree item st1)) st2 =
  setCheckState st1 (_set_check_state_to_tree item st2).
Proof.
  induction item as [s t i kids IH] using item_ind'.
  transitivity
    (TreeItem st1 t i
       (map (fun k => setCheckState st2 (_set_check_state_to_tree k st2))
            (map (fun k => setCheckState st1 (_set_check_state_to_tree k st1)) kids)));
    [done|].
  transitivity
    (TreeItem st1 t i
       (map (fun k => setCheckState st2 (_set_check_state_to_tree k st2)) kids));
    [|done].
  f_equal. rewrite map_map. apply map_ext_Forall.
  eapply Forall_impl; [exact IH|]. intros k Hk. cbv beta.
  rewrite Hk. by destruct (_set_check_state_to_tree k st2).
Qed.

(** Forcing the state a subtree already has everywhere changes
    nothing. *)
Lemma set_tree_uniform st item :
  uniform st item -> setCheckState st (_set_check_state_to_tree item st) = item.
Proof.
  induction item as [s t i kids IH] using item_ind'.
  inversion 1 as [t' i' kids' Hkids]; subst. unfold setCheckState. simpl. f_equal.
  rewrite <- (map_id kids) at 2. apply map_ext_Forall.
  rewrite Forall_forall in *. intros k Hk. apply (IH k Hk (Hkids k Hk)).
Qed.

Lemma toggle_walk_cons' i p st item child :
  children item !! i = Some child ->
  toggle_walk (i :: p) st item =
  setCheckState (new_state (<[i := toggle_walk p st child]> (children item)))
                (with_children (<[i := toggle_walk p st child]> (children item)) item).
Proof. intros Hi. unfold toggle_walk. by rewrite (toggle_walk_cons _ _ _ _ _ Hi). Qed.

(** In a consistent tree, for a node whose subtree is entirely
    unchecked: checking it and then unchecking it gives the tree back. *)
Lemma check_uncheck_tree p : forall item it,
  consistent item -> item_at p item = Some it -> uniform Unchecked it ->
  toggle_walk p Unchecked (toggle_walk p Checked item) = item.
Proof.
  induction p as [|i p IH]; intros item it Hc Hp Hu.
  - simpl in Hp. injection Hp as <-.
    rewrite !toggle_walk_here, set_tree_twice, setCheckState_twice.
    by apply set_tree_uniform.
  - simpl in Hp. destruct (children item !! i) as [child|] eqn:Hi; [|done].
    rewrite (toggle_walk_cons' _ _ _ _ _ Hi).
    destruct item as [s t ic kids]. simpl in Hi.
    assert (i < length kids)%nat as Hlt by (by eapply lookup_lt_Some).
    cbn [children].
    rewrite (toggle_walk_cons' i p Unchecked _ (toggle_walk p Checked child));
      [|cbn [children setCheckState with_children]; by apply list_lookup_insert_eq].
    cbn [children setCheckState with_children text icon checkState].
    rewrite list_insert_insert_eq.
    inversion Hc as [s' t' i' kids' Hs Hkids]; subst.
    rewrite (IH child it); [|by eapply Forall_lookup_1|done|done].
    rewrite list_insert_id by done.
    rewrite <- Hs; [done|]. intros ->. by rewrite lookup_nil in Hi.
Qed.

Lemma file_tree_toggle p st d :
  file_tree (click d (ToggleBox p st)) =
  match item_at p (file_tree d) with
  | Some _ => toggle_walk p st (file_tree d)
  | None => file_tree d
  end.
Proof.
  simpl. rewrite file_tree_update_checkboxes. simpl.
  destruct (item_at p (file_tree d)) as [it|] eqn:Hp.
  - destruct (proj2 (item_at_set_state_at p st (file_tree d))) as [it' ->]; [|done].
    by rewrite Hp.
  - by rewrite set_state_at_invalid, Hp.
Qed.

Lemma item_at_toggle_walk p st item :
  is_Some (item_at p item) -> is_Some (item_at p (toggle_walk p st item)).
Proof.
  intros [it Hp].
  destruct (item_at_same_shape p item (toggle_walk p st item) it) as (it2 & -> & _);
    [|done|done].
  unfold toggle_walk. by rewrite shape_walk, shape_set_state_at.
Qed.

End RoundTrip.

(** C4, as amended.  In a dialog reached by any clicks, for every node
    whose own box and whose descendants' boxes are all unchecked: checking
    the node and then unchecking it restores the whole tree, so in
    particular the subtree of the node and all its ancestors. *)
Theorem check_then_uncheck_restores (info : Models.DownloadInfo) (cs : list Click)
    (p : list nat) (it : QTreeWidgetItem) :
  let d := clicks (TorrentAddingDialog_init info) cs in
  item_at p (file_tree d) = Some it ->
  uniform Unchecked it ->
  file_tree (clicks d [ToggleBox p Checked; ToggleBox p Unchecked]) = file_tree d.
Proof.
  intros d Hp Hu.
  assert (consistent (file_tree d)) as Hc by apply reached_consistent.
  change (clicks d [ToggleBox p Checked; ToggleBox p Unchecked])
    with (click (click d (ToggleBox p Checked)) (ToggleBox p Unchecked)).
  rewrite file_tree_toggle, file_tree_toggle, Hp.
  destruct (item_at_toggle_walk p Checked (file_tree d)) as [it' ->]; [by rewrite Hp|].
  by eapply check_uncheck_tree.
Qed.

Lemma example_dir_unchecked :
  uniform Unchecked
    (TreeItem Unchecked "dir" directory_icon
       [TreeItem Unchecked "b.txt" file_icon []; TreeItem Unchecked "c.txt" file_icon []]).
Proof. repeat constructor. Defined.

Lemma check_then_uncheck_restores_witness :
  item_at [1%nat]
    (file_tree (clicks (TorrentAddingDialog_init example_info) [ToggleBox [] Unchecked]))
  = Some (TreeItem Unchecked "dir" directory_icon
            [TreeItem Unchecked "b.txt" file_icon []; TreeItem Unchecked "c.txt" file_icon []]) /\
  file_tree
    (clicks (clicks (TorrentAddingDialog_init example_info) [ToggleBox [] Unchecked])
            [ToggleBox [1%nat] Checked; ToggleBox [1%nat] Unchecked])
  = file_tree (clicks (TorrentAddingDialog_init example_info) [ToggleBox [] Unchecked]).
Proof.
  split.
  - reflexivity.
  - apply (check_then_uncheck_restores example_info [ToggleBox [] Unchecked] [1%nat]
             (TreeItem Unchecked "dir" directory_icon
                [TreeItem Unchecked "b.txt" file_icon [];
                 TreeItem Unchecked "c.txt" file_icon []])).
    + reflexivity.
    + exact example_dir_unchecked.
Defined.

(** C4, as stated, fails for a node that was checked before: in the new
    dialog of the example, checking [a.txt] and then unchecking it leaves
    [a.txt] unchecked and the root partially checked, where both were
    checked before. *)
Lemma check_then_uncheck_loses_checked :
  checkState <$> item_at [0%nat] (file_tree (TorrentAddingDialog_init example_info))
  = Some Checked /\
  checkState (file_tree (TorrentAddingDialog_init example_info)) = Checked /\
  checkState <$>
    item_at [0%nat]
      (file_tree (clicks (TorrentAddingDialog_init example_info)
                         [ToggleBox [0%nat] Checked; ToggleBox [0%nat] Unchecked]))
  = Some Unchecked /\
  checkState
    (file_tree (clicks (TorrentAddingDialog_init example_info)
                       [ToggleBox [0%nat] Checked; ToggleBox [0%nat] Unchecked]))
  = PartiallyChecked /\
  file_tree (clicks (TorrentAddingDialog_init example_info)
                    [ToggleBox [0%nat] Checked; ToggleBox [0%nat] Unchecked])
  <> file_tree (TorrentAddingDialog_init example_info).
Proof. repeat split; try reflexivity. vm_compute. discriminate. Qed.

(** ** The sorted list of torrents *)

Section Collection.

Lemma str_gt_false a b : str_gt a b = false <-> String.le a b.
Proof.
  unfold str_gt, String.le, String.leb.
  destruct (String.compare a b); simpl; naive_solver.
Qed.

Lemma str_gt_true a b : str_gt a b = true <-> ~ String.le a b.
Proof. rewrite <- str_gt_false. destruct (str_gt a b); naive_solver. Qed.

(** Names that are not below one another are above. *)
Lemma not_le_le a b : ~ String.le a b -> String.le b a.
Proof. intros Hn. destruct (total String.le a b); [done|done]. Qed.

(** The scan stops at the first item with a greater name: in a sorted list
    everything before the stop is not greater and everything from the stop
    on is greater. *)
Lemma items_upper_split name items :
  StronglySorted by_name items ->
  Forall (fun x => String.le (sort_key x) name) (take (items_upper name items) items) /\
  Forall (fun x => ~ String.le (sort_key x) name) (drop (items_upper name items) items).
Proof.
  induction 1 as [|x items Hs IH Hx]; simpl; [by split|].
  fold (sort_key x). destruct (str_gt (sort_key x) name) eqn:Hgt; simpl.
  - split; [done|]. apply str_gt_true in Hgt. constructor; [done|].
    eapply Forall_impl; [exact Hx|]. intros y Hxy Hy. apply Hgt.
    by transitivity (sort_key y).
  - destruct IH as [IH1 IH2]. split; [|done].
    constructor; [by apply str_gt_false|done].
Qed.

Lemma items_upper_le name items : (items_upper name items <= length items)%nat.
Proof.
  induction items as [|x items IH]; simpl; [lia|].
  destruct (str_gt _ _); simpl; lia.
Qed.

(** Inserting at the row found by the scan keeps a sorted list sorted. *)
Lemma insert_sorted item items :
  StronglySorted by_name items ->
  StronglySorted by_name (insertItem (items_upper (sort_key item) items) item items).
Proof.
  intros Hs. destruct (items_upper_split (sort_key item) items Hs) as [Hb Ha].
  rewrite <- (take_drop (items_upper (sort_key item) items) items) in Hs.
  apply StronglySorted_app in Hs as (Hba & Hsb & Hsa).
  unfold insertItem. apply StronglySorted_app_2; [|done|].
  - intros x1 x2 H1 [->|H2]%elem_of_cons; [|by apply Hba].
    by apply (proj1 (Forall_forall _ _) Hb).
  - apply StronglySorted_cons. split; [|done].
    eapply Forall_impl; [exact Ha|]. intros y Hy. by apply not_le_le.
Qed.

(** Taking an item out keeps a sorted list sorted. *)
Lemma takeItem_sorted r items :
  StronglySorted by_name items -> StronglySorted by_name (takeItem r items).
Proof.
  intros Hs. destruct r as [n|]; [|done]. simpl.
  rewrite delete_take_drop.
  rewrite <- (take_drop n items) in Hs.
  apply StronglySorted_app in Hs as (Hba & Hsb & Hsa).
  apply StronglySorted_app_2; [|done|].
  - intros x1 x2 H1 H2. apply Hba; [done|].
    rewrite <- (take_drop 1 (drop n items)). apply elem_of_app. right.
    by rewrite drop_drop, Nat.add_1_r.
  - rewrite <- (take_drop 1 (drop n items)) in Hsa.
    apply StronglySorted_app_1_r in Hsa. by rewrite drop_drop, Nat.add_1_r in Hsa.
Qed.

Lemma list_update_control_action_state w :
  _list_widget (_update_control_action_state w) = _list_widget w.
Proof. reflexivity. Qed.

Lemma collection_step_sorted w op :
  StronglySorted by_name (_list_widget w) ->
  StronglySorted by_name (_list_widget (collection_step w op)).
Proof.
  intros Hs. destruct op as [st|h]; simpl.
  - set (item := {| item_id := items_created w;
                   item_icon := if TorrentModels.single_file_mode st
                                then file_icon else directory_icon;
                   data := TorrentModels.info_hash st;
                   selected := false;
                   itemWidget := {| state := st; waiting_control_action := false |} |}).
    by apply (insert_sorted item).
  - unfold _remove_torrent_item. destruct (_torrent_to_item w !! h); [|done].
    simpl. by apply takeItem_sorted.
Qed.

Lemma collection_steps_sorted ops : forall w,
  StronglySorted by_name (_list_widget w) ->
  StronglySorted by_name (_list_widget (fold_left collection_step ops w)).
Proof.
  induction ops as [|op ops IH]; intros w Hs; [done|].
  simpl. by apply IH, collection_step_sorted.
Qed.

End Collection.

(** C7.  After any sequence of insertions and removals on the new window
    the list is sorted by name: each item's name is at most the next
    item's.  An insertion into a sorted list puts the new item after every
    item whose name is at most its own, so after all items with an equal
    name, and before the items with a greater name. *)
Theorem collection_stays_sorted :
  (forall ops : list CollectionOp,
      sorted_by_name (_list_widget (fold_left collection_step ops MainWindow_init))) /\
  (forall (w : MainWindow) (st : TorrentState),
      sorted_by_name (_list_widget w) ->
      exists before item after,
        _list_widget w = before ++ after /\
        _list_widget (_add_torrent_item st w) = before ++ item :: after /\
        state (itemWidget item) = st /\
        Forall (fun x => String.le (sort_key x) (TorrentModels.suggested_name st)) before /\
        Forall (fun x => ~ String.le (sort_key x) (TorrentModels.suggested_name st)) after).
Proof.
  split.
  - intros ops. apply StronglySorted_Sorted, collection_steps_sorted. constructor.
  - intros w st Hs. apply (Sorted_StronglySorted by_name) in Hs.
    destruct (items_upper_split (TorrentModels.suggested_name st) _ Hs) as [Hb Ha].
    eexists _, _, _. split; [symmetry; apply take_drop|].
    split; [reflexivity|]. by split.
Qed.

Example insert_equal_name_goes_last :
  map (fun item => data item)
      (_list_widget (fold_left collection_step
                               [Insert ubuntu_1; Insert debian; Insert ubuntu_2]
                               MainWindow_init))
  = ["h3"; "h1"; "h2"].
Proof. reflexivity. Qed.

Lemma collection_stays_sorted_witness :
  sorted_by_name (_list_widget (_add_torrent_item ubuntu_1 MainWindow_init)) /\
  exists before item after,
    _list_widget (_add_torrent_item ubuntu_1 MainWindow_init) = before ++ after /\
    _list_widget (_add_torrent_item ubuntu_2 (_add_torrent_item ubuntu_1 MainWindow_init))
    = before ++ item :: after /\
    state (itemWidget item) = ubuntu_2 /\
    Forall (fun x => String.le (sort_key x) (TorrentModels.suggested_name ubuntu_2)) before /\
    Forall (fun x => ~ String.le (sort_key x) (TorrentModels.suggested_name ubuntu_2)) after.
Proof.
  assert (sorted_by_name (_list_widget (_add_torrent_item ubuntu_1 MainWindow_init))) as Hs.
  { exact (proj1 collection_stays_sorted [Insert ubuntu_1]). }
  split; [exact Hs|].
  exact (proj2 collection_stays_sorted (_add_torrent_item ubuntu_1 MainWindow_init)
               ubuntu_2 Hs).
Defined.

(** ** State updates and removals for unknown torrents *)

(** C10.  A state update for an info hash that is not in
    [_torrent_to_item] returns normally and leaves the window exactly as it
    was: list, dict, widgets, pending flags and action states.  Removing
    such an info hash raises [KeyError]. *)
Theorem update_absent_is_noop (st : TorrentState) (w : MainWindow) :
  _torrent_to_item w !! TorrentModels.info_hash st = None ->
  _update_torrent_item st w = Return w /\
  _remove_torrent_item (TorrentModels.info_hash st) w
  = Raise (KeyError (TorrentModels.info_hash st)).
Proof.
  intros Habsent. unfold _update_torrent_item, _remove_torrent_item.
  by rewrite Habsent.
Qed.

Lemma update_absent_is_noop_witness :
  _torrent_to_item (_add_torrent_item ubuntu_1 MainWindow_init)
    !! TorrentModels.info_hash debian = None /\
  _update_torrent_item debian (_add_torrent_item ubuntu_1 MainWindow_init)
  = Return (_add_torrent_item ubuntu_1 MainWindow_init) /\
  _remove_torrent_item (TorrentModels.info_hash debian)
                       (_add_torrent_item ubuntu_1 MainWindow_init)
  = Raise (KeyError (TorrentModels.info_hash debian)).
Proof.
  assert (_torrent_to_item (_add_torrent_item ubuntu_1 MainWindow_init)
            !! TorrentModels.info_hash debian = None) as Habsent by (by vm_compute).
  split; [exact Habsent|].
  exact (update_absent_is_noop debian (_add_torrent_item ubuntu_1 MainWindow_init) Habsent).
Defined.

(** ** Adding a torrent that is in the list already *)

Section Duplicates.

Variable from_file : string -> Result TorrentInfo.
Variable abspath_dirname : string -> string.

Lemma add_torrent_file_collection path w :
  _list_widget (add_torrent_file from_file abspath_dirname path w).1 = _list_widget w /\
  _torrent_to_item (add_torrent_file from_file abspath_dirname path w).1
  = _torrent_to_item w.
Proof.
  unfold add_torrent_file. destruct (from_file path) as [ti|err]; [|done].
  simpl. by destruct (_torrent_to_item w !! _).
Qed.

Lemma add_torrent_file_dialog path w d :
  (add_torrent_file from_file abspath_dirname path w).2 = Some d ->
  _torrent_to_item w !! TorrentModels.download_info_info_hash d.2 = None.
Proof.
  unfold add_torrent_file. destruct (from_file path) as [ti|err]; [|done].
  simpl. destruct (_torrent_to_item w !! _) eqn:E; [done|].
  intros [= <-]. done.
Qed.

Lemma add_torrent_files_fold paths : forall w dialogs,
  let result :=
    fold_left (add_torrent_files_turn from_file abspath_dirname) paths (w, dialogs) in
  _list_widget result.1 = _list_widget w /\
  _torrent_to_item result.1 = _torrent_to_item w /\
  forall d, d ∈ result.2 ->
            d ∈ dialogs \/
            _torrent_to_item w !! TorrentModels.download_info_info_hash d.2 = None.
Proof.
  induction paths as [|path paths IH]; intros w dialogs; [by auto|].
  cbn [fold_left].
  destruct (add_torrent_file from_file abspath_dirname path w) as [w' dialog] eqn:E.
  assert (add_torrent_files_turn from_file abspath_dirname (w, dialogs) path
          = (w', dialogs ++ from_option (fun d => [d]) [] dialog)) as ->.
  { unfold add_torrent_files_turn. cbn [fst snd]. by rewrite E. }
  pose proof (add_torrent_file_collection path w) as [Hl Hm]. rewrite E in Hl, Hm.
  simpl in Hl, Hm.
  destruct (IH w' (dialogs ++ from_option (fun d => [d]) [] dialog)) as (IH1 & IH2 & IH3).
  cbv zeta. rewrite IH1, IH2. split; [done|]. split; [done|].
  intros d Hd. destruct (IH3 d Hd) as [Hin|Hnone].
  - apply elem_of_app in Hin as [Hin|Hin]; [by left|]. right.
    destruct dialog as [d'|]; simpl in Hin; [|by apply elem_of_nil in Hin].
    apply list_elem_of_singleton in Hin as ->.
    apply (add_torrent_file_dialog path w). by rewrite E.
  - right. by rewrite <- Hm.
Qed.

End Duplicates.

(** C8, as amended.  The rejection is made by [add_torrent_files], before
    an insertion is requested: when the torrent read from a file has an
    info hash that is in the list already, the error box shows
    [ValueError('This torrent is already added')], no dialog is executed,
    and the list and [_torrent_to_item] are unchanged; over a whole call,
    the list and the dict are unchanged and a dialog is executed only for
    info hashes that are not in the dict.  The insertion itself,
    [_add_torrent_item], makes no test: called for an info hash that is in
    the dict, it adds one more item to the list and makes the entry lead
    to the new item. *)
Theorem add_duplicate_rejected
    (from_file : string -> Result TorrentInfo) (abspath_dirname : string -> string) :
  (forall path torrent_info id w,
      from_file path = Return torrent_info ->
      _torrent_to_item w !! TorrentModels.download_info_info_hash torrent_info = Some id ->
      exists w',
        add_torrent_file from_file abspath_dirname path w = (w', None) /\
        _list_widget w' = _list_widget w /\
        _torrent_to_item w' = _torrent_to_item w /\
        critical_boxes w' =
        critical_boxes w ++
          [("Failed to add " +:+ dquote +:+ path +:+ dquote,
            ValueError "This torrent is already added")]) /\
  (forall paths w,
      _list_widget (add_torrent_files from_file abspath_dirname paths w).1
      = _list_widget w /\
      _torrent_to_item (add_torrent_files from_file abspath_dirname paths w).1
      = _torrent_to_item w /\
      forall d, d ∈ (add_torrent_files from_file abspath_dirname paths w).2 ->
                _torrent_to_item w !! TorrentModels.download_info_info_hash d.2 = None) /\
  (forall st id w,
      window_ok w ->
      _torrent_to_item w !! TorrentModels.info_hash st = Some id ->
      length (_list_widget (_add_torrent_item st w)) = S (length (_list_widget w)) /\
      _torrent_to_item (_add_torrent_item st w) !! TorrentModels.info_hash st
      = Some (items_created w) /\
      items_created w <> id).
Proof.
  split; [|split].
  - intros path ti id w Hfile Hdup. unfold add_torrent_file.
    rewrite Hfile. simpl. rewrite Hdup. eexists. by split.
  - intros paths w.
    destruct (add_torrent_files_fold from_file abspath_dirname paths w []) as (H1 & H2 & H3).
    split; [exact H1|]. split; [exact H2|].
    intros d Hd. destruct (H3 d Hd) as [Hin|Hnone]; [|done].
    by apply elem_of_nil in Hin.
  - intros st id w [Hids _ Hentries] Hid. split; [|split].
    + unfold _add_torrent_item, insertItem. cbn [_list_widget].
      rewrite length_app. cbn [length].
      by rewrite Nat.add_succ_r, <- length_app, take_drop.
    + unfold _add_torrent_item. cbn [_torrent_to_item item_id].
      by rewrite lookup_insert_eq.
    + destruct (Hentries _ _ Hid) as (item & Hin & <- & _).
      pose proof (proj1 (Forall_forall _ _) Hids item Hin) as Hlt.
      simpl in Hlt. lia.
Qed.

Lemma add_duplicate_rejected_witness :
  only_ubuntu_file "/tmp/ubuntu.torrent" = Return ubuntu_file /\
  _torrent_to_item (_add_torrent_item ubuntu_1 MainWindow_init)
    !! TorrentModels.download_info_info_hash ubuntu_file = Some 0%nat /\
  exists w',
    add_torrent_file only_ubuntu_file (fun _ => "/tmp") "/tmp/ubuntu.torrent"
                     (_add_torrent_item ubuntu_1 MainWindow_init) = (w', None) /\
    _list_widget w' = _list_widget (_add_torrent_item ubuntu_1 MainWindow_init) /\
    _torrent_to_item w' = _torrent_to_item (_add_torrent_item ubuntu_1 MainWindow_init) /\
    critical_boxes w' =
    critical_boxes (_add_torrent_item ubuntu_1 MainWindow_init) ++
      [("Failed to add " +:+ dquote +:+ "/tmp/ubuntu.torrent" +:+ dquote,
        ValueError "This torrent is already added")].
Proof.
  assert (only_ubuntu_file "/tmp/ubuntu.torrent" = Return ubuntu_file) as Hfile
    by reflexivity.
  assert (_torrent_to_item (_add_torrent_item ubuntu_1 MainWindow_init)
            !! TorrentModels.download_info_info_hash ubuntu_file = Some 0%nat) as Hdup
    by (by vm_compute).
  split; [exact Hfile|]. split; [exact Hdup|].
  exact (proj1 (add_duplicate_rejected only_ubuntu_file (fun _ => "/tmp"))
               "/tmp/ubuntu.torrent" ubuntu_file 0%nat
               (_add_torrent_item ubuntu_1 MainWindow_init) Hfile Hdup).
Defined.

(** C8, as stated, fails for the insertion itself: the engine announces
    a torrent whose info hash the list holds already, and
    [_add_torrent_item] rejects nothing; the list shows the torrent twice
    and the entry of the info hash, which led to the first item, leads to
    the second. *)
Lemma duplicate_insert_not_rejected :
  _torrent_to_item (_add_torrent_item ubuntu_1 MainWindow_init) !! "h1" = Some 0%nat /\
  data <$> _list_widget
             (_add_torrent_item ubuntu_1 (_add_torrent_item ubuntu_1 MainWindow_init))
  = ["h1"; "h1"] /\
  item_id <$> _list_widget
                (_add_torrent_item ubuntu_1 (_add_torrent_item ubuntu_1 MainWindow_init))
  = [0%nat; 1%nat] /\
  _torrent_to_item
    (_add_torrent_item ubuntu_1 (_add_torrent_item ubuntu_1 MainWindow_init)) !! "h1"
  = Some 1%nat.
Proof. by vm_compute. Qed.

(** ** The pending flag *)

Section Pending.

Context {Engine : Type}.

Lemma set_waiting_pending (item : QListWidgetItem) :
  waiting_control_action (itemWidget item) = true -> set_waiting true item = item.
Proof.
  destruct item as [i ic d s [st wt]]. simpl. by intros ->.
Qed.

Lemma set_waiting_twice (item : QListWidgetItem) :
  set_waiting true (set_waiting true item) = set_waiting true item.
Proof. done. Qed.

(** One turn of the loop touches the item of its row only, and leaves it
    with an action pending. *)
Lemma trigger_item_lookup (action : Action Engine) items subs r0 r :
  (trigger_item action (items, subs) r0).1 !! r =
  if decide (r = r0) then set_waiting true <$> items !! r else items !! r.
Proof.
  unfold trigger_item. simpl.
  destruct (items !! r0) as [item|] eqn:Hitem; simpl.
  - destruct (waiting_control_action (itemWidget item)) eqn:Hw; simpl.
    + destruct (decide (r = r0)) as [->|]; [|done].
      by rewrite Hitem; simpl; rewrite set_waiting_pending.
    + rewrite list_lookup_alter. destruct (decide (r0 = r)) as [->|].
      * by rewrite decide_True.
      * by rewrite decide_False by done.
  - destruct (decide (r = r0)) as [->|]; [|done]. by rewrite Hitem.
Qed.

Lemma trigger_item_submissions (action : Action Engine) items subs r0 :
  (trigger_item action (items, subs) r0).2 =
  subs ++ from_option (fun s => [s]) [] (submission_for action items r0).
Proof.
  unfold trigger_item, submission_for. simpl.
  destruct (items !! r0) as [item|]; simpl; [|by rewrite app_nil_r].
  destruct (waiting_control_action (itemWidget item)); simpl; [by rewrite app_nil_r|done].
Qed.

Lemma trigger_items_lookup (action : Action Engine) rows items r :
  (trigger_items action rows items).1 !! r =
  if decide (r ∈ rows) then set_waiting true <$> items !! r else items !! r.
Proof.
  unfold trigger_items. generalize (@nil (Submission Engine)) as subs.
  revert items. induction rows as [|r0 rows IH]; intros items subs; simpl.
  - destruct (decide (r ∈ [])) as [Hin|]; [|done]. by apply elem_of_nil in Hin.
  - destruct (trigger_item action (items, subs) r0) as [items1 subs1] eqn:Hturn.
    rewrite IH.
    pose proof (trigger_item_lookup action items subs r0 r) as H1.
    rewrite Hturn in H1. simpl in H1. rewrite H1.
    destruct (decide (r = r0)) as [->|Hne].
    + rewrite (decide_True (P:=r0 ∈ r0 :: rows)) by (apply elem_of_cons; by left).
      destruct (decide (r0 ∈ rows)); [|done].
      destruct (items !! r0); [|done]. done.
    + destruct (decide (r ∈ rows)) as [Hin|Hnin].
      * by rewrite decide_True by (apply elem_of_cons; by right).
      * rewrite decide_False; [done|]. by intros [?|?]%elem_of_cons.
Qed.

Lemma omap_cons_match {A B} (f : A -> option B) x l :
  omap f (x :: l) = match f x with Some y => y :: omap f l | None => omap f l end.
Proof. done. Qed.

Lemma submission_for_ext (action : Action Engine) items items' (rows : list nat) :
  (forall r, r ∈ rows -> items' !! r = items !! r) ->
  omap (submission_for action items') rows = omap (submission_for action items) rows.
Proof.
  induction rows as [|r rows IH]; intros Hsame; [done|].
  assert (submission_for action items' r = submission_for action items r) as Hr.
  { unfold submission_for. rewrite Hsame; [done|]. apply elem_of_cons. by left. }
  assert (omap (submission_for action items') rows
          = omap (submission_for action items) rows) as Hrows.
  { apply IH. intros r' Hr'. apply Hsame. apply elem_of_cons. by right. }
  by rewrite !omap_cons_match, Hr, Hrows.
Qed.

(** Over distinct rows the loop submits, in the order of the rows, for
    each item that had no action pending when the loop started. *)
Lemma trigger_items_submissions (action : Action Engine) rows items :
  NoDup rows ->
  (trigger_items action rows items).2 = omap (submission_for action items) rows.
Proof.
  unfold trigger_items.
  assert (forall subs, NoDup rows ->
            (fold_left (trigger_item action) rows (items, subs)).2
            = subs ++ omap (submission_for action items) rows) as Hgen;
    [|by intros ?; rewrite Hgen].
  revert items. induction rows as [|r0 rows IH]; intros items subs Hnd; simpl.
  - by rewrite app_nil_r.
  - apply NoDup_cons in Hnd as [Hnot Hnd].
    destruct (trigger_item action (items, subs) r0) as [items1 subs1] eqn:Hturn.
    rewrite IH by done.
    pose proof (trigger_item_submissions action items subs r0) as H2.
    rewrite Hturn in H2. simpl in H2. rewrite H2, <- app_assoc. f_equal.
    rewrite (submission_for_ext action items items1).
    + by destruct (submission_for action items r0).
    + intros r Hr. pose proof (trigger_item_lookup action items subs r0 r) as H1.
      rewrite Hturn in H1. simpl in H1. rewrite H1, decide_False; [done|].
      by intros ->.
Qed.

(** Row by row, the coroutines for the selected items are those for the
    items that are selected and have no action pending. *)
Lemma submission_for_selected_rows (action : Action Engine) items :
  omap (submission_for action items) (selected_rows items) =
  map (fun item => {| submitted_action := action; submitted_info_hash := data item |})
      (filter submittable items).
Proof.
  unfold selected_rows.
  assert (forall pre l,
            omap (submission_for action (pre ++ l))
                 (filter (fun r => selected <$> (pre ++ l) !! r = Some true)
                         (seq (length pre) (length l)))
            = map (fun item => {| submitted_action := action;
                                  submitted_info_hash := data item |})
                  (filter submittable l)) as Hgen;
    [|exact (Hgen [] items)].
  intros pre l. revert pre. induction l as [|x l IH]; intros pre; [done|].
  cbn [length seq]. rewrite !filter_cons.
  specialize (IH (pre ++ [x])). rewrite <- app_assoc, length_app in IH.
  simpl in IH. replace (length pre + 1)%nat with (S (length pre)) in IH by lia.
  rewrite list_lookup_middle by done.
  destruct (decide (selected <$> Some x = Some true)) as [Hs|Hs]; simpl in Hs.
  - injection Hs as Hs. rewrite omap_cons_match.
    unfold submission_for at 1. rewrite list_lookup_middle by done. simpl.
    destruct (waiting_control_action (itemWidget x)) eqn:Hw.
    + rewrite decide_False; [done|]. unfold submittable. rewrite Hw. naive_solver.
    + rewrite decide_True by done. simpl. by rewrite IH.
  - rewrite decide_False; [done|]. unfold submittable. intros [Hsel _].
    by rewrite Hsel in Hs.
Qed.

Lemma selectedItems_Permutation w :
  selectedItems w ≡ₚ selected_rows (_list_widget w).
Proof. apply merge_sort_Permutation. Qed.

Lemma selectedItems_NoDup w : NoDup (selectedItems w).
Proof.
  rewrite selectedItems_Permutation. apply NoDup_filter, NoDup_seq.
Qed.

Lemma elem_of_selectedItems w r :
  r ∈ selectedItems w <-> selected <$> _list_widget w !! r = Some true.
Proof.
  rewrite selectedItems_Permutation. unfold selected_rows.
  rewrite list_elem_of_filter, elem_of_seq. split; [naive_solver|].
  intros Hs. split; [done|].
  destruct (_list_widget w !! r) eqn:Hr; [|done].
  apply lookup_lt_Some in Hr. lia.
Qed.

Lemma trigger_items_length (action : Action Engine) rows items :
  length (trigger_items action rows items).1 = length items.
Proof.
  unfold trigger_items. generalize (@nil (Submission Engine)) as subs.
  revert items. induction rows as [|r0 rows IH]; intros items subs; [done|].
  simpl. destruct (trigger_item action (items, subs) r0) as [items1 subs1] eqn:Hturn.
  rewrite IH. unfold trigger_item in Hturn. simpl in Hturn.
  destruct (items !! r0) as [item|]; [|by injection Hturn as <- _].
  destruct (waiting_control_action (itemWidget item)); injection Hturn as <- _; [done|].
  apply length_alter.
Qed.

(** The loop changes nothing of an item but its pending flag, which it
    sets for the selected items. *)
Lemma trigger_items_same (action : Action Engine) w :
  Forall2 (fun item item' =>
             item_id item' = item_id item /\ data item' = data item /\
             selected item' = selected item /\
             state (itemWidget item') = state (itemWidget item) /\
             waiting_control_action (itemWidget item') =
             selected item || waiting_control_action (itemWidget item))
          (_list_widget w)
          (trigger_items action (selectedItems w) (_list_widget w)).1.
Proof.
  apply Forall2_same_length_lookup_2; [by rewrite trigger_items_length|].
  - intros r item item' Hitem Hitem'.
    rewrite trigger_items_lookup, Hitem in Hitem'.
    destruct (decide (r ∈ selectedItems w)) as [Hin|Hnin].
    + apply elem_of_selectedItems in Hin. rewrite Hitem in Hin.
      injection Hin as Hsel. injection Hitem' as <-. simpl. by rewrite Hsel.
    + injection Hitem' as <-. rewrite elem_of_selectedItems, Hitem in Hnin.
      simpl in Hnin. destruct (selected item); [by destruct Hnin|done].
Qed.

Lemma trigger_items_none_submittable (action : Action Engine) w :
  filter submittable (trigger_items action (selectedItems w) (_list_widget w)).1 = [].
Proof.
  pose proof (trigger_items_same action w) as Hsame.
  induction Hsame as [|item item' items items' (_ & _ & Hs & _ & Hw) _ IH]; [done|].
  rewrite filter_cons, IH. rewrite decide_False; [done|].
  unfold submittable. rewrite Hs, Hw. destruct (selected item); naive_solver.
Qed.

(** The coroutines are submitted in the order of [selectedItems()]. *)
Lemma triggered_in_order (action : Action Engine) w :
  (_control_action_triggered action w).2 =
  omap (submission_for action (_list_widget w)) (selectedItems w).
Proof.
  unfold _control_action_triggered.
  pose proof (trigger_items_submissions action (selectedItems w) (_list_widget w)
                (selectedItems_NoDup w)) as Hs.
  by destruct (trigger_items action (selectedItems w) (_list_widget w)).
Qed.

(** Whatever that order is, they are those for the selected items that
    have no action pending, one for each. *)
Lemma triggered_submissions (action : Action Engine) w :
  (_control_action_triggered action w).2 ≡ₚ
  map (fun item => {| submitted_action := action; submitted_info_hash := data item |})
      (filter submittable (_list_widget w)).
Proof.
  rewrite triggered_in_order, selectedItems_Permutation.
  by rewrite submission_for_selected_rows.
Qed.

Lemma triggered_list (action : Action Engine) w :
  _list_widget (_control_action_triggered action w).1
  = (trigger_items action (selectedItems w) (_list_widget w)).1.
Proof.
  unfold _control_action_triggered.
  by destruct (trigger_items action (selectedItems w) (_list_widget w)).
Qed.

Lemma row_alter id r f (items : list QListWidgetItem) :
  (forall item, item_id (f item) = item_id item) ->
  row id items = Some r -> row id (alter f r items) = Some r.
Proof.
  intros Hf. unfold row.
  destruct (list_find (fun item => item_id item = id) items) as [[r' x]|] eqn:Hfind;
    [|done].
  simpl. intros [= ->].
  apply list_find_Some in Hfind as (Hr & Hx & Hbefore).
  assert (list_find (fun item => item_id item = id) (alter f r items) = Some (r, f x))
    as ->; [|done].
  apply list_find_Some. split; [|split].
  - by rewrite list_lookup_alter, decide_True, Hr.
  - by rewrite Hf.
  - intros j y Hj Hlt. rewrite list_lookup_alter, decide_False in Hj by lia.
    by apply (Hbefore j).
Qed.

(** A state update for a torrent with a widget: the widget shows the new
    state, and its pending flag is cleared when the update changes
    [paused] and kept otherwise. *)
Lemma update_widget_of st w widget :
  widget_of (TorrentModels.info_hash st) w = Some widget ->
  exists w',
    _update_torrent_item st w = Return w' /\
    widget_of (TorrentModels.info_hash st) w' = Some (update_widget st widget).
Proof.
  unfold widget_of, _update_torrent_item.
  destruct (_torrent_to_item w !! TorrentModels.info_hash st) as [id|] eqn:Hid; [|done].
  simpl. destruct (row id (_list_widget w)) as [r|] eqn:Hr; [|done].
  simpl. destruct (_list_widget w !! r) as [item|] eqn:Hitem; [|done].
  simpl. intros [= <-]. eexists. split; [done|].
  simpl. rewrite Hid. simpl.
  rewrite (row_alter id r
             (fun item => set_widget (update_widget st (itemWidget item)) item)
             (_list_widget w) (fun _ => eq_refl) Hr).
  simpl. by rewrite list_lookup_alter, decide_True, Hitem.
Qed.

End Pending.

(** C6, as amended.  [_control_action_triggered] visits the selected items
    in the order of [selectedItems()], which lists each selected item once
    in an order that Qt decides, and submits the action for those that
    have no action pending: whatever the order, the coroutines submitted
    are, up to their order, those for the selected items with no action
    pending, one for each.  When it returns every selected item is marked
    pending, so a second trigger straight after it submits nothing.  A
    state update for a torrent clears the pending flag of its widget when
    the update changes [paused], and leaves the flag as it is otherwise. *)
Theorem pending_flag_protocol {Engine : Type} :
  (forall (action action' : Action Engine) (w : MainWindow),
      selectedItems w ≡ₚ selected_rows (_list_widget w) /\
      (_control_action_triggered action w).2 =
      omap (submission_for action (_list_widget w)) (selectedItems w) /\
      (_control_action_triggered action w).2 ≡ₚ
      map (fun item => {| submitted_action := action; submitted_info_hash := data item |})
          (filter submittable (_list_widget w)) /\
      Forall (fun item => selected item = true ->
                          waiting_control_action (itemWidget item) = true)
             (_list_widget (_control_action_triggered action w).1) /\
      (_control_action_triggered action' (_control_action_triggered action w).1).2 = []) /\
  (forall (st : TorrentState) (w : MainWindow) (widget : TorrentListWidgetItem),
      widget_of (TorrentModels.info_hash st) w = Some widget ->
      exists w' widget',
        _update_torrent_item st w = Return w' /\
        widget_of (TorrentModels.info_hash st) w' = Some widget' /\
        state widget' = st /\
        (TorrentModels.paused (state widget) <> TorrentModels.paused st ->
         waiting_control_action widget' = false) /\
        (TorrentModels.paused (state widget) = TorrentModels.paused st ->
         waiting_control_action widget' = waiting_control_action widget)).
Proof.
  split.
  - intros action action' w.
    split; [apply selectedItems_Permutation|].
    split; [apply triggered_in_order|].
    split; [apply triggered_submissions|]. split.
    + rewrite triggered_list.
      pose proof (trigger_items_same action w) as Hsame.
      induction Hsame as [|item item' items items' (_ & _ & Hs & _ & Hw) _ IH];
        constructor; [|done].
      intros Hsel. rewrite Hw, <- Hs, Hsel. done.
    + apply Permutation_nil_r. rewrite triggered_submissions, triggered_list.
      by rewrite trigger_items_none_submittable.
  - intros st w widget Hw.
    destruct (update_widget_of st w widget Hw) as (w' & Hupd & Hw').
    exists w', (update_widget st widget). split; [done|]. split; [done|].
    split; [done|]. unfold update_widget. simpl. split; intros Hp.
    + by rewrite bool_decide_eq_true_2.
    + by rewrite bool_decide_eq_false_2 by (by intros ?).
Qed.

(** The same two items are selected in both windows; the coroutines are
    submitted in the order in which the selection model lists the
    items. *)
Lemma submissions_follow_selection_model :
  data <$> _list_widget three_torrents = ["h3"; "h1"; "h2"] /\
  selected <$> _list_widget last_then_first = selected <$> _list_widget first_then_last /\
  submitted_info_hash <$> (_control_action_triggered plain_action last_then_first).2
  = ["h2"; "h3"] /\
  submitted_info_hash <$> (_control_action_triggered plain_action first_then_last).2
  = ["h3"; "h2"].
Proof. by vm_compute. Qed.

(** *** The order of the selection *)

Section SelectionModel.

Lemma StronglySorted_lookup_2 {A} (R : relation A) (l : list A) :
  (forall i j x y, l !! i = Some x -> l !! j = Some y -> (i < j)%nat -> R x y) ->
  StronglySorted R l.
Proof.
  induction l as [|a l IH]; intros Hl; constructor.
  - apply IH. intros i j x y Hi Hj Hlt. apply (Hl (S i) (S j)); [done|done|lia].
  - apply Forall_lookup. intros j y Hj. apply (Hl 0%nat (S j)); [done|done|lia].
Qed.

Global Instance selected_before_trans w : Transitive (selected_before w).
Proof. unfold selected_before. intros a b c. lia. Qed.

Global Instance selected_before_total w : Total (selected_before w).
Proof. unfold selected_before. intros a b. lia. Qed.

Lemma selectedItems_sorted w : StronglySorted (selected_before w) (selectedItems w).
Proof. apply StronglySorted_merge_sort; apply _. Qed.

Variable w : MainWindow.
Variable rows : list nat.
Hypothesis ids_distinct : NoDup (item_id <$> _list_widget w).
Hypothesis rows_selected : rows ≡ₚ selected_rows (_list_widget w).

Lemma rows_NoDup : NoDup rows.
Proof. rewrite rows_selected. apply NoDup_filter, NoDup_seq. Qed.

Lemma rows_in_range r : r ∈ rows -> is_Some (_list_widget w !! r).
Proof.
  rewrite rows_selected. unfold selected_rows. rewrite list_elem_of_filter.
  intros [Hs _]. by destruct (_list_widget w !! r).
Qed.

Lemma selection_rank_listed i r :
  rows !! i = Some r ->
  selection_rank (with_selection_order (item_id_at (_list_widget w) <$> rows) w) r = i.
Proof.
  intros Hi. unfold selection_rank. cbn [_list_widget selection_order with_selection_order].
  destruct (rows_in_range r) as [item Hitem]; [by eapply list_elem_of_lookup_2|].
  rewrite Hitem.
  assert (list_find (fun id => id = item_id item) (item_id_at (_list_widget w) <$> rows)
          = Some (i, item_id item)) as ->; [|done].
  apply list_find_Some. split; [|split; [done|]].
  - rewrite list_lookup_fmap, Hi. simpl. unfold item_id_at. by rewrite Hitem.
  - intros j y Hj Hlt Hy. rewrite list_lookup_fmap in Hj.
    destruct (rows !! j) as [r'|] eqn:Hr'; [|done]. simpl in Hj. injection Hj as <-.
    destruct (rows_in_range r') as [item' Hitem']; [by eapply list_elem_of_lookup_2|].
    unfold item_id_at in Hy. rewrite Hitem' in Hy. simpl in Hy.
    assert (r' = r) as ->.
    { eapply NoDup_lookup; [exact ids_distinct| |].
      - by rewrite list_lookup_fmap, Hitem'.
      - rewrite list_lookup_fmap, Hitem. simpl. by rewrite Hy. }
    assert (j = i) by (eapply NoDup_lookup; [exact rows_NoDup|done|done]). lia.
Qed.

(** Every order of the selected items is the order of a selection model:
    the one that lists them in that order. *)
Lemma selectedItems_with_selection_order :
  selectedItems (with_selection_order (item_id_at (_list_widget w) <$> rows) w) = rows.
Proof.
  set (w' := with_selection_order (item_id_at (_list_widget w) <$> rows) w).
  pose proof (selectedItems_Permutation w') as Hperm.
  change (_list_widget w') with (_list_widget w) in Hperm.
  apply (StronglySorted_unique_strong (selected_before w')).
  - intros r1 r2 Hr1 Hr2 H12 H21.
    assert (r1 ∈ rows) as Hin1.
    { by rewrite rows_selected, <- Hperm. }
    apply list_elem_of_lookup in Hin1 as [i1 Hi1].
    apply list_elem_of_lookup in Hr2 as [i2 Hi2].
    unfold selected_before in H12, H21. unfold w' in H12, H21.
    rewrite (selection_rank_listed i1 r1 Hi1), (selection_rank_listed i2 r2 Hi2)
      in H12, H21.
    assert (i1 = i2) as -> by lia. congruence.
  - apply selectedItems_sorted.
  - apply StronglySorted_lookup_2. intros i j x y Hi Hj Hlt.
    unfold selected_before, w'.
    rewrite (selection_rank_listed i x Hi), (selection_rank_listed j y Hj). lia.
  - by rewrite Hperm, rows_selected.
Qed.

End SelectionModel.

Lemma ubuntu_selected_widget :
  widget_of (TorrentModels.info_hash ubuntu_paused)
            (_control_action_triggered plain_action ubuntu_selected).1
  = Some {| state := ubuntu_1; waiting_control_action := true |}.
Proof. by vm_compute. Defined.

Lemma pending_flag_protocol_witness :
  widget_of (TorrentModels.info_hash ubuntu_paused)
            (_control_action_triggered plain_action ubuntu_selected).1
  = Some {| state := ubuntu_1; waiting_control_action := true |} /\
  exists w' widget',
    _update_torrent_item ubuntu_paused
      (_control_action_triggered plain_action ubuntu_selected).1 = Return w' /\
    widget_of (TorrentModels.info_hash ubuntu_paused) w' = Some widget' /\
    state widget' = ubuntu_paused /\
    (TorrentModels.paused ubuntu_1 <> TorrentModels.paused ubuntu_paused ->
     waiting_control_action widget' = false) /\
    (TorrentModels.paused ubuntu_1 = TorrentModels.paused ubuntu_paused ->
     waiting_control_action widget' = true).
Proof.
  split; [exact ubuntu_selected_widget|].
  exact (proj2 (pending_flag_protocol (Engine:=unit)) ubuntu_paused
               (_control_action_triggered plain_action ubuntu_selected).1
               {| state := ubuntu_1; waiting_control_action := true |}
               ubuntu_selected_widget).
Defined.

(** C6, as stated, fails for a state update that leaves [paused] as it
    was: after an action was submitted for the selected torrent, the next
    state update from the engine (a progress report) finds the flag set
    and leaves it set. *)
Lemma pending_flag_survives_update :
  waiting_control_action <$>
    widget_of "h1" (_control_action_triggered plain_action ubuntu_selected).1
  = Some true /\
  exists w',
    _update_torrent_item ubuntu_progress
      (_control_action_triggered plain_action ubuntu_selected).1 = Return w' /\
    waiting_control_action <$> widget_of "h1" w' = Some true.
Proof. split; [by vm_compute|]. eexists. split; [reflexivity|]. by vm_compute. Qed.

(** ** Failures of control actions *)

Section DispatcherFailures.

Context {Engine : Type}.

Lemma invoke_ValueError (action : Action Engine) h engine e engine' :
  is_ValueError e = true ->
  action_raises action h engine e engine' ->
  _invoke_control_action action h engine = (Return (), engine').
Proof.
  unfold _invoke_control_action.
  intros He [->|(body & engine1 & -> & ->)]; cbv zeta; by rewrite He.
Qed.

Lemma invoke_other_exception (action : Action Engine) h engine e engine' :
  is_ValueError e = false ->
  action_raises action h engine e engine' ->
  _invoke_control_action action h engine = (Raise e, engine').
Proof.
  unfold _invoke_control_action.
  intros He [->|(body & engine1 & -> & ->)]; cbv zeta; by rewrite He.
Qed.

(** Nothing that [_control_action_triggered] does shows an error box. *)
Lemma critical_boxes_control_action_round (action : Action Engine) w engine :
  critical_boxes (control_action_round action w engine).1.1 = critical_boxes w.
Proof.
  unfold control_action_round, _control_action_triggered.
  destruct (trigger_items action (selectedItems w) (_list_widget w))
    as [items submissions].
  by destruct (loop_run submissions engine).
Qed.

End DispatcherFailures.

(** C5, as amended.  When the loop runs a submitted action, an exception
    raised by the action (by the call or by the coroutine it returns) that
    is a [ValueError], of that class or of one derived from it, is
    swallowed: the dispatcher coroutine returns normally.  Any other
    exception leaves the dispatcher coroutine and ends in the future of the
    submission.  In both cases no error box is shown: the window keeps no
    reference to the future. *)
Theorem control_action_failures {Engine : Type} :
  (forall (action : Action Engine) h engine e engine',
      isinstance e "ValueError" = true ->
      action_raises action h engine e engine' ->
      _invoke_control_action action h engine = (Return (), engine')) /\
  (forall (action : Action Engine) h engine e engine',
      isinstance e "ValueError" = false ->
      action_raises action h engine e engine' ->
      _invoke_control_action action h engine = (Raise e, engine')) /\
  (forall (action : Action Engine) w engine,
      critical_boxes (control_action_round action w engine).1.1 = critical_boxes w).
Proof.
  split; [|split].
  - apply @invoke_ValueError.
  - apply @invoke_other_exception.
  - apply @critical_boxes_control_action_round.
Qed.

Lemma refused_action_raises :
  action_raises refused_action "h1" ()
                (ValueError "The torrent is already paused") ().
Proof. left. reflexivity. Defined.

Lemma undecodable_action_raises :
  action_raises undecodable_action "h1" ()
                (OtherException "UnicodeDecodeError" [] "invalid start byte") ().
Proof. left. reflexivity. Defined.

Lemma control_action_failures_witness :
  (action_raises refused_action "h1" ()
                 (ValueError "The torrent is already paused") () /\
   _invoke_control_action refused_action "h1" () = (Return (), ())) /\
  (action_raises undecodable_action "h1" ()
                 (OtherException "UnicodeDecodeError" [] "invalid start byte") () /\
   _invoke_control_action undecodable_action "h1" () = (Return (), ())).
Proof.
  split; split.
  - exact refused_action_raises.
  - exact (proj1 (control_action_failures (Engine:=unit)) refused_action "h1" ()
                 (ValueError "The torrent is already paused") ()
                 eq_refl refused_action_raises).
  - exact undecodable_action_raises.
  - exact (proj1 (control_action_failures (Engine:=unit)) undecodable_action "h1" ()
                 (OtherException "UnicodeDecodeError" [] "invalid start byte") ()
                 eq_refl undecodable_action_raises).
Defined.

(** C5, as stated, fails for a failure other than [ValueError]: the action
    submitted for the selected torrent raises [RuntimeError]; the
    exception is in the future, and the window shows no error box. *)
Lemma other_failure_not_surfaced :
  (control_action_round failing_action ubuntu_selected ()).2
  = [Raise (RuntimeError "boom")] /\
  critical_boxes (control_action_round failing_action ubuntu_selected ()).1.1 = [].
Proof. split; reflexivity. Qed.

(** ** Two calls of [stop()] *)

Module StopTwice.
Import ControlManagerThread.

Ltac by_evaluation := apply (bool_decide_unpack _); vm_compute; exact I.

Lemma in_flight_reached : in_flight ∈ reached.
Proof. by_evaluation. Qed.

(** [reached] is closed under the turns of all threads. *)
Lemma reached_closed :
  Forall (fun s => Forall (fun t => turn s t ∈ reached) threads) reached.
Proof. by_evaluation. Qed.

Lemma reached_safe : Forall safe reached.
Proof. by_evaluation. Qed.

Lemma turn_reached s t : s ∈ reached -> turn s t ∈ reached.
Proof.
  intros Hs. pose proof (proj1 (Forall_forall _ _) reached_closed s Hs) as Ht.
  apply (proj1 (Forall_forall _ _) Ht). unfold threads.
  rewrite !elem_of_cons. destruct t; auto.
Qed.

Lemma run_reached schedule : forall s, s ∈ reached -> run schedule s ∈ reached.
Proof.
  induction schedule as [|t schedule IH]; intros s Hs; [done|].
  simpl. by apply IH, turn_reached.
Qed.

Lemma run_safe schedule : safe (run schedule in_flight).
Proof.
  apply (proj1 (Forall_forall _ _) reached_safe), run_reached, in_flight_reached.
Qed.

End StopTwice.

(** C3, as amended.  Once a first call of [stop()] has set [_stopping], on
    every schedule of the two callers and the loop thread: a second call
    returns at its first statement and changes nothing; the shutdown
    sequence runs at most once, and exactly once by the time the thread
    has exited; and the first caller returns only after the thread has
    exited.  There is a schedule on which the thread exits after one
    shutdown and both callers have returned. *)
Theorem second_stop_returns_at_once :
  (forall schedule : list ControlManagerThread.Thread,
      let s := ControlManagerThread.run schedule ControlManagerThread.in_flight in
      ControlManagerThread.turn s ControlManagerThread.Second
      = ControlManagerThread.set_caller ControlManagerThread.Second
                                        ControlManagerThread.Returned s /\
      (ControlManagerThread.shutdowns s <= 1)%nat /\
      (ControlManagerThread.phase s = ControlManagerThread.Finished ->
       ControlManagerThread.shutdowns s = 1%nat) /\
      (ControlManagerThread.first_caller s = ControlManagerThread.Returned ->
       ControlManagerThread.phase s = ControlManagerThread.Finished)) /\
  (let s := ControlManagerThread.run ControlManagerThread.fair_schedule
                                     ControlManagerThread.in_flight in
   ControlManagerThread.first_caller s = ControlManagerThread.Returned /\
   ControlManagerThread.second_caller s = ControlManagerThread.Returned /\
   ControlManagerThread.phase s = ControlManagerThread.Finished /\
   ControlManagerThread.shutdowns s = 1%nat).
Proof.
  split.
  - intros schedule. exact (StopTwice.run_safe schedule).
  - by vm_compute.
Qed.

Lemma fair_schedule_finishes :
  ControlManagerThread.phase
    (ControlManagerThread.run ControlManagerThread.fair_schedule ControlManagerThread.in_flight)
  = ControlManagerThread.Finished.
Proof. reflexivity. Defined.

Lemma second_stop_returns_at_once_witness :
  ControlManagerThread.phase
    (ControlManagerThread.run ControlManagerThread.fair_schedule ControlManagerThread.in_flight)
  = ControlManagerThread.Finished /\
  ControlManagerThread.shutdowns
    (ControlManagerThread.run ControlManagerThread.fair_schedule ControlManagerThread.in_flight)
  = 1%nat.
Proof.
  split; [exact fair_schedule_finishes|].
  exact (proj1 (proj2 (proj2 (proj1 second_stop_returns_at_once ControlManagerThread.fair_schedule)))
               fair_schedule_finishes).
Defined.

(** C3, as stated, fails for the second caller: called while the stop is in
    flight, it has returned although the dedicated thread is still
    running. *)
Lemma second_stop_returns_before_exit :
  ControlManagerThread.second_caller
    (ControlManagerThread.run [ControlManagerThread.Second] ControlManagerThread.in_flight)
  = ControlManagerThread.Returned /\
  ControlManagerThread.phase
    (ControlManagerThread.run [ControlManagerThread.Second] ControlManagerThread.in_flight)
  = ControlManagerThread.Running.
Proof. split; reflexivity. Qed.

(** ** Starting a second process *)

(** C2.  What [main] does when it is given a file name and the probe
    connects to a running instance: [find_another_daemon] sends the names
    and returns [True], but [main] has shown its window and started its own
    control thread before the probe, drops the result of the probe, and
    goes on into [app.exec_()]; the exit code is the one of the
    application, not 0 on forwarding.  The trace differs from the one
    without a running instance only by the probe's own effects. *)
Theorem main_hosts_after_forwarding :
  Main.find_another_daemon ["a.torrent"] instance_running
  = (Return true, [Main.client_connected; Main.client_executed ["a.torrent"]]) /\
  Main.main false ["a.torrent"] instance_running
  = [Main.QApplication_created; Main.ControlManagerThread_created;
     Main.MainWindow_shown; Main.control_thread_started;
     Main.lastWindowClosed_connected;
     Main.client_connected; Main.client_executed ["a.torrent"];
     Main.app_exec; Main.sys_exit 0] /\
  Main.main false ["a.torrent"] no_instance
  = [Main.QApplication_created; Main.ControlManagerThread_created;
     Main.MainWindow_shown; Main.control_thread_started;
     Main.lastWindowClosed_connected;
     Main.app_exec; Main.sys_exit 0].
Proof. repeat split. Qed.

(** Whatever the probe meets, the window is shown and the control thread
    is started before it. *)
Lemma main_always_hosts debug filenames env :
  exists rest,
    Main.main debug filenames env =
    [Main.QApplication_created; Main.ControlManagerThread_created;
     Main.MainWindow_shown; Main.control_thread_started;
     Main.lastWindowClosed_connected] ++ rest.
Proof.
  unfold Main.main. destruct filenames as [|f fs]; [by eexists|].
  destruct (Main.find_another_daemon (f :: fs) env) as [[b|e] effects]; by eexists.
Qed.

(** ** More on clicks: forcing, frame, shape, composition *)

Section ClickLaws.

(** The slot leaves at the clicked place the clicked item with its
    descendants forced to its state. *)
Lemma item_at_walk p : forall item it,
  item_at p item = Some it ->
  item_at p (update_checkboxes_walk p item)
  = Some (_set_check_state_to_tree it (checkState it)).
Proof.
  induction p as [|i p IH]; intros item it Hp.
  - simpl in *. by injection Hp as ->.
  - simpl in *. destruct (children item !! i) as [child|] eqn:Hi; [|done].
    destruct item as [s t ic kids]. simpl in *.
    rewrite list_lookup_insert_eq by (by eapply lookup_lt_Some). by apply IH.
Qed.

Lemma set_tree_own_state_uniform it :
  uniform (checkState it) (_set_check_state_to_tree it (checkState it)).
Proof.
  pose proof (set_check_state_to_tree_uniform it (checkState it)) as Hu.
  destruct it as [s t ic kids]. simpl in *. by constructor.
Qed.

Lemma item_at_set_state_at_here p : forall st item it,
  item_at p item = Some it ->
  item_at p (set_state_at p st item) = Some (setCheckState st it).
Proof.
  induction p as [|i p IH]; intros st item it Hp.
  - simpl in *. by injection Hp as ->.
  - simpl in *. destruct (children item !! i) as [child|] eqn:Hi; [|done].
    destruct item as [s t ic kids]. simpl in *.
    rewrite list_lookup_insert_eq by (by eapply lookup_lt_Some). by apply IH.
Qed.

(** Below a child other than the one on the path nothing is written. *)
Lemma item_at_walk_diverge r : forall i j p' q' item,
  i <> j ->
  item_at (r ++ j :: q') (update_checkboxes_walk (r ++ i :: p') item)
  = item_at (r ++ j :: q') item.
Proof.
  induction r as [|k r IH]; intros i j p' q' item Hne.
  - simpl. destruct (children item !! i) as [child|] eqn:Hi; [|done].
    destruct item as [s t ic kids]. simpl in *.
    by rewrite list_lookup_insert_ne.
  - simpl. destruct (children item !! k) as [child|] eqn:Hk; [|by rewrite ?Hk].
    destruct item as [s t ic kids]. simpl in *.
    rewrite list_lookup_insert_eq by (by eapply lookup_lt_Some).
    rewrite ?Hk. by apply IH.
Qed.

Lemma item_at_set_state_at_diverge r : forall i j p' q' st item,
  i <> j ->
  item_at (r ++ j :: q') (set_state_at (r ++ i :: p') st item)
  = item_at (r ++ j :: q') item.
Proof.
  induction r as [|k r IH]; intros i j p' q' st item Hne.
  - simpl. destruct (children item !! i) as [child|] eqn:Hi; [|done].
    destruct item as [s t ic kids]. simpl in *.
    by rewrite list_lookup_insert_ne.
  - simpl. destruct (children item !! k) as [child|] eqn:Hk; [|by rewrite ?Hk].
    destruct item as [s t ic kids]. simpl in *.
    rewrite list_lookup_insert_eq by (by eapply lookup_lt_Some).
    rewrite ?Hk. by apply IH.
Qed.

(** Forcing the state that all children already have changes nothing. *)
Lemma set_tree_children_uniform st item :
  Forall (uniform st) (children item) -> _set_check_state_to_tree item st = item.
Proof.
  intros Hu. destruct item as [s t ic kids]. simpl in *. f_equal.
  rewrite <- (map_id kids) at 2. apply map_ext_Forall.
  eapply Forall_impl; [exact Hu|]. intros k Hk. by apply set_tree_uniform.
Qed.

Lemma set_tree_idempotent st item :
  _set_check_state_to_tree (_set_check_state_to_tree item st) st
  = _set_check_state_to_tree item st.
Proof. apply set_tree_children_uniform, set_check_state_to_tree_uniform. Qed.

(** The slot run twice on one item is the slot run once. *)
Lemma walk_idempotent p : forall item,
  update_checkboxes_walk p (update_checkboxes_walk p item) = update_checkboxes_walk p item.
Proof.
  induction p as [|i p IH]; intros item.
  - simpl. rewrite checkState_set_check_state_to_tree. apply set_tree_idempotent.
  - simpl. destruct (children item !! i) as [child|] eqn:Hi; [|by rewrite Hi].
    destruct item as [s t ic kids]. simpl in *.
    rewrite list_lookup_insert_eq by (by eapply lookup_lt_Some).
    by rewrite IH, list_insert_insert_eq.
Qed.

Lemma toggle_walk_no_child i p st item :
  children item !! i = None -> toggle_walk (i :: p) st item = item.
Proof.
  intros Hi. unfold toggle_walk. cbn [set_state_at]. rewrite Hi.
  cbn [update_checkboxes_walk]. by rewrite Hi.
Qed.

(** Two toggles of one box in a row: the second decides. *)
Lemma toggle_walk_last p : forall st1 st2 item,
  toggle_walk p st2 (toggle_walk p st1 item) = toggle_walk p st2 item.
Proof.
  induction p as [|i p IH]; intros st1 st2 item.
  - by rewrite !toggle_walk_here, set_tree_twice, setCheckState_twice.
  - destruct (children item !! i) as [child|] eqn:Hi.
    + rewrite (toggle_walk_cons' i p st1 item child Hi).
      destruct item as [s t ic kids]. simpl in Hi.
      assert (i < length kids)%nat as Hlt by (by eapply lookup_lt_Some).
      cbn [children].
      rewrite (toggle_walk_cons' i p st2 _ (toggle_walk p st1 child));
        [|cbn [children setCheckState with_children]; by apply list_lookup_insert_eq].
      rewrite (toggle_walk_cons' i p st2 (TreeItem s t ic kids) child Hi).
      cbn [children setCheckState with_children text icon checkState].
      by rewrite list_insert_insert_eq, IH.
    + by rewrite !(toggle_walk_no_child i p _ item Hi).
Qed.

Lemma uniform_leaves_in_state st item : uniform st item -> leaves_in_state st item.
Proof.
  induction item as [s t i kids IH] using item_ind'.
  inversion 1 as [t' i' kids' Hkids]; subst. constructor; [done|].
  rewrite Forall_forall in *. auto.
Qed.

Lemma clicks_app d cs1 cs2 : clicks d (cs1 ++ cs2) = clicks (clicks d cs1) cs2.
Proof. apply fold_left_app. Qed.

End ClickLaws.

Section ClickTheorems.

Lemma update_selection_label_ext d1 d2 :
  file_tree d1 = file_tree d2 -> _file_items d1 = _file_items d2 ->
  _update_selection_label d1 = _update_selection_label d2.
Proof.
  intros Ht Hf. unfold _update_selection_label. rewrite Ht, Hf.
  destruct (selected_leaves _ _) as [n z]. by case_decide.
Qed.

Lemma with_file_tree_same d : with_file_tree (file_tree d) d = d.
Proof. by destruct d. Qed.

Lemma click_toggle_valid p st d :
  is_Some (item_at p (file_tree d)) ->
  click d (ToggleBox p st)
  = _update_selection_label (with_file_tree (toggle_walk p st (file_tree d)) d).
Proof.
  intros Hp. simpl. unfold _update_checkboxes. rewrite decide_False by (by intros ?).
  simpl. destruct (proj2 (item_at_set_state_at p st (file_tree d)) Hp) as [it ->].
  by apply update_selection_label_ext.
Qed.

Lemma click_toggle_invalid p st d :
  item_at p (file_tree d) = None -> click d (ToggleBox p st) = d.
Proof.
  intros Hp. simpl. unfold _update_checkboxes. rewrite decide_False by (by intros ?).
  simpl. rewrite set_state_at_invalid by done. rewrite Hp. apply with_file_tree_same.
Qed.

Lemma update_checkboxes_valid p d :
  is_Some (item_at p (file_tree d)) ->
  _update_checkboxes p 0 d
  = _update_selection_label (with_file_tree (update_checkboxes_walk p (file_tree d)) d).
Proof.
  intros [it Hp]. unfold _update_checkboxes. rewrite decide_False by (by intros ?).
  by rewrite Hp.
Qed.

Lemma update_checkboxes_invalid p d :
  item_at p (file_tree d) = None -> _update_checkboxes p 0 d = d.
Proof.
  intros Hp. unfold _update_checkboxes. rewrite decide_False by (by intros ?).
  by rewrite Hp.
Qed.

Lemma selection_label_after d :
  _selection_label (_update_selection_label d) =
  (if decide ((selected_leaves (file_tree d) (_file_items d)).1 = 0%nat)
   then NothingToDownload
   else Selected (selected_leaves (file_tree d) (_file_items d)).1
                 (selected_leaves (file_tree d) (_file_items d)).2) /\
  ok_button_enabled (_update_selection_label d) =
  negb (bool_decide ((selected_leaves (file_tree d) (_file_items d)).1 = 0%nat)).
Proof.
  unfold _update_selection_label.
  destruct (selected_leaves _ _) as [n z]. simpl.
  case_decide; simpl; [by rewrite bool_decide_eq_true_2|by rewrite bool_decide_eq_false_2].
Qed.

Lemma checked_file_paths_fold tree items : forall acc n z,
  length acc = n ->
  length (fold_left
            (fun file_paths fi =>
               match item_at (snd fi) tree with
               | Some item =>
                   if decide (checkState item = Checked)
                   then file_paths ++ [Models.path (fst fi)]
                   else file_paths
               | None => file_paths
               end) items acc)
  = (fold_left (count_selected tree) items (n, z)).1.
Proof.
  induction items as [|fi items IH]; intros acc n z Hn; [done|].
  cbn [fold_left]. unfold count_selected at 2.
  destruct (item_at fi.2 tree) as [item|]; [|by apply IH].
  case_decide; [|by apply IH].
  apply IH. rewrite length_app. simpl. lia.
Qed.

Lemma checked_file_paths_all tree items : forall acc,
  Forall (fun fi => exists it, item_at (snd fi) tree = Some it /\
                               checkState it = Checked) items ->
  fold_left
    (fun file_paths fi =>
       match item_at (snd fi) tree with
       | Some item =>
           if decide (checkState item = Checked)
           then file_paths ++ [Models.path (fst fi)]
           else file_paths
       | None => file_paths
       end) items acc
  = acc ++ map Models.path items.*1.
Proof.
  induction items as [|fi items IH]; intros acc Hall.
  - simpl. by rewrite app_nil_r.
  - apply Forall_cons in Hall as [(it & Hit & Hst) Hall].
    cbn [fold_left]. rewrite Hit, decide_True by done. rewrite IH by done.
    rewrite fmap_cons. simpl. by rewrite <- app_assoc.
Qed.

End ClickTheorems.

(** X1.  When the slot has run for a toggled box, the item and all its
    descendants are in the state written on it; when it has run for a
    click on the row of an item (column 0), the item and all its
    descendants are in the state the item had, also when that state is
    partially checked. *)
Theorem clicked_subtree_forced (d : TorrentAddingDialog) (p : list nat)
    (it : QTreeWidgetItem) (st : CheckState) :
  item_at p (file_tree d) = Some it ->
  (exists it', item_at p (file_tree (click d (ToggleBox p st))) = Some it' /\
               uniform st it') /\
  (exists it', item_at p (file_tree (click d (ClickRow p 0))) = Some it' /\
               uniform (checkState it) it').
Proof.
  intros Hp. split.
  - rewrite click_toggle_valid by (by rewrite Hp).
    rewrite file_tree_update_selection_label. simpl. unfold toggle_walk.
    rewrite (item_at_walk p _ _ (item_at_set_state_at_here p st _ _ Hp)).
    eexists. split; [done|]. apply (set_tree_own_state_uniform (setCheckState st it)).
  - simpl. rewrite file_tree_update_checkboxes. rewrite decide_False by (by intros ?).
    rewrite Hp, (item_at_walk p _ _ Hp).
    eexists. split; [done|]. apply set_tree_own_state_uniform.
Qed.

Lemma clicked_subtree_forced_witness :
  item_at [1%nat] (file_tree example_cleared)
  = Some (TreeItem Unchecked "dir" directory_icon
            [TreeItem Unchecked "b.txt" file_icon []; TreeItem Unchecked "c.txt" file_icon []]) /\
  exists it', item_at [1%nat] (file_tree (click example_cleared (ToggleBox [1%nat] Checked)))
              = Some it' /\ uniform Checked it'.
Proof.
  split; [reflexivity|].
  exact (proj1 (clicked_subtree_forced example_cleared [1%nat] _ Checked eq_refl)).
Defined.

(** X2.  A click writes nothing beside the path of the clicked item: an
    item whose path leaves that path into another child is the same
    before and after, with all below it. *)
Theorem click_leaves_other_branches (d : TorrentAddingDialog) (c : Click) (q : list nat) :
  diverge (click_path c) q ->
  item_at q (file_tree (click d c)) = item_at q (file_tree d).
Proof.
  intros (r & i & j & p' & q' & Hne & Hp & ->).
  destruct c as [p st|p column]; simpl in Hp; subst p; simpl;
    rewrite file_tree_update_checkboxes; simpl.
  - destruct (item_at _ (set_state_at _ st (file_tree d)));
      by rewrite ?item_at_walk_diverge, item_at_set_state_at_diverge.
  - case_decide; [done|].
    destruct (item_at (r ++ i :: p') (file_tree d)); by rewrite ?item_at_walk_diverge.
Qed.

Lemma diverge_dir_a_txt : diverge (click_path (ToggleBox [1%nat] Checked)) [0%nat].
Proof. exists [], 1%nat, 0%nat, [], []. by repeat split. Defined.

Lemma click_leaves_other_branches_witness :
  diverge (click_path (ToggleBox [1%nat] Checked)) [0%nat] /\
  item_at [0%nat] (file_tree (click example_cleared (ToggleBox [1%nat] Checked)))
  = item_at [0%nat] (file_tree example_cleared).
Proof.
  split; [exact diverge_dir_a_txt|].
  exact (click_leaves_other_branches example_cleared (ToggleBox [1%nat] Checked) [0%nat]
           diverge_dir_a_txt).
Defined.

(** X3.  No sequence of clicks changes the items of the tree, their
    texts, their icons or their order, nor the recorded file items: only
    check states are written. *)
Theorem clicks_write_only_states (d : TorrentAddingDialog) (cs : list Click) :
  shape (file_tree (clicks d cs)) = shape (file_tree d) /\
  _file_items (clicks d cs) = _file_items d.
Proof. split; [apply shape_clicks | apply file_items_clicks]. Qed.

(** X4.  In a dialog reached by any clicks, clearing the box of the root
    leaves nothing selected: the label says so and the OK button is
    disabled.  Setting the box of the root selects every file: the label
    shows their number and total length and the OK button is enabled,
    unless the torrent has no file. *)
Theorem root_toggle_selects_all_or_nothing (info : Models.DownloadInfo) (cs : list Click) :
  let d := clicks (TorrentAddingDialog_init info) cs in
  (_selection_label (click d (ToggleBox [] Unchecked)) = NothingToDownload /\
   ok_button_enabled (click d (ToggleBox [] Unchecked)) = false) /\
  (_selection_label (click d (ToggleBox [] Checked)) =
     (if decide (length (leaves (Models.file_tree info)) = 0%nat)
      then NothingToDownload
      else Selected (length (leaves (Models.file_tree info)))
                    (total_length (leaves (Models.file_tree info)))) /\
   ok_button_enabled (click d (ToggleBox [] Checked)) =
     negb (bool_decide (length (leaves (Models.file_tree info)) = 0%nat))).
Proof.
  intros d.
  assert (forall st, click d (ToggleBox [] st)
                     = clicks (TorrentAddingDialog_init info) (cs ++ [ToggleBox [] st]))
    as Hreach.
  { intros st. by rewrite clicks_app. }
  assert (forall st, click d (ToggleBox [] st)
                     = _update_selection_label
                         (with_file_tree (toggle_walk [] st (file_tree d)) d)) as Hclick.
  { intros st. by apply click_toggle_valid. }
  assert (forall st, file_tree (click d (ToggleBox [] st)) = toggle_walk [] st (file_tree d))
    as Htree.
  { intros st. by rewrite Hclick, file_tree_update_selection_label. }
  assert (forall st, leaves_in_state st (toggle_walk [] st (file_tree d))) as Hall.
  { intros st. apply uniform_leaves_in_state. rewrite toggle_walk_here.
    pose proof (set_tree_own_state_uniform (setCheckState st (file_tree d))) as Hu.
    by destruct (file_tree d). }
  assert ((_file_items d).*1 = leaves (Models.file_tree info)) as Hitems.
  { unfold d. rewrite file_items_clicks. apply traverse_file_items_fst. }
  assert (length (_file_items d) = length (leaves (Models.file_tree info))) as Hlen.
  { by rewrite <- Hitems, length_fmap. }
  assert (forall st,
             Forall (fun fi => exists it,
                         item_at fi.2 (toggle_walk [] st (file_tree d)) = Some it /\
                         checkState it = st) (_file_items d)) as Hf.
  { intros st. pose proof (Hall st) as Hl. rewrite <- Htree, Hreach in Hl.
    pose proof (file_items_in_state st info _ Hl) as Hf. cbv zeta in Hf.
    rewrite <- Hreach in Hf. rewrite Htree in Hf.
    by rewrite (file_items_click d (ToggleBox [] st)) in Hf. }
  split.
  - pose proof (selection_label_after
                  (with_file_tree (toggle_walk [] Unchecked (file_tree d)) d)) as [Hlab Hok].
    simpl in Hlab, Hok.
    rewrite selected_leaves_fold, (count_none_checked _ _ _ (Hf Unchecked)) in Hlab, Hok.
    by rewrite Hclick.
  - pose proof (selection_label_after
                  (with_file_tree (toggle_walk [] Checked (file_tree d)) d)) as [Hlab Hok].
    simpl in Hlab, Hok.
    rewrite selected_leaves_fold, (count_all_checked _ _ _ (Hf Checked)) in Hlab, Hok.
    cbn [fst snd] in Hlab, Hok.
    rewrite Hitems, Hlen, Nat.add_0_l, ?Z.add_0_l in Hlab.
    rewrite Hlen, Nat.add_0_l in Hok.
    by rewrite Hclick.
Qed.

(** X5.  Two toggles of one box in a row leave the dialog as the second
    toggle alone does: tree, label and OK button.  So toggling a box to the
    state it was just given changes nothing, and unchecking after checking
    is unchecking. *)
Theorem last_toggle_decides (d : TorrentAddingDialog) (p : list nat) (st1 st2 : CheckState) :
  clicks d [ToggleBox p st1; ToggleBox p st2] = click d (ToggleBox p st2).
Proof.
  change (clicks d [ToggleBox p st1; ToggleBox p st2])
    with (click (click d (ToggleBox p st1)) (ToggleBox p st2)).
  destruct (item_at p (file_tree d)) as [it|] eqn:Hp.
  - assert (is_Some (item_at p (file_tree d))) as Hv by (by rewrite Hp).
    rewrite (click_toggle_valid p st1 d Hv).
    rewrite (click_toggle_valid p st2 d Hv).
    rewrite click_toggle_valid.
    + apply update_selection_label_ext.
      * simpl. rewrite file_tree_update_selection_label. simpl. apply toggle_walk_last.
      * simpl. by rewrite file_items_update_selection_label.
    + rewrite file_tree_update_selection_label. simpl. by apply item_at_toggle_walk.
  - by rewrite !(click_toggle_invalid p _ d Hp).
Qed.

(** X6.  A second click on the row of an item, straight after the first,
    changes nothing. *)
Theorem row_click_twice (d : TorrentAddingDialog) (p : list nat) :
  clicks d [ClickRow p 0; ClickRow p 0] = click d (ClickRow p 0).
Proof.
  change (clicks d [ClickRow p 0; ClickRow p 0])
    with (_update_checkboxes p 0 (_update_checkboxes p 0 d)).
  change (click d (ClickRow p 0)) with (_update_checkboxes p 0 d).
  destruct (item_at p (file_tree d)) as [it|] eqn:Hp.
  - assert (is_Some (item_at p (file_tree d))) as Hv by (by rewrite Hp).
    rewrite (update_checkboxes_valid p d Hv).
    rewrite update_checkboxes_valid.
    + apply update_selection_label_ext.
      * simpl. rewrite file_tree_update_selection_label. simpl. apply walk_idempotent.
      * simpl. by rewrite file_items_update_selection_label.
    + rewrite file_tree_update_selection_label. simpl. by rewrite (item_at_walk p _ _ Hp).
  - by rewrite !(update_checkboxes_invalid p d Hp).
Qed.



(** ** The invariant of the window *)

Section WindowInvariant.

Lemma same_keys_refl items : same_keys items items.
Proof. apply Forall2_same_length_lookup_2; [done|]. by intros i a b -> [= ->]. Qed.

Lemma same_keys_alter f r items :
  (forall item, item_id (f item) = item_id item /\ data (f item) = data item) ->
  same_keys items (alter f r items).
Proof.
  intros Hf. apply Forall2_alter_r; [apply same_keys_refl|].
  intros x y _ _ [Hid Hdata]. destruct (Hf y) as [-> ->]. done.
Qed.

Lemma same_keys_ids items items' :
  same_keys items items' -> item_id <$> items' = item_id <$> items.
Proof. induction 1 as [|a b l k [Hid _] _ IH]; [done|]. by rewrite !fmap_cons, Hid, IH. Qed.

Lemma same_keys_elem items items' item :
  same_keys items items' -> item ∈ items ->
  exists item', item' ∈ items' /\ item_id item' = item_id item /\ data item' = data item.
Proof.
  intros Hs [i Hi]%list_elem_of_lookup.
  destruct (Forall2_lookup_l _ _ _ _ _ Hs Hi) as (item' & Hi' & Hid & Hdata).
  exists item'. split; [|done]. apply list_elem_of_lookup. by exists i.
Qed.

(** A window whose list holds the same objects for the same torrents, with
    the same dict and counter, is as good. *)
Lemma window_ok_same_keys w w' :
  window_ok w ->
  same_keys (_list_widget w) (_list_widget w') ->
  _torrent_to_item w' = _torrent_to_item w ->
  items_created w' = items_created w ->
  window_ok w'.
Proof.
  intros [H1 H2 H3] Hs Hm Hn. split.
  - rewrite Hn. clear H2 H3 Hm Hn. induction Hs as [|a b l k [Hid _] _ IH]; [done|].
    apply Forall_cons in H1 as [Ha H1]. constructor; [by rewrite Hid|by apply IH].
  - by rewrite (same_keys_ids _ _ Hs).
  - intros h id Hh. rewrite Hm in Hh. destruct (H3 h id Hh) as (item & Hin & Hid & Hdata).
    destruct (same_keys_elem _ _ _ Hs Hin) as (item' & Hin' & Hid' & Hdata').
    exists item'. split; [done|]. split; congruence.
Qed.

Lemma window_ok_init : window_ok MainWindow_init.
Proof.
  split; simpl.
  - constructor.
  - constructor.
  - intros h id Hh. by rewrite lookup_empty in Hh.
Qed.

Lemma insertItem_perm row item items :
  insertItem row item items ≡ₚ item :: items.
Proof.
  unfold insertItem. rewrite <- Permutation_middle. by rewrite take_drop.
Qed.

Lemma window_ok_add st w : window_ok w -> window_ok (_add_torrent_item st w).
Proof.
  intros [H1 H2 H3]. split; simpl.
  - rewrite insertItem_perm. constructor; simpl; [lia|].
    eapply Forall_impl; [exact H1|]. simpl. lia.
  - rewrite insertItem_perm, fmap_cons. simpl. apply NoDup_cons. split; [|done].
    intros (item & Hid & Hin)%list_elem_of_fmap.
    pose proof (proj1 (Forall_forall _ _) H1 item Hin) as Hlt. simpl in Hlt. lia.
  - intros h id Hh. destruct (decide (TorrentModels.info_hash st = h)) as [<-|Hne].
    + rewrite lookup_insert_eq in Hh. injection Hh as <-.
      eexists. split; [rewrite insertItem_perm; apply elem_of_cons; left; reflexivity|].
      done.
    + rewrite lookup_insert_ne in Hh by done.
      destruct (H3 h id Hh) as (item & Hin & Hid & Hdata).
      exists item. split; [|done]. rewrite insertItem_perm. apply elem_of_cons. by right.
Qed.

(** An entry of the dict leads to a row of the list. *)
Lemma entry_row w h id :
  window_ok w -> _torrent_to_item w !! h = Some id ->
  exists r item, row id (_list_widget w) = Some r /\
                 _list_widget w !! r = Some item /\
                 item_id item = id /\ data item = h.
Proof.
  intros [H1 H2 H3] Hh. destruct (H3 h id Hh) as (item & Hin & Hid & Hdata).
  destruct (list_find_elem_of (fun x => item_id x = id) _ item Hin Hid) as [[r x] Hfind].
  exists r, x. unfold row. rewrite Hfind. split; [done|].
  apply list_find_Some in Hfind as (Hr & Hx & _). split; [done|]. split; [done|].
  apply list_elem_of_lookup in Hin as [r' Hr'].
  assert (r = r') as <-.
  { eapply NoDup_lookup; [exact H2| |]; rewrite list_lookup_fmap.
    - by rewrite Hr.
    - rewrite Hr'. simpl. congruence. }
  congruence.
Qed.

Lemma elem_of_delete_ne {A} (l : list A) r x y :
  l !! r = Some x -> y ∈ l -> y <> x -> y ∈ delete r l.
Proof.
  intros Hr Hy Hne. rewrite delete_take_drop.
  rewrite <- (take_drop_middle l r x Hr) in Hy.
  apply elem_of_app in Hy as [Hy|[Hy|Hy]%elem_of_cons]; [|done|];
    apply elem_of_app; auto.
Qed.

Lemma window_ok_remove h w w' :
  window_ok w -> _remove_torrent_item h w = Return w' -> window_ok w'.
Proof.
  intros Hok. unfold _remove_torrent_item.
  destruct (_torrent_to_item w !! h) as [id|] eqn:Hh; [|done].
  intros [= <-]. destruct (entry_row w h id Hok Hh) as (r & x & Hrow & Hr & Hid & Hdata).
  destruct Hok as [H1 H2 H3]. rewrite Hrow. split; simpl.
  - by apply Forall_delete.
  - eapply sublist_NoDup; [exact H2|]. rewrite list_fmap_delete. apply sublist_delete.
  - intros h' id' Hh'. destruct (decide (h = h')) as [<-|Hne].
    + by rewrite lookup_delete_eq in Hh'.
    + rewrite lookup_delete_ne in Hh' by done.
      destruct (H3 h' id' Hh') as (item & Hin & Hid' & Hdata').
      exists item. split; [|done]. eapply elem_of_delete_ne; [done..|]. congruence.
Qed.

Lemma window_ok_update st w w' :
  window_ok w -> _update_torrent_item st w = Return w' -> window_ok w'.
Proof.
  intros Hok. unfold _update_torrent_item.
  destruct (_torrent_to_item w !! _) as [id|]; [|by intros [= <-]].
  destruct (row id (_list_widget w)) as [r|]; [|done].
  intros [= <-]. eapply window_ok_same_keys; [exact Hok| |done..].
  simpl. by apply same_keys_alter.
Qed.

Lemma window_ok_select r value w : window_ok w -> window_ok (select_row r value w).
Proof.
  intros Hok. eapply window_ok_same_keys; [exact Hok| |done..].
  simpl. by apply same_keys_alter.
Qed.

Lemma window_ok_trigger {Engine} (action : Action Engine) w :
  window_ok w -> window_ok (_control_action_triggered action w).1.
Proof.
  intros Hok. pose proof (trigger_items_same action w) as Hs.
  unfold _control_action_triggered.
  destruct (trigger_items action (selectedItems w) (_list_widget w))
    as [items submissions].
  eapply window_ok_same_keys; [exact Hok| |done..].
  simpl in *. eapply Forall2_impl; [exact Hs|]. naive_solver.
Qed.

Lemma window_ok_add_file from_file abspath_dirname path w :
  window_ok w -> window_ok (add_torrent_file from_file abspath_dirname path w).1.
Proof.
  intros Hok. unfold add_torrent_file. destruct (from_file path) as [ti|err]; cbn zeta.
  - destruct (_torrent_to_item _ !! _);
      (eapply window_ok_same_keys; [exact Hok|apply same_keys_refl|done..]).
  - eapply window_ok_same_keys; [exact Hok|apply same_keys_refl|done..].
Qed.

Lemma window_ok_add_files from_file abspath_dirname paths w :
  window_ok w -> window_ok (add_torrent_files from_file abspath_dirname paths w).1.
Proof.
  unfold add_torrent_files. generalize (@nil (string * TorrentInfo)). revert w.
  induction paths as [|path paths IH]; intros w ds Hok; [done|].
  cbn [fold_left].
  pose proof (window_ok_add_file from_file abspath_dirname path w Hok) as Hok1.
  unfold add_torrent_files_turn at 2. cbn [fst snd].
  destruct (add_torrent_file from_file abspath_dirname path w) as [w1 dialog].
  by apply IH.
Qed.

Lemma window_ok_step {Engine} (op : WindowOp Engine) w :
  window_ok w -> window_ok (window_step w op).
Proof.
  intros Hok. destruct op as [st|st|h|r value|action|from_file abspath_dirname paths]; simpl.
  - by apply window_ok_add.
  - destruct (_update_torrent_item st w) as [w'|e] eqn:E; [|done].
    by eapply window_ok_update.
  - destruct (_remove_torrent_item h w) as [w'|e] eqn:E; [|done].
    by eapply window_ok_remove.
  - by apply window_ok_select.
  - by apply window_ok_trigger.
  - by apply window_ok_add_files.
Qed.

Lemma window_ok_after {Engine} (ops : list (WindowOp Engine)) : window_ok (window_after ops).
Proof.
  unfold window_after. generalize window_ok_init. generalize MainWindow_init.
  induction ops as [|op ops IH]; intros w Hok; [done|].
  simpl. by apply IH, window_ok_step.
Qed.

End WindowInvariant.

Section WindowLaws.

(** The new item is found in the row it was inserted at: no older item is
    the same object. *)
Lemma row_insertItem n k item items :
  Forall (fun x => (item_id x < n)%nat) items ->
  item_id item = n -> (k <= length items)%nat ->
  row n (insertItem k item items) = Some k /\
  insertItem k item items !! k = Some item.
Proof.
  intros Hlt Hid Hk.
  assert (insertItem k item items !! k = Some item) as Hlook.
  { unfold insertItem. rewrite lookup_app_r by (rewrite length_take; lia).
    rewrite length_take. by replace (k - k `min` length items)%nat with 0%nat by lia. }
  split; [|done]. unfold row.
  assert (list_find (fun x => item_id x = n) (insertItem k item items) = Some (k, item))
    as ->; [|done].
  apply list_find_Some. split; [done|]. split; [done|].
  intros j y Hj Hjk Hy. unfold insertItem in Hj.
  rewrite lookup_app_l in Hj by (rewrite length_take; lia).
  apply lookup_take_Some in Hj as [Hj _].
  pose proof (Forall_lookup_1 _ _ _ _ Hlt Hj) as Hlt'. simpl in Hlt'. lia.
Qed.

Lemma delete_insertItem k item (items : list QListWidgetItem) :
  (k <= length items)%nat -> delete k (insertItem k item items) = items.
Proof.
  intros Hk. unfold insertItem. rewrite delete_take_drop.
  rewrite take_app_length' by (rewrite length_take; lia).
  rewrite drop_app_ge by (rewrite length_take; lia).
  rewrite length_take. replace (S k - k `min` length items)%nat with 1%nat by lia.
  cbn [drop]. rewrite drop_0. apply take_drop.
Qed.

(** The item of an absent or unselected torrent does not count for the
    tool bar. *)
Lemma filter_insertItem_not_submittable k item items :
  ~ submittable item ->
  filter submittable (insertItem k item items) = filter submittable items.
Proof.
  intros Hn. unfold insertItem.
  rewrite filter_app, filter_cons_False by done.
  by rewrite <- filter_app, take_drop.
Qed.

Lemma actions_decided_refreshed w : actions_decided (_update_control_action_state w).
Proof. by repeat split. Qed.

Lemma actions_decided_add_file from_file abspath_dirname path w :
  actions_decided w ->
  actions_decided (add_torrent_file from_file abspath_dirname path w).1.
Proof.
  intros Hd. unfold add_torrent_file. destruct (from_file path) as [ti|err]; cbn zeta.
  - by destruct (_torrent_to_item _ !! _).
  - done.
Qed.

Lemma actions_decided_add_files from_file abspath_dirname paths w :
  actions_decided w ->
  actions_decided (add_torrent_files from_file abspath_dirname paths w).1.
Proof.
  unfold add_torrent_files. generalize (@nil (string * TorrentInfo)). revert w.
  induction paths as [|path paths IH]; intros w ds Hd; [done|].
  cbn [fold_left].
  pose proof (actions_decided_add_file from_file abspath_dirname path w Hd) as Hd1.
  unfold add_torrent_files_turn at 2. cbn [fst snd].
  destruct (add_torrent_file from_file abspath_dirname path w) as [w1 dialog].
  by apply IH.
Qed.

Lemma actions_decided_step {Engine} (op : WindowOp Engine) w :
  actions_decided w -> actions_decided (window_step w op).
Proof.
  intros Hd. destruct op as [st|st|h|r value|action|from_file abspath_dirname paths]; simpl.
  - unfold actions_decided. simpl.
    rewrite filter_insertItem_not_submittable; [done|]. by intros [? _].
  - unfold _update_torrent_item. destruct (_torrent_to_item w !! _); [|done].
    destruct (row _ _); [|done]. apply actions_decided_refreshed.
  - unfold _remove_torrent_item. destruct (_torrent_to_item w !! _); [|done].
    apply actions_decided_refreshed.
  - apply actions_decided_refreshed.
  - unfold _control_action_triggered. destruct (trigger_items _ _ _).
    apply actions_decided_refreshed.
  - by apply actions_decided_add_files.
Qed.

Lemma actions_decided_after {Engine} (ops : list (WindowOp Engine)) :
  actions_decided (window_after ops).
Proof.
  unfold window_after.
  assert (actions_decided MainWindow_init) as Hinit by (by repeat split).
  revert Hinit. generalize MainWindow_init.
  induction ops as [|op ops IH]; intros w Hd; [done|].
  simpl. by apply IH, actions_decided_step.
Qed.

Lemma existsb_or_negb {A} (f : A -> bool) (l : list A) :
  existsb (fun x => negb (f x)) l || existsb f l = negb (bool_decide (l = [])).
Proof.
  destruct l as [|x l]; [done|]. rewrite bool_decide_eq_false_2 by done.
  simpl. destruct (f x); simpl; [by rewrite orb_true_r|done].
Qed.

End WindowLaws.

(** X8.  In every window reached from the new one, after a torrent is
    added its widget is found under its info hash, showing the state it
    was added with and no action pending. *)
Theorem added_torrent_is_shown {Engine : Type} (ops : list (WindowOp Engine))
    (st : TorrentState) :
  widget_of (TorrentModels.info_hash st) (_add_torrent_item st (window_after ops))
  = Some {| state := st; waiting_control_action := false |}.
Proof.
  destruct (window_ok_after ops) as [H1 _ _].
  unfold widget_of. cbn [_add_torrent_item _torrent_to_item _list_widget item_id].
  rewrite lookup_insert_eq. cbn [mbind option_bind].
  match goal with
  | |- context [insertItem ?k ?item ?l] =>
      destruct (row_insertItem (items_created (window_after ops)) k item l H1 eq_refl
                  (items_upper_le _ _)) as [-> Hlook];
      cbn [mbind option_bind]; rewrite Hlook
  end.
  done.
Qed.

(** X9.  In every window reached from the new one, removing a torrent
    straight after it was added gives back the list as it was before, in
    the same order; the dict has lost the info hash (also when it had it
    before the addition: the older item for that info hash then stays in
    the list without an entry). *)
Theorem remove_after_add {Engine : Type} (ops : list (WindowOp Engine)) (st : TorrentState) :
  exists w',
    _remove_torrent_item (TorrentModels.info_hash st)
                         (_add_torrent_item st (window_after ops)) = Return w' /\
    _list_widget w' = _list_widget (window_after ops) /\
    _torrent_to_item w' = delete (TorrentModels.info_hash st)
                                 (_torrent_to_item (window_after ops)).
Proof.
  destruct (window_ok_after ops) as [H1 _ _].
  unfold _remove_torrent_item.
  cbn [_add_torrent_item _torrent_to_item _list_widget item_id].
  rewrite lookup_insert_eq. eexists. split; [done|].
  cbn [_update_control_action_state with_list _list_widget _torrent_to_item].
  match goal with
  | |- context [insertItem ?k ?item ?l] =>
      destruct (row_insertItem (items_created (window_after ops)) k item l H1 eq_refl
                  (items_upper_le _ _)) as [-> _]
  end.
  split.
  - cbn [takeItem]. apply delete_insertItem, items_upper_le.
  - apply delete_insert_eq.
Qed.

(** X10.  In every window reached from the new one, removing a torrent
    that has an entry takes exactly one item out of the list, the one that
    carries the info hash and that the entry named; the other items keep
    their order; the entry is deleted. *)
Theorem remove_takes_its_item {Engine : Type} (ops : list (WindowOp Engine))
    (h : string) (id : nat) :
  _torrent_to_item (window_after ops) !! h = Some id ->
  exists w' before item after,
    _remove_torrent_item h (window_after ops) = Return w' /\
    _list_widget (window_after ops) = before ++ item :: after /\
    item_id item = id /\ data item = h /\
    _list_widget w' = before ++ after /\
    _torrent_to_item w' = delete h (_torrent_to_item (window_after ops)).
Proof.
  intros Hh.
  destruct (entry_row _ h id (window_ok_after ops) Hh) as (r & x & Hrow & Hr & Hid & Hdata).
  unfold _remove_torrent_item. rewrite Hh, Hrow.
  eexists _, (take r (_list_widget (window_after ops))), x,
    (drop (S r) (_list_widget (window_after ops))).
  split; [done|]. split; [by rewrite take_drop_middle|].
  split; [done|]. split; [done|]. split; [apply delete_take_drop|done].
Qed.

(** X11.  In every window reached from the new one a state update never
    raises.  It leaves the dict, the items' identities, info hashes,
    selection and order as they are, and every item of another torrent
    exactly as it is. *)
Theorem update_changes_only_its_torrent {Engine : Type} (ops : list (WindowOp Engine))
    (st : TorrentState) :
  exists w',
    _update_torrent_item st (window_after ops) = Return w' /\
    _torrent_to_item w' = _torrent_to_item (window_after ops) /\
    same_keys (_list_widget (window_after ops)) (_list_widget w') /\
    selected <$> _list_widget w' = selected <$> _list_widget (window_after ops) /\
    forall i item,
      _list_widget (window_after ops) !! i = Some item ->
      data item <> TorrentModels.info_hash st ->
      _list_widget w' !! i = Some item.
Proof.
  pose proof (window_ok_after ops) as Hok.
  unfold _update_torrent_item.
  destruct (_torrent_to_item (window_after ops) !! TorrentModels.info_hash st)
    as [id|] eqn:Hh.
  - destruct (entry_row _ _ id Hok Hh) as (r & x & Hrow & Hr & Hid & Hdata).
    rewrite Hrow. eexists. split; [done|]. simpl. split; [done|].
    split; [by apply same_keys_alter|]. split.
    + apply list_eq. intros i. rewrite !list_lookup_fmap, list_lookup_alter.
      case_decide; [subst i|done]. by destruct (_ !! r).
    + intros i item Hi Hne. rewrite list_lookup_alter, decide_False; [done|].
      intros ->. congruence.
  - exists (window_after ops). split; [done|]. split; [done|].
    split; [apply same_keys_refl|]. by split.
Qed.

(** X12.  In every window reached from the new one the tool bar agrees
    with the list, also after an addition, whose slot does not refresh it:
    Remove is enabled exactly when a selected item has no action pending,
    Pause when such an item is not paused, Resume when such an item is
    paused; so Remove is enabled exactly when Pause or Resume is. *)
Theorem tool_bar_follows_selection {Engine : Type} (ops : list (WindowOp Engine)) :
  let w := window_after ops in
  (remove_action_enabled w = true <->
   exists item, item ∈ _list_widget w /\ submittable item) /\
  (pause_action_enabled w = true <->
   exists item, item ∈ _list_widget w /\ submittable item /\
                TorrentModels.paused (state (itemWidget item)) = false) /\
  (resume_action_enabled w = true <->
   exists item, item ∈ _list_widget w /\ submittable item /\
                TorrentModels.paused (state (itemWidget item)) = true) /\
  remove_action_enabled w = pause_action_enabled w || resume_action_enabled w.
Proof.
  intros w. destruct (actions_decided_after ops) as (Hp & Hr & Hm). fold w in Hp, Hr, Hm.
  split; [|split; [|split]].
  - rewrite Hm, negb_true_iff, bool_decide_eq_false. split.
    + intros Hne. destruct (filter submittable (_list_widget w)) as [|x l] eqn:E; [done|].
      assert (x ∈ filter submittable (_list_widget w)) as [Hs Hin]%list_elem_of_filter
        by (rewrite E; by left).
      by exists x.
    + intros (item & Hin & Hs) Hnil.
      assert (item ∈ filter submittable (_list_widget w)) as Hf
        by (by apply list_elem_of_filter).
      rewrite Hnil in Hf. by apply elem_of_nil in Hf.
  - rewrite Hp, existsb_exists. split.
    + intros (item & [Hs Hin]%list_elem_of_In%list_elem_of_filter & Hnp).
      exists item. by apply negb_true_iff in Hnp.
    + intros (item & Hin & Hs & Hnp). exists item. split.
      * by apply list_elem_of_In, list_elem_of_filter.
      * by apply negb_true_iff.
  - rewrite Hr, existsb_exists. split.
    + intros (item & [Hs Hin]%list_elem_of_In%list_elem_of_filter & Hnp). by exists item.
    + intros (item & Hin & Hs & Hnp). exists item. split; [|done].
      by apply list_elem_of_In, list_elem_of_filter.
  - by rewrite Hp, Hr, Hm, existsb_or_negb.
Qed.

(** X13.  When [_control_action_triggered] returns, Pause, Resume and
    Remove are all disabled, whatever was selected: every selected item
    has an action pending. *)
Theorem triggered_disables_tool_bar {Engine : Type} (action : Action Engine)
    (w : MainWindow) :
  pause_action_enabled (_control_action_triggered action w).1 = false /\
  resume_action_enabled (_control_action_triggered action w).1 = false /\
  remove_action_enabled (_control_action_triggered action w).1 = false.
Proof.
  pose proof (trigger_items_none_submittable action w) as Hnone.
  unfold _control_action_triggered.
  destruct (trigger_items action (selectedItems w) (_list_widget w))
    as [items submissions].
  simpl in *. change (filter _ items) with (filter submittable items).
  by rewrite Hnone.
Qed.

Lemma ubuntu_has_entry :
  _torrent_to_item (window_after (Engine:=unit) [TorrentAdded ubuntu_1; TorrentAdded debian])
    !! "h1" = Some 0%nat.
Proof. by vm_compute. Defined.

Lemma remove_takes_its_item_witness :
  _torrent_to_item (window_after (Engine:=unit) [TorrentAdded ubuntu_1; TorrentAdded debian])
    !! "h1" = Some 0%nat /\
  exists w' before item after,
    _remove_torrent_item "h1"
      (window_after (Engine:=unit) [TorrentAdded ubuntu_1; TorrentAdded debian]) = Return w' /\
    _list_widget (window_after (Engine:=unit) [TorrentAdded ubuntu_1; TorrentAdded debian])
    = before ++ item :: after /\
    item_id item = 0%nat /\ data item = "h1" /\
    _list_widget w' = before ++ after /\
    _torrent_to_item w'
    = delete "h1"
        (_torrent_to_item
           (window_after (Engine:=unit) [TorrentAdded ubuntu_1; TorrentAdded debian])).
Proof.
  split; [exact ubuntu_has_entry|].
  exact (remove_takes_its_item (Engine:=unit) [TorrentAdded ubuntu_1; TorrentAdded debian]
           "h1" 0%nat ubuntu_has_entry).
Defined.

(** ** Files that are added *)

Section AddFilesLaws.

Variable from_file : string -> Result TorrentInfo.
Variable abspath_dirname : string -> string.

Lemma add_torrent_file_one_outcome path w :
  let '(w', dialog) := add_torrent_file from_file abspath_dirname path w in
  (dialog = None /\ exists box, critical_boxes w' = critical_boxes w ++ [box]) \/
  (exists ti, dialog = Some (path, ti) /\ from_file path = Return ti /\
              critical_boxes w' = critical_boxes w).
Proof.
  unfold add_torrent_file. destruct (from_file path) as [ti|err]; cbn zeta.
  - destruct (_torrent_to_item _ !! _).
    + left. split; [done|]. by eexists.
    + right. by exists ti.
  - left. split; [done|]. by eexists.
Qed.

Lemma add_torrent_files_outcomes paths : forall w dialogs,
  let result :=
    fold_left (add_torrent_files_turn from_file abspath_dirname) paths (w, dialogs) in
  exists boxes new_dialogs,
    critical_boxes result.1 = critical_boxes w ++ boxes /\
    result.2 = dialogs ++ new_dialogs /\
    (length boxes + length new_dialogs = length paths)%nat /\
    new_dialogs.*1 `sublist_of` paths /\
    Forall (fun d => from_file d.1 = Return d.2) new_dialogs.
Proof.
  induction paths as [|path paths IH]; intros w dialogs.
  - exists [], []. simpl. by rewrite !app_nil_r.
  - cbn [fold_left].
    pose proof (add_torrent_file_one_outcome path w) as Hone.
    destruct (add_torrent_file from_file abspath_dirname path w) as [w1 dialog] eqn:E.
    assert (add_torrent_files_turn from_file abspath_dirname (w, dialogs) path
            = (w1, dialogs ++ from_option (fun d => [d]) [] dialog)) as ->.
    { unfold add_torrent_files_turn. cbn [fst snd]. by rewrite E. }
    destruct (IH w1 (dialogs ++ from_option (fun d => [d]) [] dialog))
      as (boxes & ds & Hb & Hd & Hlen & Hsub & Hall).
    cbv zeta. rewrite Hb, Hd.
    destruct Hone as [[-> [box Hbox]]|(ti & -> & Hfile & Hbox)].
    + exists (box :: boxes), ds. rewrite Hbox. cbn [from_option length].
      rewrite app_nil_r, <- app_assoc.
      split; [done|]. split; [done|]. split; [lia|]. split; [|done].
      by apply sublist_cons.
    + exists boxes, ((path, ti) :: ds). rewrite Hbox. cbn [from_option length].
      rewrite <- app_assoc.
      split; [done|]. split; [done|]. split; [lia|]. split.
      * rewrite fmap_cons. by apply sublist_skip.
      * by constructor.
Qed.

End AddFilesLaws.


(** ** Results of control actions *)

Section LoopRunLaws.

Context {Engine : Type}.

Lemma invoke_never_ValueError (action : Action Engine) h engine :
  is_ValueError_result (_invoke_control_action action h engine).1 = false.
Proof.
  unfold _invoke_control_action.
  destruct (action h engine) as [[[|body]|e] engine'].
  - done.
  - destruct (body engine') as [[[]|e] engine'']; [done|]. cbv zeta.
    by destruct (is_ValueError e) eqn:He.
  - cbv zeta. by destruct (is_ValueError e) eqn:He.
Qed.

Lemma loop_run_results (submissions : list (Submission Engine)) : forall engine,
  length (loop_run submissions engine).1 = length submissions /\
  Forall (fun r => is_ValueError_result r = false) (loop_run submissions engine).1.
Proof.
  induction submissions as [|s rest IH]; intros engine; [by split|].
  simpl.
  pose proof (invoke_never_ValueError (submitted_action s) (submitted_info_hash s) engine)
    as Hv.
  destruct (_invoke_control_action _ _ engine) as [r engine'].
  destruct (IH engine') as [Hlen Hall].
  destruct (loop_run rest engine') as [rs engine'']. simpl in *.
  split; [by rewrite Hlen|by constructor].
Qed.

End LoopRunLaws.

(** X15.  A user gesture gives one future for every selected item that had
    no action pending, and no future ever holds a [ValueError]: the
    dispatcher coroutine never ends in one, whatever the action does. *)
Theorem one_future_per_submission {Engine : Type} (action : Action Engine)
    (w : MainWindow) (engine : Engine) :
  length (control_action_round action w engine).2
  = length (filter submittable (_list_widget w)) /\
  Forall (fun r => is_ValueError_result r = false)
         (control_action_round action w engine).2.
Proof.
  unfold control_action_round.
  pose proof (triggered_submissions action w) as Hsub.
  destruct (_control_action_triggered action w) as [w' submissions]. simpl in Hsub.
  destruct (loop_run_results submissions engine) as [Hlen Hall].
  destruct (loop_run submissions engine) as [futures engine']. simpl in *.
  split; [|done]. by rewrite Hlen, Hsub, length_map.
Qed.

(** ** [stop()] from the start *)

Module StopFromStart.
Import ControlManagerThread.

Lemma started_reached : started ∈ reached_from_started.
Proof. StopTwice.by_evaluation. Qed.

Lemma reached_from_started_closed :
  Forall (fun s => Forall (fun t => turn s t ∈ reached_from_started) threads)
         reached_from_started.
Proof. StopTwice.by_evaluation. Qed.

Lemma reached_from_started_orderly : Forall orderly reached_from_started.
Proof. StopTwice.by_evaluation. Qed.

Lemma run_reached_from_started schedule : forall s,
  s ∈ reached_from_started -> run schedule s ∈ reached_from_started.
Proof.
  induction schedule as [|t schedule IH]; intros s Hs; [done|].
  simpl. apply IH.
  pose proof (proj1 (Forall_forall _ _) reached_from_started_closed s Hs) as Ht.
  apply (proj1 (Forall_forall _ _) Ht). unfold threads.
  rewrite !elem_of_cons. destruct t; auto.
Qed.

End StopFromStart.


(** ** [run()] *)



(** ** The probe and [main] *)




(** ** The theme *)

(** X20.  After any number of toggles of the theme, dark mode is on
    exactly when the number is odd, the style sheet of the window is the
    one [get_stylesheet] gives for the mode, and after the first toggle
    the tool tip offers the other theme. *)
Theorem theme_after_toggles (dark_stylesheet light_stylesheet : string) (n : nat) :
  let t := Nat.iter n (toggle_theme dark_stylesheet light_stylesheet)
                    (theme_init dark_stylesheet light_stylesheet) in
  dark_mode t = Nat.odd n /\
  styleSheet t = get_stylesheet dark_stylesheet light_stylesheet (dark_mode t) /\
  (n <> 0%nat ->
   theme_action_toolTip t
   = Some ("Switch to " +:+ (if dark_mode t then "Light Theme" else "Dark Theme"))).
Proof.
  induction n as [|n IH]; [by repeat split|].
  cbv zeta in *. destruct IH as (Hmode & _ & _).
  change (Nat.iter (S n) (toggle_theme dark_stylesheet light_stylesheet)
                   (theme_init dark_stylesheet light_stylesheet))
    with (toggle_theme dark_stylesheet light_stylesheet
            (Nat.iter n (toggle_theme dark_stylesheet light_stylesheet)
                      (theme_init dark_stylesheet light_stylesheet))).
  set (t := Nat.iter n _ _) in *. clearbody t.
  unfold toggle_theme. cbn [dark_mode styleSheet theme_action_toolTip].
  rewrite Hmode, Nat.odd_succ, <- Nat.negb_odd. by repeat split.
Qed.

Lemma theme_after_toggles_witness :
  1%nat <> 0%nat /\
  theme_action_toolTip (Nat.iter 1 (toggle_theme "dark" "light") (theme_init "dark" "light"))
  = Some "Switch to Light Theme".
Proof.
  split; [discriminate|].
  exact (proj2 (proj2 (theme_after_toggles "dark" "light" 1)) (Nat.neq_succ_0 0)).
Defined.

(** ** Magnet links *)

Section MagnetLaws.

Import MagnetToTorrent.

Lemma convert_handled env magnet_link output_dir out :
  shell_call_handled
    (run_shell env (m2t_command (path_join env output_dir "output.torrent") magnet_link)) ->
  (convert_magnet_to_torrent env magnet_link output_dir out).2 = None.
Proof.
  unfold convert_magnet_to_torrent. cbv zeta.
  destruct (run_shell env _) as [rc o e|e]; simpl.
  - intros _. by case_decide.
  - destruct (isinstance e "CalledProcessError"); [done|].
    by intros [?| ->].
Qed.

Lemma script_handled env prog magnet_link output_dir rest :
  isdir env output_dir = true ->
  shell_call_handled
    (run_shell env (m2t_command (path_join env output_dir "output.torrent") magnet_link)) ->
  returncode (script env (prog :: magnet_link :: output_dir :: rest)) = 0 /\
  stderr (script env (prog :: magnet_link :: output_dir :: rest)) = "".
Proof.
  intros Hdir Hh. unfold script. rewrite Hdir.
  pose proof (convert_handled env magnet_link output_dir "" Hh) as Hc.
  destruct (convert_magnet_to_torrent env magnet_link output_dir "") as [out [e|]];
    [done|by split].
Qed.

End MagnetLaws.

(** X21.  The exit status of the script.  With fewer than two arguments,
    or with an output directory that is no directory, it is 1, standard
    output holds the usage line or the line about the directory and
    nothing else, and standard error is empty.  With a directory, it is 0
    and standard error is empty whenever the shell call completes,
    whatever the status of the command, and also when it raises
    [CalledProcessError] or [FileNotFoundError]: a failed conversion is
    only printed, as the command line, [Command failed.] and the error
    output of the command. *)
Theorem script_exit_status (env : MagnetToTorrent.Environment) :
  (forall argv,
      (length argv < 3)%nat ->
      MagnetToTorrent.returncode (MagnetToTorrent.script env argv) = 1 /\
      MagnetToTorrent.stdout (MagnetToTorrent.script env argv)
      = MagnetToTorrent.print
          "Usage: python magnet_to_torrent.py <magnet_link> <output_directory>" "" /\
      MagnetToTorrent.stderr (MagnetToTorrent.script env argv) = "") /\
  (forall prog magnet_link output_dir rest,
      MagnetToTorrent.isdir env output_dir = false ->
      MagnetToTorrent.returncode
        (MagnetToTorrent.script env (prog :: magnet_link :: output_dir :: rest)) = 1 /\
      MagnetToTorrent.stdout
        (MagnetToTorrent.script env (prog :: magnet_link :: output_dir :: rest))
      = MagnetToTorrent.print "Error: The specified output directory does not exist." "" /\
      MagnetToTorrent.stderr
        (MagnetToTorrent.script env (prog :: magnet_link :: output_dir :: rest)) = "") /\
  (forall prog magnet_link output_dir rest,
      MagnetToTorrent.isdir env output_dir = true ->
      shell_call_handled
        (MagnetToTorrent.run_shell env
           (MagnetToTorrent.m2t_command
              (MagnetToTorrent.path_join env output_dir "output.torrent") magnet_link)) ->
      MagnetToTorrent.returncode
        (MagnetToTorrent.script env (prog :: magnet_link :: output_dir :: rest)) = 0 /\
      MagnetToTorrent.stderr
        (MagnetToTorrent.script env (prog :: magnet_link :: output_dir :: rest)) = "") /\
  (forall prog magnet_link output_dir rest status out err,
      MagnetToTorrent.isdir env output_dir = true ->
      MagnetToTorrent.run_shell env
        (MagnetToTorrent.m2t_command
           (MagnetToTorrent.path_join env output_dir "output.torrent") magnet_link)
      = MagnetToTorrent.Completed status out err ->
      status <> 0 ->
      MagnetToTorrent.stdout
        (MagnetToTorrent.script env (prog :: magnet_link :: output_dir :: rest))
      = MagnetToTorrent.print ("Error: " +:+ err)
          (MagnetToTorrent.print "Command failed."
             (MagnetToTorrent.print
                ("Running command: " +:+
                 MagnetToTorrent.m2t_command
                   (MagnetToTorrent.path_join env output_dir "output.torrent") magnet_link)
                ""))).
Proof.
  split; [|split; [|split]].
  - intros [|a [|b [|c argv]]] Hlen; simpl in Hlen; try lia; by repeat split.
  - intros prog magnet_link output_dir rest Hdir. unfold MagnetToTorrent.script.
    by rewrite Hdir.
  - intros prog magnet_link output_dir rest. apply script_handled.
  - intros prog magnet_link output_dir rest status out err Hdir Hrun Hstatus.
    unfold MagnetToTorrent.script, MagnetToTorrent.convert_magnet_to_torrent.
    rewrite Hdir. cbv zeta. rewrite Hrun. by rewrite decide_False by done.
Qed.

Lemma script_exit_status_witness :
  MagnetToTorrent.isdir failing_shell "/tmp" = true /\
  shell_call_handled
    (MagnetToTorrent.run_shell failing_shell
       (MagnetToTorrent.m2t_command
          (MagnetToTorrent.path_join failing_shell "/tmp" "output.torrent") "magnet:?xt=1")) /\
  MagnetToTorrent.returncode
    (MagnetToTorrent.script failing_shell ["magnet_to_torrent.py"; "magnet:?xt=1"; "/tmp"])
  = 0 /\
  MagnetToTorrent.stderr
    (MagnetToTorrent.script failing_shell ["magnet_to_torrent.py"; "magnet:?xt=1"; "/tmp"])
  = "".
Proof.
  split; [reflexivity|]. split; [exact I|].
  exact (proj1 (proj2 (proj2 (script_exit_status failing_shell)))
               "magnet_to_torrent.py" "magnet:?xt=1" "/tmp" [] eq_refl I).
Defined.

(** X22.  [open_magnet_to_torrent] with the script as the process it
    starts.  Nothing is run, no box is shown and nothing is raised exactly
    when the link dialog was cancelled, the link is empty or no directory
    was chosen.  Otherwise the command is the interpreter, the script, the
    link and the directory.  When the process runs: if the directory
    exists and the shell call of the script completes, the box shown is
    the "Success" box, whatever the status of the conversion command; if
    the directory is no directory, the box shown is the "Error" box with
    an empty text, the script having written its message to standard
    output.  When [subprocess.run] raises instead, an exception that is no
    [CalledProcessError] (the interpreter is not found, say) is not
    caught: it leaves the method and no box is shown. *)
Theorem magnet_dialog_outcomes (env : MagnetToTorrent.Environment)
    (start : option Exception) (magnet_link : string) (ok : bool) (output_dir : string) :
  (MagnetToTorrent.open_magnet_to_torrent
     (gui_with_script env start magnet_link ok output_dir)
   = {| MagnetToTorrent.command_run := None; MagnetToTorrent.box_shown := None;
        MagnetToTorrent.raised := None |} <->
   ok = false \/ magnet_link = "" \/ output_dir = "") /\
  (ok = true -> magnet_link <> "" -> output_dir <> "" ->
   MagnetToTorrent.command_run
     (MagnetToTorrent.open_magnet_to_torrent
        (gui_with_script env start magnet_link ok output_dir))
   = Some ["python3"; "magnet_to_torrent.py"; magnet_link; output_dir]) /\
  (ok = true -> magnet_link <> "" -> output_dir <> "" ->
   start = None ->
   MagnetToTorrent.isdir env output_dir = true ->
   shell_call_handled
     (MagnetToTorrent.run_shell env
        (MagnetToTorrent.m2t_command
           (MagnetToTorrent.path_join env output_dir "output.torrent") magnet_link)) ->
   MagnetToTorrent.raised
     (MagnetToTorrent.open_magnet_to_torrent
        (gui_with_script env start magnet_link ok output_dir)) = None /\
   exists text,
     MagnetToTorrent.box_shown
       (MagnetToTorrent.open_magnet_to_torrent
          (gui_with_script env start magnet_link ok output_dir))
     = Some (MagnetToTorrent.information "Success" text)) /\
  (ok = true -> magnet_link <> "" -> output_dir <> "" ->
   start = None ->
   MagnetToTorrent.isdir env output_dir = false ->
   MagnetToTorrent.raised
     (MagnetToTorrent.open_magnet_to_torrent
        (gui_with_script env start magnet_link ok output_dir)) = None /\
   MagnetToTorrent.box_shown
     (MagnetToTorrent.open_magnet_to_torrent
        (gui_with_script env start magnet_link ok output_dir))
   = Some (MagnetToTorrent.critical "Error" "")) /\
  (forall e,
      ok = true -> magnet_link <> "" -> output_dir <> "" ->
      start = Some e ->
      isinstance e "CalledProcessError" = false ->
      MagnetToTorrent.raised
        (MagnetToTorrent.open_magnet_to_torrent
           (gui_with_script env start magnet_link ok output_dir)) = Some e /\
      MagnetToTorrent.box_shown
        (MagnetToTorrent.open_magnet_to_torrent
           (gui_with_script env start magnet_link ok output_dir)) = None).
Proof.
  unfold MagnetToTorrent.open_magnet_to_torrent, MagnetToTorrent.subprocess_run_check,
    gui_with_script.
  cbn [MagnetToTorrent.getText MagnetToTorrent.getExistingDirectory
       MagnetToTorrent.sys_executable MagnetToTorrent.script_path
       MagnetToTorrent.subprocess_run].
  split; [|split; [|split; [|split]]].
  - destruct ok; simpl.
    + destruct (bool_decide_reflect (magnet_link = "")) as [->|Hl]; [naive_solver|].
      destruct (bool_decide_reflect (output_dir = "")) as [->|Hd]; [naive_solver|].
      split; [|naive_solver].
      destruct start as [e|]; [by destruct (isinstance e "CalledProcessError")|].
      case_decide; [done|]. by destruct (isinstance _ _).
    + naive_solver.
  - intros -> Hl Hd. simpl.
    rewrite (bool_decide_eq_false_2 _ Hl), (bool_decide_eq_false_2 _ Hd).
    destruct start as [e|]; [by destruct (isinstance e "CalledProcessError")|].
    case_decide; [done|]. by destruct (isinstance _ _).
  - intros -> Hl Hd -> Hdir Hh. simpl.
    rewrite (bool_decide_eq_false_2 _ Hl), (bool_decide_eq_false_2 _ Hd).
    destruct (script_handled env "magnet_to_torrent.py" magnet_link output_dir [] Hdir Hh)
      as [Hrc _].
    rewrite decide_True by done. split; [done|]. by eexists.
  - intros -> Hl Hd -> Hdir. simpl.
    rewrite (bool_decide_eq_false_2 _ Hl), (bool_decide_eq_false_2 _ Hd).
    unfold MagnetToTorrent.script. rewrite Hdir. simpl. done.
  - intros e -> Hl Hd -> He. simpl.
    rewrite (bool_decide_eq_false_2 _ Hl), (bool_decide_eq_false_2 _ Hd).
    by rewrite He.
Qed.

Lemma magnet_dialog_outcomes_witness :
  (true = true /\ "magnet:?xt=1" <> "" /\ "/tmp" <> "" /\
   MagnetToTorrent.isdir failing_shell "/tmp" = true /\
   shell_call_handled
     (MagnetToTorrent.run_shell failing_shell
        (MagnetToTorrent.m2t_command
           (MagnetToTorrent.path_join failing_shell "/tmp" "output.torrent")
           "magnet:?xt=1")) /\
   MagnetToTorrent.raised
     (MagnetToTorrent.open_magnet_to_torrent
        (gui_with_script failing_shell None "magnet:?xt=1" true "/tmp")) = None /\
   exists text,
     MagnetToTorrent.box_shown
       (MagnetToTorrent.open_magnet_to_torrent
          (gui_with_script failing_shell None "magnet:?xt=1" true "/tmp"))
     = Some (MagnetToTorrent.information "Success" text)) /\
  (isinstance (MagnetToTorrent.FileNotFoundError "python3") "CalledProcessError" = false /\
   MagnetToTorrent.raised
     (MagnetToTorrent.open_magnet_to_torrent
        (gui_with_script failing_shell
           (Some (MagnetToTorrent.FileNotFoundError "python3"))
           "magnet:?xt=1" true "/tmp"))
   = Some (MagnetToTorrent.FileNotFoundError "python3") /\
   MagnetToTorrent.box_shown
     (MagnetToTorrent.open_magnet_to_torrent
        (gui_with_script failing_shell
           (Some (MagnetToTorrent.FileNotFoundError "python3"))
           "magnet:?xt=1" true "/tmp")) = None).
Proof.
  assert ("magnet:?xt=1" <> "") as Hl by discriminate.
  assert ("/tmp" <> "") as Hd by discriminate.
  split.
  - split; [reflexivity|]. split; [exact Hl|]. split; [exact Hd|].
    split; [reflexivity|]. split; [exact I|].
    exact (proj1 (proj2 (proj2 (magnet_dialog_outcomes failing_shell None "magnet:?xt=1"
                                                        true "/tmp")))
                 eq_refl Hl Hd eq_refl eq_refl I).
  - split; [reflexivity|].
    exact (proj2 (proj2 (proj2 (proj2
                   (magnet_dialog_outcomes failing_shell
                      (Some (MagnetToTorrent.FileNotFoundError "python3"))
                      "magnet:?xt=1" true "/tmp"))))
                 (MagnetToTorrent.FileNotFoundError "python3")
                 eq_refl Hl Hd eq_refl eq_refl).
Defined.

(** ** The recorded file items *)

(** X23.  In a dialog reached by any clicks, [_file_items] records the
    files of the torrent in the order of the traversal, and each record
    leads to an item of the tree that carries the file icon. *)
Theorem file_items_are_the_files (info : Models.DownloadInfo) (cs : list Click) :
  let d := clicks (TorrentAddingDialog_init info) cs in
  (_file_items d).*1 = leaves (Models.file_tree info) /\
  Forall (fun fi => exists it, item_at fi.2 (file_tree d) = Some it /\ icon it = file_icon)
         (_file_items d).
Proof.
  intros d. subst d. rewrite file_items_clicks. simpl. split.
  - apply traverse_file_items_fst.
  - apply Forall_forall. intros fi Hin.
    destruct (traverse_file_items_paths _ [] (Models.suggested_name info) fi Hin)
      as (q & it & Hp & Hq & Hi).
    simpl in Hp. rewrite Hp.
    destruct (item_at_same_shape q
                (file_tree (TorrentAddingDialog_init info))
                (file_tree (clicks (TorrentAddingDialog_init info) cs)) it)
      as (it2 & H2 & Hi2); [by rewrite shape_clicks|done|].
    exists it2. split; [done|congruence].
Qed.
